(** * meteor-to-node: shallow embedding and verified properties

    The development follows the JavaScript sources:
    - [meteor-lite/conversion/meteor-arch.js]      (module [Arch])
    - [helpers/globals.js]                             (module [Globals])
    - [meteor-lite/convert-meteor-package-to-npm.js] (modules [Package]
      and [Registry])

    JavaScript values are embedded as follows.  A [Set] is a duplicate-free
    list in insertion order, a [Map] or a plain object used as a dictionary
    is an association list in insertion order (both iterate in that order
    in JavaScript); the resolution maps, which are only ever looked up by
    key, are [gmap]s.  [undefined] is [None].  Thrown exceptions are the
    [Err] case of [result]. *)

From stdpp Require Import base list strings gmap sorting.
From Stdlib Require Import ZArith Ascii.

Set Default Proof Using "Type".

(** ** JavaScript built-ins used by the sources *)

Module JS.

Inductive error :=
| TypeError            (* property access on undefined or null *)
| ThrownError (msg : string)
| OutOfFuel.           (* the recursion bound of the model was reached *)

Inductive result (A : Type) :=
| Ok (a : A)
| Err (e : error).
Arguments Ok {A} a.
Arguments Err {A} e.

Definition bind {A B} (r : result A) (k : A → result B) : result B :=
  match r with
  | Ok a => k a
  | Err e => Err e
  end.

(** [arr.forEach(f)] where [f] may throw and updates an accumulator. *)
Fixpoint forEach {A S} (f : S → A → result S) (l : list A) (s : S) : result S :=
  match l with
  | [] => Ok s
  | x :: l' => bind (f s x) (forEach f l')
  end.

(** *** [Set]: insertion-ordered, duplicate free *)

Definition set_add (x : string) (s : list string) : list string :=
  if decide (x ∈ s) then s else s ++ [x].

(** [new Set(array)] *)
Definition set_from (l : list string) : list string :=
  foldl (λ s x, set_add x s) [] l.

(** *** [Map] and dictionary objects: insertion-ordered association lists.
    Setting an existing key keeps its position. *)

Fixpoint map_set {V} (k : string) (v : V) (m : list (string * V)) : list (string * V) :=
  match m with
  | [] => [(k, v)]
  | (k', v') :: m' =>
      if decide (k' = k) then (k, v) :: m' else (k', v') :: map_set k v m'
  end.

Fixpoint map_get {V} (k : string) (m : list (string * V)) : option V :=
  match m with
  | [] => None
  | (k', v') :: m' => if decide (k' = k) then Some v' else map_get k m'
  end.

(** [Object.keys(obj)] and [map.keys()]: the keys in insertion order (the
    keys of the dictionaries here are package names, none of which is an
    array index, which [Object.keys] would list first). *)
Definition keys {V} (m : list (string * V)) : list string := m.*1.

(** *** Strings *)

(** [s.startsWith(p)] *)
Definition startsWith (p s : string) : bool := String.prefix p s.

(** [s.slice(1)] *)
Definition slice1 (s : string) : string :=
  match s with
  | EmptyString => EmptyString
  | String _ r => r
  end.

(** [s.split(c)] for a one-character separator. *)
Fixpoint split (c : ascii) (s : string) : list string :=
  match s with
  | EmptyString => [EmptyString]
  | String a r =>
      if decide (a = c) then EmptyString :: split c r
      else match split c r with
           | [] => [String a EmptyString]
           | w :: ws => String a w :: ws
           end
  end.

(** [arr.join(sep)] *)
Fixpoint join (sep : string) (l : list string) : string :=
  match l with
  | [] => EmptyString
  | [x] => x
  | x :: l' => x +:+ sep +:+ join sep l'
  end.

(** [s.replace(c, d)] with a one-character string pattern: only the first
    occurrence is replaced. *)
Fixpoint replace (c d : ascii) (s : string) : string :=
  match s with
  | EmptyString => EmptyString
  | String a r => if decide (a = c) then String d r else String a (replace c d r)
  end.

(** Does the character occur in the string? *)
Fixpoint contains (c : ascii) (s : string) : bool :=
  match s with
  | EmptyString => false
  | String a r => if decide (a = c) then true else contains c r
  end.

(** [Array.prototype.sort(cmp)] is stable; for a comparator that orders
    by a key every stable sort gives the same array.  [sortBy le] is the
    stable insertion sort: an element is put in front of the first one it
    is [le] to, so equal elements keep their relative order. *)
Section Sort.
Context {A : Type} (le : A → A → bool).

Fixpoint insert_sorted (x : A) (l : list A) : list A :=
  match l with
  | [] => [x]
  | y :: l' => if le x y then x :: y :: l' else y :: insert_sorted x l'
  end.

Fixpoint sortBy (l : list A) : list A :=
  match l with
  | [] => []
  | x :: l' => insert_sorted x (sortBy l')
  end.
End Sort.

(** [s.slice(p.length)] for a string [s] that starts with [p]. *)
Fixpoint dropPrefix (p s : string) : string :=
  match p, s with
  | String _ p', String _ s' => dropPrefix p' s'
  | _, _ => s
  end.

(** [s.replace(pat, '')] with a string pattern: the first occurrence of
    [pat] is removed. *)
Fixpoint removeFirst (pat s : string) : string :=
  if String.prefix pat s then dropPrefix pat s
  else match s with
       | EmptyString => EmptyString
       | String a r => String a (removeFirst pat r)
       end.

End JS.

Import JS.

(** ** [meteor-arch.js]: the build-target tree *)

Module Arch.

(** The private fields of [class MeteorArch].  The parent reference is the
    parent node as it is when the query runs.  [#childArchs] is only read
    by [hasChildArchs] and is left out. *)
Unset Elimination Schemes.
Inductive MeteorArch := mkArch {
  archName : string;
  parentArch : option MeteorArch;
  exports : list string;
  imports : list (string * Z);          (* Map: specifier -> importOrder *)
  impliedPackages : list string;        (* Set *)
  preloadPackages : list string;        (* Set *)
  unorderedPackages : list string;      (* Set *)
  mainModule : option string;
  assets : list string;
  modified : bool;
}.
Set Elimination Schemes.

Definition newArch (name : string) (parent : option MeteorArch) : MeteorArch :=
  mkArch name parent [] [] [] [] [] None [] false.

Definition addExport (symbol : string) (a : MeteorArch) : MeteorArch :=
  mkArch (archName a) (parentArch a) (exports a ++ [symbol]) (imports a)
    (impliedPackages a) (preloadPackages a) (unorderedPackages a)
    (mainModule a) (assets a) true.

Definition addAsset (file : string) (a : MeteorArch) : MeteorArch :=
  mkArch (archName a) (parentArch a) (exports a) (imports a)
    (impliedPackages a) (preloadPackages a) (unorderedPackages a)
    (mainModule a) (assets a ++ [file]) true.

Definition addImport (item : string) (importOrder : Z) (a : MeteorArch) : MeteorArch :=
  mkArch (archName a) (parentArch a) (exports a) (map_set item importOrder (imports a))
    (impliedPackages a) (preloadPackages a) (unorderedPackages a)
    (mainModule a) (assets a) true.

Definition addPreloadPackage (nodeName : string) (a : MeteorArch) : MeteorArch :=
  mkArch (archName a) (parentArch a) (exports a) (imports a)
    (impliedPackages a) (set_add nodeName (preloadPackages a)) (unorderedPackages a)
    (mainModule a) (assets a) true.

Definition addUnorderedPackage (nodeName : string) (a : MeteorArch) : MeteorArch :=
  mkArch (archName a) (parentArch a) (exports a) (imports a)
    (impliedPackages a) (preloadPackages a) (set_add nodeName (unorderedPackages a))
    (mainModule a) (assets a) true.

Definition addImpliedPackage (meteorName : string) (a : MeteorArch) : MeteorArch :=
  mkArch (archName a) (parentArch a) (exports a) (imports a)
    (set_add meteorName (impliedPackages a)) (preloadPackages a) (unorderedPackages a)
    (mainModule a) (assets a) true.

Definition setMainModule (filePath : string) (a : MeteorArch) : MeteorArch :=
  mkArch (archName a) (parentArch a) (exports a) (imports a)
    (impliedPackages a) (preloadPackages a) (unorderedPackages a)
    (Some filePath) (assets a) true.

(** [#getImportsEntries]: own entries first, then the parent's. *)
Fixpoint getImportsEntries (a : MeteorArch) : list (string * Z) :=
  imports a ++
  match parentArch a with
  | Some p => getImportsEntries p
  | None => []
  end.

(** The comparator [(a, b) => a[1] - b[1]] on integer orders. *)
Definition byOrder (x y : string * Z) : bool := (x.2 <=? y.2)%Z.

Definition getImports (justOwn : bool) (a : MeteorArch) : list string :=
  if justOwn then set_from (keys (imports a))
  else
    let all := sortBy byOrder (getImportsEntries a) in
    set_from (all.*1).

(** [isNoop(justOwn = true)].  The result is a JavaScript value: [true],
    [false] or, when [&&] falls through to [this.parentArch?.isNoop()] on
    a node without a parent, [undefined] ([None]).  The call on the parent
    passes no argument, so there [justOwn] is its default [true]. *)
Definition isNoop (justOwn : bool) (a : MeteorArch) : option bool :=
  if negb justOwn then
    if negb (modified a)
    then match parentArch a with
         | Some p => Some (negb (modified p))
         | None => None
         end
    else Some false
  else Some (negb (modified a)).

Fixpoint getActiveArch (a : MeteorArch) : MeteorArch :=
  match parentArch a with
  | Some p => if negb (modified a) then getActiveArch p else a
  | None => a
  end.

(** The ancestors of a node, nearest first. *)
Fixpoint ancestors (a : MeteorArch) : list MeteorArch :=
  match parentArch a with
  | Some p => p :: ancestors p
  | None => []
  end.

(** [getExports(justOwn = false)]: [Array.from(new Set([...parent's,
    ...own]))]; the call on the parent passes no argument. *)
Fixpoint getExports (justOwn : bool) (a : MeteorArch) : list string :=
  if justOwn then exports a
  else set_from
         (match parentArch a with
          | Some p => getExports false p
          | None => []
          end ++ exports a).

(** [getAssets(justOwn = false)]: an array, duplicates are kept. *)
Fixpoint getAssets (justOwn : bool) (a : MeteorArch) : list string :=
  if justOwn then assets a
  else match parentArch a with
       | Some p => getAssets false p
       | None => []
       end ++ assets a.

(** [getImpliedPackages(justOwn = false)] *)
Fixpoint getImpliedPackages (justOwn : bool) (a : MeteorArch) : list string :=
  if justOwn then impliedPackages a
  else set_from
         (match parentArch a with
          | Some p => getImpliedPackages false p
          | None => []
          end ++ impliedPackages a).

(** [getPreloadPackages(justOwn = false)] *)
Fixpoint getPreloadPackages (justOwn : bool) (a : MeteorArch) : list string :=
  if justOwn then preloadPackages a
  else set_from
         (match parentArch a with
          | Some p => getPreloadPackages false p
          | None => []
          end ++ preloadPackages a).

(** A JavaScript string value is truthy when it is defined and not empty. *)
Definition truthy (s : option string) : bool :=
  match s with
  | Some (String _ _) => true
  | _ => false
  end.

(** [getMainModule(justOwn = false)]:
    [this.#mainModule || this.#parentArch?.getMainModule()] *)
Fixpoint getMainModule (justOwn : bool) (a : MeteorArch) : option string :=
  if justOwn then mainModule a
  else if truthy (mainModule a) then mainModule a
  else match parentArch a with
       | Some p => getMainModule false p
       | None => None
       end.

(** The nodes from the root down to [a]. *)
Definition lineage (a : MeteorArch) : list MeteorArch :=
  reverse (a :: ancestors a).

End Arch.

(** ** [globals.js]: rewriting package globals *)

Module Globals.

(** *** Syntax trees

    [acorn.parse] and [recast]'s [print] are libraries outside the
    repository: a file is represented by the ESTree syntax tree the
    parser returns, and the output of the rewrite by the tree handed to
    the printer.  A node has its [type], its [name] (read on [Identifier]
    nodes only), the identity under which the scope manager knows it
    ([None] for the objects the rewrite itself creates) and its child
    nodes in property order, each with the property the walker reaches it
    through (the elements of an array property all carry that property's
    name). *)
Unset Elimination Schemes.
Inductive node := Node {
  ntype : string;
  nname : string;
  nid : option nat;
  kids : list (string * node);
}.
Set Elimination Schemes.

(** *** Scopes

    The scope analysis ([escope]'s [analyze]) is a library as well; the
    rewrite reads three things of a scope: the names of [scope.set], for
    every reference of [scope.through] the name [ref.resolved?.name]
    ([None] when the reference is unresolved), and [scope.upper]. *)
Unset Elimination Schemes.
Inductive Scope := mkScope {
  set : list string;
  through : list (option string);
  upper : option Scope;
}.
Set Elimination Schemes.

(** [scopeManager.acquire(node)], [null] when the node has no scope. *)
Definition ScopeManager := nat → option Scope.

Definition acquire (sm : ScopeManager) (n : node) : option Scope :=
  match nid n with
  | Some k => sm k
  | None => None
  end.

(** [s.includes(p)], for [/Function/.test(node.type)]. *)
Fixpoint includes (p s : string) : bool :=
  String.prefix p s ||
  match s with
  | EmptyString => false
  | String _ r => includes p r
  end.

Definition isFunction (n : node) : bool := includes "Function" (ntype n).

Definition identifier (name : string) : node :=
  Node "Identifier" name None [].

(** The in-place mutation of a rewritten node: [type] is overwritten,
    [object] and [property] are added, everything else stays. *)
Definition rewritten (n : node) : node :=
  Node "MemberExpression" (nname n) (nid n)
    (kids n ++ [("object", identifier "__package_globals__");
                ("property", identifier (nname n))]).

(** The condition of [leave]; conjuncts are evaluated left to right and
    [parent.type] on the root or [currentScope.set] on [null] throws. *)
Definition shouldRewrite (packageGlobalsSet : list string)
    (currentScope : option Scope) (parentType : option string) (prop : string)
    (n : node) : result bool :=
  if negb (bool_decide (ntype n = "Identifier")) then Ok false
  else match parentType with
  | None => Err TypeError
  | Some pt =>
    if bool_decide (pt = "VariableDeclarator") then Ok false
    else if negb (negb (bool_decide (pt = "MemberExpression"))
                  || bool_decide (prop = "object")) then Ok false
    else if bool_decide (pt = "Property") then Ok false
    else if negb (bool_decide (nname n ∈ packageGlobalsSet)) then Ok false
    else match currentScope with
    | None => Err TypeError
    | Some sc =>
      if bool_decide (nname n ∈ set sc) then Ok false
      else if bool_decide (Some (nname n) ∈ through sc) then Ok false
      else Ok true
    end
  end.

(** [currentScope = currentScope.upper] *)
Definition popScope (currentScope : option Scope) : result (option Scope) :=
  match currentScope with
  | None => Err TypeError
  | Some sc => Ok (upper sc)
  end.

(** [walk(ast, { enter, leave })] of estree-walker with the two handlers of
    [rewriteFileForPackageGlobals]; the walker's state is [currentScope]. *)
Fixpoint walk (sm : ScopeManager) (packageGlobalsSet : list string)
    (parentType : option string) (prop : string) (n : node)
    (currentScope : option Scope) {struct n} : result (node * option Scope) :=
  (* enter *)
  let entered := if isFunction n then acquire sm n else currentScope in
  (* the children, in property order *)
  bind ((fix walkKids (ks : list (string * node)) (cs : option Scope)
           : result (list (string * node) * option Scope) :=
           match ks with
           | [] => Ok ([], cs)
           | (p, k) :: ks' =>
               bind (walk sm packageGlobalsSet (Some (ntype n)) p k cs) (λ r,
               bind (walkKids ks' r.2) (λ rs,
               Ok ((p, r.1) :: rs.1, rs.2)))
           end) (kids n) entered) (λ walked,
  (* leave *)
  let n' := Node (ntype n) (nname n) (nid n) walked.1 in
  bind (if isFunction n then popScope walked.2 else Ok walked.2) (λ left,
  bind (shouldRewrite packageGlobalsSet left parentType prop n') (λ b,
  Ok (if b then rewritten n' else n', left)))).

(** The children loop of [walk], as a function of its own. *)
Fixpoint walkKids (sm : ScopeManager) (packageGlobalsSet : list string)
    (parentType : string) (ks : list (string * node)) (cs : option Scope)
    : result (list (string * node) * option Scope) :=
  match ks with
  | [] => Ok ([], cs)
  | (p, k) :: ks' =>
      bind (walk sm packageGlobalsSet (Some parentType) p k cs) (λ r,
      bind (walkKids sm packageGlobalsSet parentType ks' r.2) (λ rs,
      Ok ((p, r.1) :: rs.1, rs.2)))
  end.

(** [rewriteFileForPackageGlobals(contents, packageGlobalsSet)]:
    [packageGlobalsSet] may be [undefined]. *)
Definition rewriteFileForPackageGlobals (sm : ScopeManager) (ast : node)
    (packageGlobalsSet : option (list string)) : result node :=
  match packageGlobalsSet with
  | None | Some [] => Ok ast
  | Some g =>
      bind (walk sm g None "" ast (acquire sm ast)) (λ r, Ok r.1)
  end.

(** The node at a position: a path of child indexes from the root. *)
Fixpoint subtree_at (path : list nat) (n : node) : option node :=
  match path with
  | [] => Some n
  | i :: path' =>
      match kids n !! i with
      | Some (_, k) => subtree_at path' k
      | None => None
      end
  end.

(** A scope keeps a name from being rewritten when the name is in its
    variable set or one of its through references resolved to it. *)
Definition protects (sc : Scope) (x : string) : Prop :=
  x ∈ set sc ∨ Some x ∈ through sc.

(** The scopes of the functions of a subtree, entered with the current
    scope [cs], are well nested and satisfy [P]: the upper scope of the
    scope of every function is the scope the function is entered from. *)
Fixpoint scopedBy (P : Scope → Prop) (sm : ScopeManager) (cs : Scope)
    (n : node) : Prop :=
  if isFunction n then
    ∃ sc, acquire sm n = Some sc ∧ P sc ∧ upper sc = Some cs
          ∧ (fix all (ks : list (string * node)) : Prop :=
               match ks with
               | [] => True
               | (_, k) :: ks' => scopedBy P sm sc k ∧ all ks'
               end) (kids n)
  else
    (fix all (ks : list (string * node)) : Prop :=
       match ks with
       | [] => True
       | (_, k) :: ks' => scopedBy P sm cs k ∧ all ks'
       end) (kids n).

(** Well nested. *)
Definition nested (sm : ScopeManager) : Scope → node → Prop :=
  scopedBy (λ _, True) sm.

(** Every [Identifier] named [x] of [t] is an [Identifier] named [x] at the
    same position of [t']. *)
Definition keeps (x : string) (t t' : node) : Prop :=
  ∀ path n,
    subtree_at path t = Some n → ntype n = "Identifier" → nname n = x →
    ∃ n', subtree_at path t' = Some n'
          ∧ ntype n' = "Identifier" ∧ nname n' = x.

(** Is the node the member access [__package_globals__.x]? *)
Definition isGlobalsAccess (x : string) (n : node) : bool :=
  bool_decide (ntype n = "MemberExpression")
  && match kids n with
     | [("object", o); ("property", p)] =>
         bool_decide (ntype o = "Identifier")
         && bool_decide (nname o = "__package_globals__")
         && bool_decide (ntype p = "Identifier")
         && bool_decide (nname p = x)
     | _ => false
     end.

(** The parent type a node is left with in the second pass: the same, or
    [MemberExpression] where the first pass rewrote an [Identifier]. *)
Definition compat (pt pt' : option string) : Prop :=
  pt' = pt ∨ (pt = Some "Identifier" ∧ pt' = Some "MemberExpression").



(** *** A second application

    A second call of [rewriteFileForPackageGlobals] parses the printed
    output of the first and analyses its scopes anew.  The tree it walks
    has the shape of the tree the first call printed, with new node
    objects: the same types and property names, and the same names on
    the [Identifier] nodes. *)

(** The scope [s1] of the first analysis and what the second analysis
    has in its place: the second protects every owned name the first
    protects, and so up the chain of upper scopes. *)
Fixpoint covers (g : list string) (s1 : Scope) (o2 : option Scope) : Prop :=
  match o2 with
  | None => False
  | Some s2 =>
      (∀ x, x ∈ g → protects s1 x → protects s2 x)
      ∧ match upper s1 with
        | None => True
        | Some u1 => covers g u1 (upper s2)
        end
  end.

Definition coversO (g : list string) (o1 o2 : option Scope) : Prop :=
  match o1 with
  | None => True
  | Some s1 => covers g s1 o2
  end.

(** [t2] is the tree of the second parse for the printed tree [t], and
    the scopes [sm2] of its functions cover the scopes [sm] of the
    functions of [t]. *)
Fixpoint reparsed (g : list string) (sm sm2 : ScopeManager) (t t2 : node)
    : Prop :=
  ntype t2 = ntype t
  ∧ (ntype t = "Identifier" → nname t2 = nname t)
  ∧ (isFunction t = true → coversO g (acquire sm t) (acquire sm2 t2))
  ∧ (fix all (ks ks2 : list (string * node)) : Prop :=
       match ks, ks2 with
       | [], [] => True
       | (p, k) :: ks', (p2, k2) :: ks2' =>
           p2 = p ∧ reparsed g sm sm2 k k2 ∧ all ks' ks2'
       | _, _ => False
       end) (kids t) (kids t2).

(** *** [replaceGlobalsInFile] *)

(** Where a global of the file comes from: the specifier it is imported
    from, or the namespace module of the package. *)
Definition sourceOf (importedGlobals : gmap string string) (global : string)
    : string :=
  match importedGlobals !! global with
  | Some from => from
  | None => "__globals.js"
  end.

(** The loop that fills [imports], a [Map] from specifiers to [Set]s. *)
Definition groupImports (globals : list string)
    (importedGlobals : gmap string string) : list (string * list string) :=
  foldl (λ imports global,
           let from := sourceOf importedGlobals global in
           let imports := match map_get from imports with
                          | None => map_set from [] imports
                          | Some _ => imports
                          end in
           map_set from (set_add global (default [] (map_get from imports)))
             imports)
        [] globals.

(** A group of [imports], if there is one: groups are created with their
    first member. *)
Definition nonEmpty (l : list string) : option (list string) :=
  match l with
  | [] => None
  | _ :: _ => Some l
  end.

(** The specifier of the namespace module as seen from [file]. *)
Definition globalsSpecifier (outputParentFolder file : string) : string :=
  let relative :=
    join "/" ((λ _, "..") <$>
              drop 2 (split "/" (removeFirst (removeFirst "./" outputParentFolder)
                                   file))) in
  "./" +:+ relative
  +:+ match relative with EmptyString => EmptyString | _ => "/" end
  +:+ "__globals.js".

(** One line of [importStr]. *)
Definition importLine (outputParentFolder file : string)
    (entry : string * list string) : string :=
  if bool_decide (entry.1 = "__globals.js") then
    "import __package_globals__ from " +:+ String "034" EmptyString
    +:+ globalsSpecifier outputParentFolder file
    +:+ String "034" EmptyString +:+ ";"
  else
    "import { " +:+ join ", " entry.2 +:+ " } from " +:+ String "034" EmptyString
    +:+ entry.1 +:+ String "034" EmptyString +:+ ";".

(** [replaceGlobalsInFile(outputParentFolder, globals, file,
    importedGlobals)] on the syntax tree of the file: nothing is written
    when [imports] is empty, else the import statements and the rewritten
    tree. *)
Definition replaceGlobalsInFile (sm : ScopeManager) (outputParentFolder : string)
    (globals : list string) (file : string) (ast : node)
    (importedGlobals : gmap string string) : result (option (string * node)) :=
  let imports := groupImports globals importedGlobals in
  match imports with
  | [] => Ok None
  | _ =>
      let importStr :=
        join (String "010" EmptyString)
          (importLine outputParentFolder file <$> imports) in
      bind (rewriteFileForPackageGlobals sm ast (map_get "__globals.js" imports))
        (λ out, Ok (Some (importStr, out)))
  end.

End Globals.

(** ** [maybeRewriteGlobalThis]: top-level [this]

    The walk of [estree-walker] calls [enter] on a node, walks its
    children in order and calls [leave] on the node. *)

Module GlobalThis.
Import Globals.

Definition contextChangingTypes : list string :=
  ["ArrowFunctionExpression"; "FunctionExpression"; "FunctionDeclaration"].

Definition contextChanging (n : node) : bool :=
  bool_decide (ntype n ∈ contextChangingTypes).

(** The state of the walk: the stack [currentContext] and [ret].  A node
    object is identified by its position, the path of child indexes from
    the root, so that [currentContext[...] === node] is the equality of
    positions. *)
Definition State : Type := list (list nat) * bool.

(** [currentContext.pop()] when the top of the stack is the node. *)
Definition leaveThis (path : list nat) (stack : list (list nat)) : list (list nat) :=
  if bool_decide (last stack = Some path) then removelast stack else stack.

Fixpoint walkThis (path : list nat) (n : node) (st : State) {struct n}
    : node * State :=
  (* enter *)
  let stack := if contextChanging n then st.1 ++ [path] else st.1 in
  let hit := bool_decide (ntype n = "ThisExpression")
             && bool_decide (List.length stack = 1) in
  (* the children *)
  let walked :=
    (fix walkKids (i : nat) (ks : list (string * node)) (st : State)
       : list (string * node) * State :=
       match ks with
       | [] => ([], st)
       | (p, k) :: ks' =>
           let r := walkThis (path ++ [i]) k st in
           let rs := walkKids (S i) ks' r.2 in
           ((p, r.1) :: rs.1, rs.2)
       end) 0 (kids n) (stack, st.2 || hit) in
  (* leave *)
  (Node (if hit then "Identifier" else ntype n)
        (if hit then "globalThis" else nname n) (nid n) walked.1,
   (leaveThis path walked.2.1, walked.2.2)).

Fixpoint walkThisKids (path : list nat) (i : nat) (ks : list (string * node))
    (st : State) : list (string * node) * State :=
  match ks with
  | [] => ([], st)
  | (p, k) :: ks' =>
      let r := walkThis (path ++ [i]) k st in
      let rs := walkThisKids path (S i) ks' r.2 in
      ((p, r.1) :: rs.1, rs.2)
  end.

(** [maybeRewriteGlobalThis(ast)]: the tree after the walk and the value
    returned. *)
Definition maybeRewriteGlobalThis (ast : node) : node * bool :=
  let r := walkThis [] ast ([[]], false) in
  (r.1, r.2.2).

(** What the walk amounts to: below a function-like node nothing changes,
    elsewhere every [ThisExpression] becomes the identifier [globalThis]. *)
Fixpoint topLevelThis (inFunction : bool) (n : node) : node :=
  let inFunction := inFunction || contextChanging n in
  let hit := bool_decide (ntype n = "ThisExpression") && negb inFunction in
  Node (if hit then "Identifier" else ntype n)
       (if hit then "globalThis" else nname n) (nid n)
       ((fix go (ks : list (string * node)) : list (string * node) :=
           match ks with
           | [] => []
           | (p, k) :: ks' => (p, topLevelThis inFunction k) :: go ks'
           end) (kids n)).

(** Is there a [ThisExpression] that is not below a function-like node? *)
Fixpoint hasTopLevelThis (inFunction : bool) (n : node) : bool :=
  let inFunction := inFunction || contextChanging n in
  (bool_decide (ntype n = "ThisExpression") && negb inFunction)
  || (fix go (ks : list (string * node)) : bool :=
        match ks with
        | [] => false
        | (_, k) :: ks' => hasTopLevelThis inFunction k || go ks'
        end) (kids n).

(** [q] is the position of a proper ancestor of the node at [path]. *)
Definition properPrefix (q path : list nat) : Prop :=
  ∃ i rest, path = q ++ i :: rest.

End GlobalThis.

(** ** [convert-meteor-package-to-npm.js]: the package unit *)

Module Package.

Definition newline : string := String "010"%char EmptyString.
Definition dquote : string := String "034"%char EmptyString.

Definition commonJS : list string :=
  ["jquery"; "underscore"; "momentjs:moment"; "softwarerero:accounts-t9n"].

Definition excludes : list string :=
  ["ecmascript"; "typescript"; "modules"; "less"; "minifiers";
   "isobuild:compiler-plugin"; "isobuild:dynamic-import";
   "ecmascript-runtime-client"; "ecmascript-runtime-server";
   "isobuild:minifier-plugin"; "standard-minifier-css";
   "standard-minifier-js"; "hot-module-replacement"].

(** [globalStaticImports] of [helpers/globals.js] *)
Definition globalStaticImports : list (string * string) :=
  [("Meteor", "@meteor/meteor")].

(** *** Entry-wrapper imports *)

(** [a.match(/^[@\/]/)] *)
Definition isAbsolute (a : string) : bool :=
  match a with
  | String c _ => bool_decide (c = "@"%char) || bool_decide (c = "/"%char)
  | EmptyString => false
  end.

(** The comparator of [sortImports]. *)
Definition compareImports (a b : string) : Z :=
  let aIsAbsolute := isAbsolute a in
  let bIsAbsolute := isAbsolute b in
  if aIsAbsolute && bIsAbsolute then 0
  else if negb aIsAbsolute && negb bIsAbsolute then 0
  else if aIsAbsolute && negb bIsAbsolute then (-1)
  else if negb aIsAbsolute && bIsAbsolute then 1
  else 0.

Definition sortImports (imports : list string) : list string :=
  sortBy (λ a b, (compareImports a b <=? 0)%Z) imports.

Definition requireStatement (imp : string) : string :=
  "require(" +:+ dquote +:+ imp +:+ dquote +:+ ");".

Definition importStatement (imp : string) : string :=
  "import " +:+ dquote +:+ imp +:+ dquote +:+ ";".

Definition getImportStr (importsSet : list string) (isCommon : bool) : string :=
  if isCommon
  then join newline (requireStatement <$> sortImports importsSet)
  else join newline (importStatement <$> sortImports importsSet).

(** The text written to [__server.js] and [__client.js].  The main-module
    re-export ([getExportMainModuleStr], present when the architecture
    has a main module) and the export statements ([getExportStr]) come
    from [helpers/content.js], which is outside the sources at hand;
    their texts are arguments. *)
Definition entryWrapper (importsSet : list string) (isCommon : bool)
    (exportMainModuleStr : option string) (exportStr : string) : string :=
  join newline
    ([getImportStr importsSet isCommon]
     ++ match exportMainModuleStr with Some m => [m] | None => [] end
     ++ [exportStr]).

(** *** The unit *)

(** A dependency version: the [meteorVersionPlaceholderSymbol], a version
    string or, in the output of [toJSON], [undefined]. *)
Inductive depVersion :=
| meteorVersionPlaceholderSymbol
| versionString (v : string)
| versionUndefined.

#[global] Instance depVersion_eq_dec : EqDecision depVersion.
Proof. solve_decision. Defined.

Record MeteorPackage := mkPackage {
  meteorName : string;
  nodeName : option string;
  version : option string;
  description : option string;
  dependencies : list (string * depVersion);
  peerDependencies : list (string * depVersion);
  optionalDependencies : list (string * depVersion);
  serverJsExports : list string;
  clientJsExports : list string;
  clientJsImports : list string;          (* Set *)
  serverJsImports : list string;          (* Set *)
  impliedClientPackages : list string;    (* Set *)
  impliedServerPackages : list string;    (* Set *)
  allPackages : list string;              (* Set *)
  immediateDependencies : list string;    (* Set *)
  serverMainModule : option string;
  clientMainModule : option string;
  clientAssets : list string;
  serverAssets : list string;
}.

(** Field updates: [with_f v p] is [p] after [this.#f = v]. *)
Definition with_meteorName v (p : MeteorPackage) : MeteorPackage :=
  mkPackage v (nodeName p) (version p) (description p) (dependencies p)
    (peerDependencies p) (optionalDependencies p) (serverJsExports p)
    (clientJsExports p) (clientJsImports p) (serverJsImports p)
    (impliedClientPackages p) (impliedServerPackages p) (allPackages p)
    (immediateDependencies p) (serverMainModule p) (clientMainModule p)
    (clientAssets p) (serverAssets p).
Definition with_nodeName v (p : MeteorPackage) : MeteorPackage :=
  mkPackage (meteorName p) v (version p) (description p) (dependencies p)
    (peerDependencies p) (optionalDependencies p) (serverJsExports p)
    (clientJsExports p) (clientJsImports p) (serverJsImports p)
    (impliedClientPackages p) (impliedServerPackages p) (allPackages p)
    (immediateDependencies p) (serverMainModule p) (clientMainModule p)
    (clientAssets p) (serverAssets p).
Definition with_version v (p : MeteorPackage) : MeteorPackage :=
  mkPackage (meteorName p) (nodeName p) v (description p) (dependencies p)
    (peerDependencies p) (optionalDependencies p) (serverJsExports p)
    (clientJsExports p) (clientJsImports p) (serverJsImports p)
    (impliedClientPackages p) (impliedServerPackages p) (allPackages p)
    (immediateDependencies p) (serverMainModule p) (clientMainModule p)
    (clientAssets p) (serverAssets p).
Definition with_description v (p : MeteorPackage) : MeteorPackage :=
  mkPackage (meteorName p) (nodeName p) (version p) v (dependencies p)
    (peerDependencies p) (optionalDependencies p) (serverJsExports p)
    (clientJsExports p) (clientJsImports p) (serverJsImports p)
    (impliedClientPackages p) (impliedServerPackages p) (allPackages p)
    (immediateDependencies p) (serverMainModule p) (clientMainModule p)
    (clientAssets p) (serverAssets p).
Definition with_dependencies v (p : MeteorPackage) : MeteorPackage :=
  mkPackage (meteorName p) (nodeName p) (version p) (description p) v
    (peerDependencies p) (optionalDependencies p) (serverJsExports p)
    (clientJsExports p) (clientJsImports p) (serverJsImports p)
    (impliedClientPackages p) (impliedServerPackages p) (allPackages p)
    (immediateDependencies p) (serverMainModule p) (clientMainModule p)
    (clientAssets p) (serverAssets p).
Definition with_peerDependencies v (p : MeteorPackage) : MeteorPackage :=
  mkPackage (meteorName p) (nodeName p) (version p) (description p)
    (dependencies p) v (optionalDependencies p) (serverJsExports p)
    (clientJsExports p) (clientJsImports p) (serverJsImports p)
    (impliedClientPackages p) (impliedServerPackages p) (allPackages p)
    (immediateDependencies p) (serverMainModule p) (clientMainModule p)
    (clientAssets p) (serverAssets p).
Definition with_optionalDependencies v (p : MeteorPackage) : MeteorPackage :=
  mkPackage (meteorName p) (nodeName p) (version p) (description p)
    (dependencies p) (peerDependencies p) v (serverJsExports p)
    (clientJsExports p) (clientJsImports p) (serverJsImports p)
    (impliedClientPackages p) (impliedServerPackages p) (allPackages p)
    (immediateDependencies p) (serverMainModule p) (clientMainModule p)
    (clientAssets p) (serverAssets p).
Definition with_serverJsExports v (p : MeteorPackage) : MeteorPackage :=
  mkPackage (meteorName p) (nodeName p) (version p) (description p)
    (dependencies p) (peerDependencies p) (optionalDependencies p) v
    (clientJsExports p) (clientJsImports p) (serverJsImports p)
    (impliedClientPackages p) (impliedServerPackages p) (allPackages p)
    (immediateDependencies p) (serverMainModule p) (clientMainModule p)
    (clientAssets p) (serverAssets p).
Definition with_clientJsExports v (p : MeteorPackage) : MeteorPackage :=
  mkPackage (meteorName p) (nodeName p) (version p) (description p)
    (dependencies p) (peerDependencies p) (optionalDependencies p)
    (serverJsExports p) v (clientJsImports p) (serverJsImports p)
    (impliedClientPackages p) (impliedServerPackages p) (allPackages p)
    (immediateDependencies p) (serverMainModule p) (clientMainModule p)
    (clientAssets p) (serverAssets p).
Definition with_clientJsImports v (p : MeteorPackage) : MeteorPackage :=
  mkPackage (meteorName p) (nodeName p) (version p) (description p)
    (dependencies p) (peerDependencies p) (optionalDependencies p)
    (serverJsExports p) (clientJsExports p) v (serverJsImports p)
    (impliedClientPackages p) (impliedServerPackages p) (allPackages p)
    (immediateDependencies p) (serverMainModule p) (clientMainModule p)
    (clientAssets p) (serverAssets p).
Definition with_serverJsImports v (p : MeteorPackage) : MeteorPackage :=
  mkPackage (meteorName p) (nodeName p) (version p) (description p)
    (dependencies p) (peerDependencies p) (optionalDependencies p)
    (serverJsExports p) (clientJsExports p) (clientJsImports p) v
    (impliedClientPackages p) (impliedServerPackages p) (allPackages p)
    (immediateDependencies p) (serverMainModule p) (clientMainModule p)
    (clientAssets p) (serverAssets p).
Definition with_impliedClientPackages v (p : MeteorPackage) : MeteorPackage :=
  mkPackage (meteorName p) (nodeName p) (version p) (description p)
    (dependencies p) (peerDependencies p) (optionalDependencies p)
    (serverJsExports p) (clientJsExports p) (clientJsImports p)
    (serverJsImports p) v (impliedServerPackages p) (allPackages p)
    (immediateDependencies p) (serverMainModule p) (clientMainModule p)
    (clientAssets p) (serverAssets p).
Definition with_impliedServerPackages v (p : MeteorPackage) : MeteorPackage :=
  mkPackage (meteorName p) (nodeName p) (version p) (description p)
    (dependencies p) (peerDependencies p) (optionalDependencies p)
    (serverJsExports p) (clientJsExports p) (clientJsImports p)
    (serverJsImports p) (impliedClientPackages p) v (allPackages p)
    (immediateDependencies p) (serverMainModule p) (clientMainModule p)
    (clientAssets p) (serverAssets p).
Definition with_allPackages v (p : MeteorPackage) : MeteorPackage :=
  mkPackage (meteorName p) (nodeName p) (version p) (description p)
    (dependencies p) (peerDependencies p) (optionalDependencies p)
    (serverJsExports p) (clientJsExports p) (clientJsImports p)
    (serverJsImports p) (impliedClientPackages p) (impliedServerPackages p)
    v (immediateDependencies p) (serverMainModule p) (clientMainModule p)
    (clientAssets p) (serverAssets p).
Definition with_immediateDependencies v (p : MeteorPackage) : MeteorPackage :=
  mkPackage (meteorName p) (nodeName p) (version p) (description p)
    (dependencies p) (peerDependencies p) (optionalDependencies p)
    (serverJsExports p) (clientJsExports p) (clientJsImports p)
    (serverJsImports p) (impliedClientPackages p) (impliedServerPackages p)
    (allPackages p) v (serverMainModule p) (clientMainModule p)
    (clientAssets p) (serverAssets p).
Definition with_serverMainModule v (p : MeteorPackage) : MeteorPackage :=
  mkPackage (meteorName p) (nodeName p) (version p) (description p)
    (dependencies p) (peerDependencies p) (optionalDependencies p)
    (serverJsExports p) (clientJsExports p) (clientJsImports p)
    (serverJsImports p) (impliedClientPackages p) (impliedServerPackages p)
    (allPackages p) (immediateDependencies p) v (clientMainModule p)
    (clientAssets p) (serverAssets p).
Definition with_clientMainModule v (p : MeteorPackage) : MeteorPackage :=
  mkPackage (meteorName p) (nodeName p) (version p) (description p)
    (dependencies p) (peerDependencies p) (optionalDependencies p)
    (serverJsExports p) (clientJsExports p) (clientJsImports p)
    (serverJsImports p) (impliedClientPackages p) (impliedServerPackages p)
    (allPackages p) (immediateDependencies p) (serverMainModule p) v
    (clientAssets p) (serverAssets p).
Definition with_clientAssets v (p : MeteorPackage) : MeteorPackage :=
  mkPackage (meteorName p) (nodeName p) (version p) (description p)
    (dependencies p) (peerDependencies p) (optionalDependencies p)
    (serverJsExports p) (clientJsExports p) (clientJsImports p)
    (serverJsImports p) (impliedClientPackages p) (impliedServerPackages p)
    (allPackages p) (immediateDependencies p) (serverMainModule p)
    (clientMainModule p) v (serverAssets p).
Definition with_serverAssets v (p : MeteorPackage) : MeteorPackage :=
  mkPackage (meteorName p) (nodeName p) (version p) (description p)
    (dependencies p) (peerDependencies p) (optionalDependencies p)
    (serverJsExports p) (clientJsExports p) (clientJsImports p)
    (serverJsImports p) (impliedClientPackages p) (impliedServerPackages p)
    (allPackages p) (immediateDependencies p) (serverMainModule p)
    (clientMainModule p) (clientAssets p) v.

(** [new MeteorPackage(meteorName)] *)
Definition newPackage (name : string) : MeteorPackage :=
  mkPackage name None None None [] [] [] [] [] [] [] [] [] [] [] None None [] [].

(** [static nodeNameToMeteorName(name)] *)
(** [static nodeNameToMeteorName(name)].  [name.split('/')[1]] is defined
    whenever [name] starts with ["@meteor/"] (lemma [split_meteor_second]);
    the default is never taken. *)
Definition nodeNameToMeteorName (name : string) : string :=
  if startsWith "@meteor/" name
  then default EmptyString (split "/" name !! 1%nat)
  else join ":" (split "/" (slice1 name)).

Definition isCommon (p : MeteorPackage) : bool :=
  bool_decide (meteorName p ∈ commonJS).

(** [archs.includes(a)] under [!archs?.length || ...]: [archs] may be
    [undefined] or empty. *)
Definition noArchs (archs : option (list string)) : bool :=
  match archs with
  | None | Some [] => true
  | Some _ => false
  end.

Definition archsInclude (archs : option (list string)) (a : string) : bool :=
  match archs with
  | None => false
  | Some l => bool_decide (a ∈ l)
  end.

Definition forServer (archs : option (list string)) : bool :=
  noArchs archs || archsInclude archs "server".

Definition forClient (archs : option (list string)) : bool :=
  noArchs archs || archsInclude archs "client" || archsInclude archs "web"
  || archsInclude archs "web.browser".

Definition addImport (item : string) (archs : option (list string))
    (p : MeteorPackage) : MeteorPackage :=
  let p := if forServer archs
           then with_serverJsImports (set_add item (serverJsImports p)) p else p in
  if forClient archs
  then with_clientJsImports (set_add item (clientJsImports p)) p else p.

(** [addNpmDeps(deps)]: [Object.assign(this.#dependencies, deps)] *)
Definition addNpmDeps (deps : list (string * depVersion)) (p : MeteorPackage)
    : MeteorPackage :=
  with_dependencies
    (foldl (λ d kv, map_set kv.1 kv.2 d) (dependencies p) deps) p.

Definition getImplies (clientOrServer : string) (p : MeteorPackage) : list string :=
  if bool_decide (clientOrServer = "server")
  then impliedServerPackages p else impliedClientPackages p.

Definition getExportedVars (clientOrServer : string) (p : MeteorPackage) : list string :=
  if bool_decide (clientOrServer = "server")
  then serverJsExports p else clientJsExports p.

Record BasicInfo := {
  basic_name : option string;
  basic_description : option string;
  basic_version : string;
}.

(** The options object of [addMeteorDependencies]; an absent property is
    [false]. *)
Record DepOpts := { weak : bool; unordered : bool }.

(** The dependency object [deps] refers to. *)
Inductive depsTarget := Required | Peer | Optional.

Definition depsOf (t : depsTarget) (p : MeteorPackage) : list (string * depVersion) :=
  match t with
  | Required => dependencies p
  | Peer => peerDependencies p
  | Optional => optionalDependencies p
  end.

Definition setDep (t : depsTarget) (k : string) (v : depVersion)
    (p : MeteorPackage) : MeteorPackage :=
  match t with
  | Required => with_dependencies (map_set k v (dependencies p)) p
  | Peer => with_peerDependencies (map_set k v (peerDependencies p)) p
  | Optional => with_optionalDependencies (map_set k v (optionalDependencies p)) p
  end.

Section WithHelpers.

(** [meteorNameToNodeName] of [helpers/helpers.js], a file outside the
    sources at hand. *)
Variable meteorNameToNodeName : string → string.

(** [setBasic({ name, description, version })]; [name || this.#meteorName]
    takes the old name when [name] is [undefined] or empty. *)
Definition setBasic (b : BasicInfo) (p : MeteorPackage) : MeteorPackage :=
  let name := match basic_name b with
              | Some (String c r) => String c r
              | _ => meteorName p
              end in
  with_version (Some (replace "_" "-" (basic_version b)))
    (with_description (basic_description b)
      (with_nodeName (Some (meteorNameToNodeName name))
        (with_meteorName name p))).

(** The body of [packages.forEach] in [addMeteorDependencies]. *)
Definition addMeteorDependency (deps : depsTarget)
    (archs : option (list string)) (opts : option DepOpts)
    (p : MeteorPackage) (dep : string) : MeteorPackage :=
  let name := default EmptyString (head (split "@" dep)) in
  let isWeak := from_option weak false opts in
  let isUnordered := from_option unordered false opts in
  if bool_decide (name ∈ excludes) then p
  else
    let p := if negb isWeak
             then with_allPackages (set_add name (allPackages p)) p else p in
    let nodeName := meteorNameToNodeName name in
    let p := setDep deps nodeName meteorVersionPlaceholderSymbol p in
    if negb isUnordered && negb isWeak
    then
      let p := addImport nodeName archs p in
      with_immediateDependencies (set_add name (immediateDependencies p)) p
    else p.

Definition addMeteorDependencies (packages : list string)
    (archs : option (list string)) (opts : option DepOpts)
    (p : MeteorPackage) : MeteorPackage :=
  let p :=
    if startsWith "qualia:" (meteorName p) then
      let p := with_dependencies
                 (map_set "@meteor/mongo" meteorVersionPlaceholderSymbol
                    (dependencies p)) p in
      let p := with_allPackages (set_add "mongo" (allPackages p)) p in
      let p := with_immediateDependencies
                 (set_add "mongo" (immediateDependencies p)) p in
      if negb (isCommon p)
      then addImport "@meteor/mongo" (Some ["client"; "server"]) p else p
    else p in
  let p :=
    if negb (bool_decide (nodeName p = Some "@meteor/meteor")) then
      let p := with_dependencies
                 (map_set "@meteor/meteor" meteorVersionPlaceholderSymbol
                    (dependencies p)) p in
      let p := with_allPackages (set_add "meteor" (allPackages p)) p in
      let p := with_immediateDependencies
                 (set_add "meteor" (immediateDependencies p)) p in
      if negb (isCommon p)
      then addImport "@meteor/meteor" (Some ["client"; "server"]) p else p
    else p in
  let deps :=
    if from_option unordered false opts then Peer
    else if from_option weak false opts then Optional
    else Required in
  foldl (addMeteorDependency deps archs opts) p packages.

(** The body of [packages.forEach] in [addImplies]. *)
Definition addImplied (archs : option (list string))
    (p : MeteorPackage) (dep : string) : MeteorPackage :=
  let name := default EmptyString (head (split "@" dep)) in
  if bool_decide (name ∈ excludes) then p
  else
    let p := with_allPackages (set_add name (allPackages p)) p in
    let nodeName := meteorNameToNodeName name in
    let p := with_dependencies
               (map_set nodeName meteorVersionPlaceholderSymbol (dependencies p)) p in
    let p := with_immediateDependencies
               (set_add name (immediateDependencies p)) p in
    let p :=
      if noArchs archs || archsInclude archs "server" then
        with_impliedServerPackages (set_add nodeName (impliedServerPackages p))
          (with_serverJsImports (set_add nodeName (serverJsImports p)) p)
      else p in
    if noArchs archs || archsInclude archs "client" then
      with_impliedClientPackages (set_add nodeName (impliedClientPackages p))
        (with_clientJsImports (set_add nodeName (clientJsImports p)) p)
    else p.

Definition addImplies (packages : list string) (archs : option (list string))
    (p : MeteorPackage) : MeteorPackage :=
  foldl (addImplied archs) p packages.

End WithHelpers.

(** *** The manifest *)

Record Manifest := {
  manifest_name : option string;
  manifest_version : option string;
  manifest_description : option string;
  manifest_dependencies : list (string * depVersion);
  manifest_peerDependencies : list (string * depVersion);
  manifest_optionalDependencies : list (string * depVersion);
  manifest_exportedVars_server : list string;
  manifest_exportedVars_client : list string;
  manifest_assets_client : list string;
  manifest_assets_server : list string;
  manifest_type : string;
  manifest_implies_client : list string;
  manifest_implies_server : list string;
}.

Definition versionOf (p : MeteorPackage) : depVersion :=
  match version p with
  | Some v => versionString v
  | None => versionUndefined
  end.

(** The callback of [Object.entries(this.#dependencies).map] in [toJSON]. *)
Definition resolveDependency (packageMap : gmap string MeteorPackage)
    (entry : string * depVersion) : result (string * depVersion) :=
  let '(name, version) := entry in
  if bool_decide (version = meteorVersionPlaceholderSymbol) then
    match packageMap !! nodeNameToMeteorName name with
    | None =>
        Err (ThrownError ("depending on missing package "
                          +:+ nodeNameToMeteorName name))
    | Some importedPackage => Ok (name, versionOf importedPackage)
    end
  else Ok (name, version).

(** [arr.map(f)] with a callback that may throw. *)
Fixpoint mapM {A B} (f : A → result B) (l : list A) : result (list B) :=
  match l with
  | [] => Ok []
  | x :: l' => bind (f x) (λ y, bind (mapM f l') (λ ys, Ok (y :: ys)))
  end.

(** [toJSON()]; the constant [exports] map and the [imports] map of the
    support modules are left out of the record. *)
Definition toJSON (packageMap : gmap string MeteorPackage) (p : MeteorPackage)
    : result Manifest :=
  bind (mapM (resolveDependency packageMap) (dependencies p)) (λ newDependencies,
  Ok {| manifest_name := nodeName p;
        manifest_version := version p;
        manifest_description := description p;
        manifest_dependencies := newDependencies;
        manifest_peerDependencies := peerDependencies p;
        manifest_optionalDependencies := optionalDependencies p;
        manifest_exportedVars_server := serverJsExports p;
        manifest_exportedVars_client := clientJsExports p;
        manifest_assets_client := clientAssets p;
        manifest_assets_server := serverAssets p;
        manifest_type := if isCommon p then "commonjs" else "module";
        manifest_implies_client := impliedClientPackages p;
        manifest_implies_server := impliedServerPackages p |}).

(** *** Resolution of imported globals *)

(** [exports.forEach((exp) => { if (globals.has(exp)) map.set(exp, from) })] *)
Definition bindExports (globals : list string) (exports : list string)
    (from : string) (m : gmap string string) : gmap string string :=
  foldl (λ m exp, if bool_decide (exp ∈ globals) then <[exp := from]> m else m)
        m exports.

(** [meteorPackage.getImplies(arch).forEach((imp) => ...)]: the implied
    package must be registered, [impliedPackage.getExportedVars] throws
    otherwise. *)
Definition bindImplied (packageMap : gmap string MeteorPackage)
    (globals : list string) (arch : string) (implies : list string)
    (m : gmap string string) : result (gmap string string) :=
  forEach (λ m imp,
    match packageMap !! nodeNameToMeteorName imp with
    | None => Err TypeError
    | Some impliedPackage =>
        Ok (bindExports globals (getExportedVars arch impliedPackage) imp m)
    end) implies m.

(** The first loop: names of [globalStaticImports]. *)
Definition bindStatic (p : MeteorPackage) (globals : list string)
    : gmap string string :=
  foldl (λ m global,
           match map_get global globalStaticImports with
           | Some from =>
               if negb (bool_decide (Some from = nodeName p))
               then <[global := from]> m else m
           | None => m
           end) ∅ globals.

(** [getImportedGlobalsMaps(globals)], as the pair
    [(clientMap, serverMap)].  The method calls itself on every registered
    dependency; [fuel] bounds the depth of these calls.  Copying a
    dependency's map entry by entry into [clientMap] is the union that
    prefers the dependency's entries. *)
Fixpoint getImportedGlobalsMaps (fuel : nat)
    (packageMap : gmap string MeteorPackage) (p : MeteorPackage)
    (globals : list string)
    : result (gmap string string * gmap string string) :=
  match fuel with
  | O => Err OutOfFuel
  | S fuel' =>
      forEach (λ maps dep,
        match packageMap !! nodeNameToMeteorName dep with
        | None => Ok maps
        | Some meteorPackage =>
            bind (getImportedGlobalsMaps fuel' packageMap meteorPackage globals)
              (λ depMaps,
            let clientMap := depMaps.1 ∪ maps.1 in
            let serverMap := depMaps.2 ∪ maps.2 in
            bind (bindImplied packageMap globals "client"
                    (getImplies "client" meteorPackage) clientMap) (λ clientMap,
            let clientMap :=
              bindExports globals (getExportedVars "client" meteorPackage)
                dep clientMap in
            bind (bindImplied packageMap globals "server"
                    (getImplies "server" meteorPackage) serverMap) (λ serverMap,
            let serverMap :=
              bindExports globals (getExportedVars "server" meteorPackage)
                dep serverMap in
            Ok (clientMap, serverMap))))
        end)
        (keys (dependencies p))
        (bindStatic p globals, bindStatic p globals)
  end.

(** The body of the dependency loop of [getImportedGlobalsMaps] as a
    function of its own; [fuel] bounds the call on the dependency. *)
Definition resolveDep (fuel : nat) (packageMap : gmap string MeteorPackage)
    (globals : list string) (maps : gmap string string * gmap string string)
    (dep : string) : result (gmap string string * gmap string string) :=
  match packageMap !! nodeNameToMeteorName dep with
  | None => Ok maps
  | Some meteorPackage =>
      bind (getImportedGlobalsMaps fuel packageMap meteorPackage globals)
        (λ depMaps,
      let clientMap := depMaps.1 ∪ maps.1 in
      let serverMap := depMaps.2 ∪ maps.2 in
      bind (bindImplied packageMap globals "client"
              (getImplies "client" meteorPackage) clientMap) (λ clientMap,
      let clientMap :=
        bindExports globals (getExportedVars "client" meteorPackage)
          dep clientMap in
      bind (bindImplied packageMap globals "server"
              (getImplies "server" meteorPackage) serverMap) (λ serverMap,
      let serverMap :=
        bindExports globals (getExportedVars "server" meteorPackage)
          dep serverMap in
      Ok (clientMap, serverMap))))
  end.

(** What one dependency binds on its own. *)
Definition contribution (fuel : nat) (packageMap : gmap string MeteorPackage)
    (globals : list string) (dep : string)
    : result (gmap string string * gmap string string) :=
  resolveDep fuel packageMap globals (∅, ∅) dep.

(** The client or the server map of a resolution. *)
Definition archMap (arch : string)
    (maps : gmap string string * gmap string string) : gmap string string :=
  if bool_decide (arch = "server") then maps.2 else maps.1.

(** Every package implied by a registered unit is registered. *)
Definition closedImplies (packageMap : gmap string MeteorPackage) : Prop :=
  ∀ n q arch imp,
    packageMap !! n = Some q → imp ∈ getImplies arch q →
    is_Some (packageMap !! nodeNameToMeteorName imp).

(** The registered dependencies of [q] are lower in the dependency order. *)
Definition ranked (packageMap : gmap string MeteorPackage)
    (rank : MeteorPackage → nat) (q : MeteorPackage) : Prop :=
  ∀ d q', d ∈ keys (dependencies q) →
          packageMap !! nodeNameToMeteorName d = Some q' → rank q' < rank q.

(** What the automatic [@meteor/meteor] dependency leaves in the unit. *)
Definition hasMeteor (p : MeteorPackage) : Prop :=
  map_get "@meteor/meteor" (dependencies p) = Some meteorVersionPlaceholderSymbol
  ∧ "meteor" ∈ allPackages p
  ∧ "meteor" ∈ immediateDependencies p.

Definition importsMeteor (p : MeteorPackage) : Prop :=
  "@meteor/meteor" ∈ clientJsImports p ∧ "@meteor/meteor" ∈ serverJsImports p.

(** *** Further methods of the unit *)

(** [const [name] = dep.split('@')] *)
Definition packageNameOf (dep : string) : string :=
  default EmptyString (head (split "@" dep)).

(** The options object of [addExports]; an absent property is [false]. *)
Record ExportOpts := { testOnly : bool }.

(** [archs.includes(a)] on its own: [archs] must be defined. *)
Definition archsIncludes (archs : option (list string)) (a : string) : result bool :=
  match archs with
  | None => Err TypeError
  | Some l => Ok (bool_decide (a ∈ l))
  end.

(** [a || b] where evaluating either side may throw. *)
Definition orElse (a b : result bool) : result bool :=
  bind a (λ x, if x then Ok true else b).

(** The body of [symbols.forEach] in [addExports]. *)
Definition addExportsSymbol (archs : option (list string))
    (opts : option ExportOpts) (p : MeteorPackage) (symbol : string)
    : result MeteorPackage :=
  let plain := Ok (negb (from_option testOnly false opts) && noArchs archs) in
  bind (orElse plain (archsIncludes archs "server")) (λ server,
  let p := if server
           then with_serverJsExports (serverJsExports p ++ [symbol]) p else p in
  bind (orElse plain
          (orElse (archsIncludes archs "client")
             (orElse (archsIncludes archs "web")
                (archsIncludes archs "web.browser")))) (λ client,
  Ok (if client
      then with_clientJsExports (clientJsExports p ++ [symbol]) p else p))).

Definition addExports (symbols : list string) (archs : option (list string))
    (opts : option ExportOpts) (p : MeteorPackage) : result MeteorPackage :=
  forEach (addExportsSymbol archs opts) symbols p.

(** [addImport(item, archs)] called with a string for [archs], as the
    load does for implied packages: [archs.length] is the length of the
    string and [archs.includes] looks for a substring. *)
Definition addImportString (item : string) (archs : string) (p : MeteorPackage)
    : MeteorPackage :=
  let none := bool_decide (archs = EmptyString) in
  let p := if none || Globals.includes "server" archs
           then with_serverJsImports (set_add item (serverJsImports p)) p else p in
  if none || Globals.includes "client" archs || Globals.includes "web" archs
     || Globals.includes "web.browser" archs
  then with_clientJsImports (set_add item (clientJsImports p)) p else p.

(** The last loop of [loadFromMeteorPackage]: what the registered direct
    dependencies imply is imported. *)
Definition importImplied (packageMap : gmap string MeteorPackage)
    (p : MeteorPackage) : MeteorPackage :=
  foldl (λ p dep,
           match packageMap !! nodeNameToMeteorName dep with
           | None => p
           | Some importedPackage =>
               let p := foldl (λ p name, addImportString name "client" p) p
                          (getImplies "client" importedPackage) in
               foldl (λ p name, addImportString name "server" p) p
                 (getImplies "server" importedPackage)
           end)
        p (keys (dependencies p)).

(** *** [findPackageJs]

    The folders are read concurrently.  A folder with a descriptor is
    recorded when its read finishes: its index in [allFolders], the name
    of the package (from the descriptor, else the folder name) and the
    path of the descriptor. *)
Record Candidate := {
  cindex : nat;
  cname : string;
  cpath : string;
}.

(** [tempPrioMap] and [PackageNameToFolderPaths] *)
Definition Found : Type := gmap string nat * gmap string string.

Definition recordCandidate (found : Found) (c : Candidate) : Found :=
  let record := (<[cname c := cindex c]> found.1, <[cname c := cpath c]> found.2) in
  match found.1 !! cname c with
  | None => record
  | Some i => if decide (cindex c < i) then record else found
  end.

(** [findPackageJs] on an empty [PackageNameToFolderPaths], for the
    candidates in the order in which their reads finish. *)
Definition findPackageJs (finished : list Candidate) (name : string)
    : option string :=
  (foldl recordCandidate (∅, ∅) finished).2 !! name.

(** The first dependency of a unit is the registered unit [q]. *)
Definition firstDependency (packageMap : gmap string MeteorPackage)
    (p q : MeteorPackage) : Prop :=
  ∃ d rest, keys (dependencies p) = d :: rest
            ∧ packageMap !! nodeNameToMeteorName d = Some q.

(** The declared packages that are not excluded, by name. *)
Definition declaredNames (packages : list string) : list string :=
  List.filter (λ name, negb (bool_decide (name ∈ excludes)))
    (packageNameOf <$> packages).

End Package.

(** ** The package registry and the load and write signals

    JavaScript runs the asynchronous methods cooperatively on one thread: a
    call runs until its next [await], and no other code runs in between.
    The model has one transition per such uninterrupted stretch of
    [convertPackage], [ensurePackage], [loadFromMeteorPackage] and
    [writeToNpmModule]; any stretch that can run next may be the next
    transition.  A unit is an object: it is kept in a store and known by
    its position there, the registry [packageMap] maps names to
    positions, and a call in flight holds the position of its [this].

    A load has two stretches of interest.  In the first the descriptor is
    found, read and run, or the isopack is read: [setBasic] may give the
    unit another name, and a load from a descriptor then stores the unit
    in the registry under the name it has now
    ([packageMap.set(this.#meteorName, this)]), whatever was there.  In
    the second the load waits for the packages the unit uses and ends.
    At any point the load may throw: its [catch] block logs and throws
    again, and [finally] resolves the loaded signal in either case.

    What else a load reads and what a write emits is abstracted, and so
    are the requests a load or a write makes for other packages: any
    request may be made at any time.  An error in a write ends the
    process ([process.exit()]), and the run with it. *)

Module Registry.

(** The fields of a unit that order the work: [#meteorName],
    [#loadedPromise] resolved, [#alreadyWritten], [#writtenPromise]
    resolved. *)
Record Unit := mkUnit {
  meteorName : string;
  loaded : bool;
  alreadyWritten : bool;
  written : bool;
}.

Inductive Event :=
| Registered (name : string) (u : nat)
    (* u = new MeteorPackage(name); packageMap.set(name, u) *)
| LoadStarted (u : nat)          (* loadFromMeteorPackage entered *)
| Stored (name : string) (u : nat)
    (* packageMap.set(this.#meteorName, this) in the load *)
| LoadFailed (u : nat)           (* the catch block of the load *)
| LoadFinished (u : nat)         (* #loadedResolve() *)
| WriteStarted (u : nat)         (* the try block of writeToNpmModule entered *)
| WriteFinished (u : nat).       (* #writtenResolve() *)

#[global] Instance Event_eq_dec : EqDecision Event.
Proof. solve_decision. Defined.

(** A call in flight, at its current [await], or over. *)
Inductive Task :=
| EnsureLoading (u : nat) (described : bool)   (* ensurePackage: await load *)
| EnsureReturned (u : nat)           (* ensurePackage returned the unit *)
| EnsureDeclined (name : string)     (* ensurePackage returned false *)
| EnsureThrew (u : nat)              (* ensurePackage threw what the load threw *)
| ConvertLoading (u : nat) (described : bool)  (* convert: await load *)
| ConvertThrew (u : nat)             (* convertPackage threw what the load threw *)
| WriteCalled (u : nat)              (* await this.#loadedPromise *)
| WriteWorking (u : nat)             (* inside the try block *)
| WriteWaiting (u : nat)             (* await this.#writtenPromise *)
| WriteReturned (u : nat) (worked : bool).

#[global] Instance Task_eq_dec : EqDecision Task.
Proof. solve_decision. Defined.

Record World := mkWorld {
  units : list Unit;
  packageMap : gmap string nat;
  tasks : list Task;
  trace : list Event;
}.

Definition initial : World := mkWorld [] ∅ [] [].

(** [new MeteorPackage(meteorName)] *)
Definition newUnit (name : string) : Unit := mkUnit name false false false.

Definition setName (name : string) (u : Unit) : Unit :=
  mkUnit name (loaded u) (alreadyWritten u) (written u).
Definition setLoaded (u : Unit) : Unit :=
  mkUnit (meteorName u) true (alreadyWritten u) (written u).
Definition setAlreadyWritten (u : Unit) : Unit :=
  mkUnit (meteorName u) (loaded u) true (written u).
Definition setWritten (u : Unit) : Unit :=
  mkUnit (meteorName u) (loaded u) (alreadyWritten u) true.

(** [static async ensurePackage(name, ...)] up to its first [await]. *)
Definition ensurePackage (name : string) (w : World) : World :=
  match packageMap w !! name with
  | None =>
      let u := List.length (units w) in
      mkWorld (units w ++ [newUnit name])
              (<[name := u]> (packageMap w))
              (tasks w ++ [EnsureLoading u false])
              (trace w ++ [Registered name u; LoadStarted u])
  | Some _ =>
      mkWorld (units w) (packageMap w) (tasks w ++ [EnsureDeclined name]) (trace w)
  end.

(** [convertPackage(meteorName, ...)] up to its first [await]. *)
Definition convertPackage (name : string) (w : World) : World :=
  if bool_decide (name ∈ Package.excludes) then w
  else match packageMap w !! name with
  | Some _ => w
  | None =>
      let u := List.length (units w) in
      mkWorld (units w ++ [newUnit name])
              (<[name := u]> (packageMap w))
              (tasks w ++ [ConvertLoading u false])
              (trace w ++ [Registered name u; LoadStarted u])
  end.

(** [unit.writeToNpmModule(...)] up to [await this.#loadedPromise], for the
    unit [packageMap.get(name)]. *)
Definition writeToNpmModule (name : string) (w : World) : option World :=
  match packageMap w !! name with
  | None => None
  | Some u =>
      Some (mkWorld (units w) (packageMap w) (tasks w ++ [WriteCalled u]) (trace w))
  end.

(** The load of call [i] reads the package: [setBasic] is called with
    [name] ([name || this.#meteorName]), and with [stored] the load comes
    to [packageMap.set(this.#meteorName, this)], as a load from a
    descriptor does when the script has run. *)
Definition describe (i : nat) (name : option string) (stored : bool)
    (w : World) : option World :=
  let go (u : nat) (t : Task) : option World :=
    unit ← units w !! u;
    let name' := match name with
                 | Some (String c r) => String c r
                 | _ => meteorName unit
                 end in
    Some (mkWorld (<[u := setName name' unit]> (units w))
                  (if stored then <[name' := u]> (packageMap w) else packageMap w)
                  (<[i := t]> (tasks w))
                  (trace w ++ (if stored then [Stored name' u] else []))) in
  match tasks w !! i with
  | Some (EnsureLoading u false) => go u (EnsureLoading u true)
  | Some (ConvertLoading u false) => go u (ConvertLoading u true)
  | _ => None
  end.

(** The load of call [i] throws: [catch] throws again, [finally] resolves
    the loaded signal, and the caller throws. *)
Definition fail (i : nat) (w : World) : option World :=
  let go (u : nat) (t : Task) : option World :=
    unit ← units w !! u;
    Some (mkWorld (<[u := setLoaded unit]> (units w)) (packageMap w)
                  (<[i := t]> (tasks w))
                  (trace w ++ [LoadFailed u; LoadFinished u])) in
  match tasks w !! i with
  | Some (EnsureLoading u _) => go u (EnsureThrew u)
  | Some (ConvertLoading u _) => go u (ConvertThrew u)
  | _ => None
  end.

(** Task [i] runs from its [await] to the next one, if it can. *)
Definition resume (i : nat) (w : World) : option World :=
  match tasks w !! i with
  | Some (EnsureLoading u true) =>
      (* the load ends: finally { this.#loadedResolve() }; return meteorPackage *)
      unit ← units w !! u;
      Some (mkWorld (<[u := setLoaded unit]> (units w)) (packageMap w)
                    (<[i := EnsureReturned u]> (tasks w))
                    (trace w ++ [LoadFinished u]))
  | Some (ConvertLoading u true) =>
      (* the load ends; convert goes on to this.writeToNpmModule(...) *)
      unit ← units w !! u;
      Some (mkWorld (<[u := setLoaded unit]> (units w)) (packageMap w)
                    (<[i := WriteCalled u]> (tasks w))
                    (trace w ++ [LoadFinished u]))
  | Some (WriteCalled u) =>
      unit ← units w !! u;
      if loaded unit then
        if alreadyWritten unit
        then Some (mkWorld (units w) (packageMap w)
                           (<[i := WriteWaiting u]> (tasks w)) (trace w))
        else Some (mkWorld (<[u := setAlreadyWritten unit]> (units w))
                           (packageMap w)
                           (<[i := WriteWorking u]> (tasks w))
                           (trace w ++ [WriteStarted u]))
      else None
  | Some (WriteWorking u) =>
      (* the write ends: finally { this.#writtenResolve() } *)
      unit ← units w !! u;
      Some (mkWorld (<[u := setWritten unit]> (units w)) (packageMap w)
                    (<[i := WriteReturned u true]> (tasks w))
                    (trace w ++ [WriteFinished u]))
  | Some (WriteWaiting u) =>
      unit ← units w !! u;
      if written unit
      then Some (mkWorld (units w) (packageMap w)
                         (<[i := WriteReturned u false]> (tasks w)) (trace w))
      else None
  | _ => None
  end.

(** What can happen next: a new request, or a suspended call going on. *)
Inductive Action :=
| Ensure (name : string)
| Convert (name : string)
| Write (name : string)
| Describe (i : nat) (name : option string) (stored : bool)
| Fail (i : nat)
| Resume (i : nat).

Definition perform (a : Action) (w : World) : option World :=
  match a with
  | Ensure name => Some (ensurePackage name w)
  | Convert name => Some (convertPackage name w)
  | Write name => writeToNpmModule name w
  | Describe i name stored => describe i name stored w
  | Fail i => fail i w
  | Resume i => resume i w
  end.

Fixpoint run (actions : list Action) (w : World) : option World :=
  match actions with
  | [] => Some w
  | a :: actions' => perform a w ≫= run actions'
  end.

Definition step (w w' : World) : Prop := ∃ a, perform a w = Some w'.

Inductive reachable : World → Prop :=
| reachable_initial : reachable initial
| reachable_step w w' : reachable w → step w w' → reachable w'.

(** The events of the trace that satisfy [P], counted. *)
Definition countP (P : Event → bool) (w : World) : nat :=
  List.length (List.filter P (trace w)).

Definition count (e : Event) (w : World) : nat :=
  countP (λ e', bool_decide (e' = e)) w.

(** The requests that made a unit for [name]. *)
Definition registers (name : string) (e : Event) : bool :=
  match e with
  | Registered n _ => bool_decide (n = name)
  | _ => false
  end.

(** The request that made the unit [u]. *)
Definition creates (u : nat) (e : Event) : bool :=
  match e with
  | Registered _ v => bool_decide (v = u)
  | _ => false
  end.

(** The unit a call works on. *)
Definition taskUnit (t : Task) : option nat :=
  match t with
  | EnsureLoading u _ | EnsureReturned u | EnsureThrew u | ConvertLoading u _
  | ConvertThrew u | WriteCalled u | WriteWorking u | WriteWaiting u
  | WriteReturned u _ => Some u
  | EnsureDeclined _ => None
  end.

(** The calls that were or will be handed the unit [u] by
    [ensurePackage], unless its load throws. *)
Definition holdsUnit (u : nat) (t : Task) : bool :=
  match t with
  | EnsureLoading v _ | EnsureReturned v => bool_decide (v = u)
  | _ => false
  end.

(** The calls whose load of [u] is under way. *)
Definition isLoader (u : nat) (t : Task) : bool :=
  match t with
  | EnsureLoading v _ | ConvertLoading v _ => bool_decide (v = u)
  | _ => false
  end.

(** The calls that threw what the load of [u] threw. *)
Definition threw (u : nat) (t : Task) : bool :=
  match t with
  | EnsureThrew v | ConvertThrew v => bool_decide (v = u)
  | _ => false
  end.

(** The calls that were handed [u] by [ensurePackage]. *)
Definition returned (u : nat) (t : Task) : bool :=
  bool_decide (t = EnsureReturned u).

(** The calls whose write of [u] is under way. *)
Definition isWorking (u : nat) (t : Task) : bool :=
  bool_decide (t = WriteWorking u).

Definition tcount (P : Task → bool) (w : World) : nat :=
  List.length (List.filter P (tasks w)).

(** A signal of the unit [u] as a number: 1 when set. *)
Definition flag (f : Unit → bool) (u : nat) (w : World) : nat :=
  match units w !! u with
  | Some unit => if f unit then 1 else 0
  | None => 0
  end.

(** The invariant of the registry, for a unit: the trace, the signals and
    the calls in flight agree. *)
Record Inv (w : World) (u : nat) : Prop := {
  inv_created : countP (creates u) w = flag (λ _, true) u w;
  inv_load_started : count (LoadStarted u) w = countP (creates u) w;
  inv_load_finished :
    tcount (isLoader u) w + count (LoadFinished u) w = countP (creates u) w;
  inv_loaded : count (LoadFinished u) w = flag loaded u w;
  inv_load_failed : count (LoadFailed u) w = tcount (threw u) w;
  inv_load_outcome :
    tcount (isLoader u) w + tcount (threw u) w + tcount (returned u) w
    ≤ countP (creates u) w;
  inv_write_started : count (WriteStarted u) w = flag alreadyWritten u w;
  inv_write_finished :
    tcount (isWorking u) w + count (WriteFinished u) w
    = count (WriteStarted u) w;
  inv_written : count (WriteFinished u) w = flag written u w;
  inv_write_loaded : flag alreadyWritten u w ≤ flag loaded u w;
  inv_holders : tcount (holdsUnit u) w ≤ countP (creates u) w;
  inv_tasks : ∀ t, t ∈ tasks w → taskUnit t = Some u → is_Some (units w !! u);
  inv_waiting : WriteWaiting u ∈ tasks w → flag alreadyWritten u w = 1;
  inv_waited : WriteReturned u false ∈ tasks w → flag written u w = 1;
}.

(** The invariant of the registry, for a name: requests make a unit for a
    name that is not in the registry only, and the registry holds units
    of the store. *)
Record InvName (w : World) (name : string) : Prop := {
  inv_registered :
    countP (registers name) w
    ≤ match packageMap w !! name with Some _ => 1 | None => 0 end;
  inv_stored : ∀ u, packageMap w !! name = Some u → is_Some (units w !! u);
}.

(** In a trace every [later] has an [earlier] before it. *)
Definition precedes (earlier later : Event) (tr : list Event) : Prop :=
  ∀ pre post, tr = pre ++ later :: post → earlier ∈ pre.

(** In a trace every [later] has the making of the unit [u] before it. *)
Definition madeBefore (u : nat) (later : Event) (tr : list Event) : Prop :=
  ∀ pre post, tr = pre ++ later :: post → ∃ name, Registered name u ∈ pre.

(** The signals set in [u] are set in [u']. *)
Definition keepsSignals (u u' : Unit) : Prop :=
  (loaded u = true → loaded u' = true)
  ∧ (alreadyWritten u = true → alreadyWritten u' = true)
  ∧ (written u = true → written u' = true).

(** The store, the registry and the trace of [w'] extend those of [w]. *)
Definition extends (w w' : World) : Prop :=
  trace w `prefix_of` trace w'
  ∧ (∀ name, is_Some (packageMap w !! name) → is_Some (packageMap w' !! name))
  ∧ (∀ u x, units w !! u = Some x →
            ∃ x', units w' !! u = Some x' ∧ keepsSignals x x').

End Registry.

(** ** Concrete units and registries

    The inputs of the worked examples below. *)

Module Examples.
Import Package.

(** *** Build targets *)

(** Parent imports [a], [b] with orders 0 and 1, child import [c] with
    order 2. *)
Definition parent_ab : Arch.MeteorArch :=
  Arch.addImport "b" 1 (Arch.addImport "a" 0 (Arch.newArch "client" None)).

Definition child_c : Arch.MeteorArch :=
  Arch.addImport "c" 2 (Arch.newArch "web.browser" (Some parent_ab)).

(** A modified root, its unmodified child and grandchild. *)
Definition grandparent_modified : Arch.MeteorArch :=
  Arch.addExport "Foo" (Arch.newArch "client" None).

Definition parent_untouched : Arch.MeteorArch :=
  Arch.newArch "web" (Some grandparent_modified).

Definition child_untouched : Arch.MeteorArch :=
  Arch.newArch "web.browser" (Some parent_untouched).

(** *** Units and registries *)

(** A naming scheme that [nodeNameToMeteorName] inverts, standing in for
    [meteorNameToNodeName] of [helpers/helpers.js] in the examples:
    [tracker] becomes [@meteor/tracker] and [iron:router] becomes
    [@iron/router]. *)
Definition nodeNameOf (name : string) : string :=
  match split ":" name with
  | [n] => "@meteor/" +:+ n
  | parts => "@" +:+ join "/" parts
  end.

(** A loaded unit with a version and the given exports on both
    architectures. *)
Definition loadedUnit (name ver : string) (exports : list string) : MeteorPackage :=
  with_clientJsExports exports
    (with_serverJsExports exports
      (setBasic nodeNameOf
         {| basic_name := Some name; basic_description := None;
            basic_version := ver |}
         (newPackage name))).

Definition meteorUnit : MeteorPackage := loadedUnit "meteor" "1.10.2" ["Meteor"].

(** A unit that uses [tracker] as an unordered dependency. *)
Definition peerUser : MeteorPackage :=
  addMeteorDependencies nodeNameOf ["tracker"] None
    (Some {| weak := false; unordered := true |})
    (loadedUnit "reactive-thing" "0.3.0" []).

Definition peerRegistry : gmap string MeteorPackage :=
  <["reactive-thing" := peerUser]>
    (<["meteor" := meteorUnit]>
      (<["tracker" := loadedUnit "tracker" "1.2.0" ["Tracker"]]> ∅)).

(** Two strong dependencies that both export [Widget]; [first-lib] is
    declared before [second-lib]. *)
Definition twoProviders : MeteorPackage :=
  addMeteorDependencies nodeNameOf ["first-lib"; "second-lib"] None None
    (loadedUnit "app-ui" "1.0.0" []).

Definition twoProvidersRegistry : gmap string MeteorPackage :=
  <["app-ui" := twoProviders]>
    (<["meteor" := meteorUnit]>
      (<["first-lib" := loadedUnit "first-lib" "1.0.0" ["Widget"]]>
        (<["second-lib" := loadedUnit "second-lib" "2.0.0" ["Widget"]]> ∅))).

(** [near] exports [Widget] and implies [far], which exports [Widget]
    too; [consumer] depends on [near] only. *)
Definition farUnit : MeteorPackage := loadedUnit "far" "1.0.0" ["Widget"].

Definition nearUnit : MeteorPackage :=
  addImplies nodeNameOf ["far"] None (loadedUnit "near" "1.0.0" ["Widget"]).

Definition consumer : MeteorPackage :=
  addMeteorDependencies nodeNameOf ["near"] None None (loadedUnit "consumer" "1.0.0" []).

Definition impliedRegistry : gmap string MeteorPackage :=
  <["consumer" := consumer]>
    (<["meteor" := meteorUnit]>
      (<["near" := nearUnit]> (<["far" := farUnit]> ∅))).

(** *** Syntax trees and scopes *)

Definition parsed (ty : string) (id : nat) (ks : list (string * Globals.node))
    : Globals.node :=
  Globals.Node ty "" (Some id) ks.

Definition ident (name : string) (id : nat) : Globals.node :=
  Globals.Node "Identifier" name (Some id) [].

(** The file
<<
    Foo = 1;
    function f() { { let Foo = 2; Foo; } }
>>
    as acorn parses it; the numbers are the identities of the nodes. *)
Definition blockLetFile : Globals.node :=
  parsed "Program" 0
    [("body", parsed "ExpressionStatement" 1
        [("expression", parsed "AssignmentExpression" 2
            [("left", ident "Foo" 3); ("right", parsed "Literal" 4 [])])]);
     ("body", parsed "FunctionDeclaration" 5
        [("id", ident "f" 6);
         ("body", parsed "BlockStatement" 7
            [("body", parsed "BlockStatement" 8
                [("body", parsed "VariableDeclaration" 9
                    [("declarations", parsed "VariableDeclarator" 10
                        [("id", ident "Foo" 11);
                         ("init", parsed "Literal" 12 [])])]);
                 ("body", parsed "ExpressionStatement" 13
                    [("expression", ident "Foo" 14)])])])])].

(** The scopes escope builds for that file (ECMAScript 6, module source,
    Node.js scope): the global scope, whose only reference is the
    unresolved [Foo] of the assignment; under it the Node.js function scope
    and the module scope, which declares [f]; the scope of [f], which
    declares [arguments] only, because the [let] belongs to the scope of
    the inner block. *)
Definition globalScope : Globals.Scope :=
  Globals.mkScope [] [None] None.

Definition nodejsScope : Globals.Scope :=
  Globals.mkScope ["arguments"] [None] (Some globalScope).

Definition moduleScope : Globals.Scope :=
  Globals.mkScope ["f"] [None] (Some nodejsScope).

Definition fScope : Globals.Scope :=
  Globals.mkScope ["arguments"] [] (Some moduleScope).

Definition innerBlockScope : Globals.Scope :=
  Globals.mkScope ["Foo"] [] (Some fScope).

(** [acquire] gives the first scope of a node: the global scope for the
    program. *)
Definition blockLetScopes : Globals.ScopeManager :=
  λ id, match id with
        | 0 => Some globalScope
        | 5 => Some fScope
        | 8 => Some innerBlockScope
        | _ => None
        end.






(** The file
<<
    __package_globals__;
>>
    Its only scope of interest is the global one, with one unresolved
    reference; that is also the scope data of the file once rewritten. *)
Definition namespaceFile : Globals.node :=
  parsed "Program" 0
    [("body", parsed "ExpressionStatement" 1
        [("expression", ident "__package_globals__" 2)])].

Definition namespaceScopes : Globals.ScopeManager :=
  λ id, match id with
        | 0 => Some globalScope
        | _ => None
        end.

(** *** Requests to the registry *)

(** Two requests to ensure [tracker], one after the other, before any load
    has finished. *)
Definition twoRequests : Registry.World :=
  Registry.ensurePackage "tracker"
    (Registry.ensurePackage "tracker" Registry.initial).

(** Two requests to ensure [tracker]; the descriptor is read and the load
    ends; two calls of [writeToNpmModule]; the first finds the unit
    unwritten and works, the second waits, the first ends, the second is
    woken. *)
Definition twoWrites : list Registry.Action :=
  [Registry.Ensure "tracker"; Registry.Ensure "tracker";
   Registry.Describe 0 None true; Registry.Resume 0;
   Registry.Write "tracker"; Registry.Write "tracker";
   Registry.Resume 2; Registry.Resume 3; Registry.Resume 2; Registry.Resume 3].

Definition afterTwoWrites : Registry.World :=
  default Registry.initial (Registry.run twoWrites Registry.initial).

(** The same run up to the point where the second call of
    [writeToNpmModule] waits for the first. *)
Definition whileWriting : Registry.World :=
  default Registry.initial (Registry.run (take 8 twoWrites) Registry.initial).

(** [tracker] is requested and a call of [writeToNpmModule] is made on its
    unit; then [tracker-old] is requested, and its descriptor names the
    package [tracker]: the second unit takes the place of the first in
    the registry, and the next call of [writeToNpmModule] for [tracker]
    is made on the second unit.  Both units are written. *)
Definition renamed : list Registry.Action :=
  [Registry.Ensure "tracker"; Registry.Describe 0 None true; Registry.Resume 0;
   Registry.Write "tracker";
   Registry.Ensure "tracker-old"; Registry.Describe 2 (Some "tracker") true;
   Registry.Resume 2;
   Registry.Write "tracker";
   Registry.Resume 1; Registry.Resume 1; Registry.Resume 3; Registry.Resume 3].

Definition afterRenamed : Registry.World :=
  default Registry.initial (Registry.run renamed Registry.initial).

(** A load that throws: the request throws, and the unit stays in the
    registry with its loaded signal set. *)
Definition failedLoad : Registry.World :=
  default Registry.initial
    (Registry.run [Registry.Ensure "tracker"; Registry.Fail 0] Registry.initial).

(** The file
<<
    Meteor.startup(Foo);
>>
    [Meteor] and [Foo] are its globals. *)
Definition startupFile : Globals.node :=
  parsed "Program" 0
    [("body", parsed "ExpressionStatement" 1
        [("expression", parsed "CallExpression" 2
            [("callee", parsed "MemberExpression" 3
                [("object", ident "Meteor" 4); ("property", ident "startup" 5)]);
             ("arguments", ident "Foo" 6)])])].

Definition startupScopes : Globals.ScopeManager :=
  λ id, match id with
        | 0 => Some (Globals.mkScope [] [None; None] None)
        | _ => None
        end.

(** The resolution of the globals of [startupFile] in a package that
    depends on [meteor]. *)
Definition startupImported : gmap string string :=
  {[ "Meteor" := "@meteor/meteor" ]}.

(** A unit that lists itself as its first dependency. *)
Definition selfUser : MeteorPackage :=
  with_dependencies [("@meteor/loop", meteorVersionPlaceholderSymbol)]
    (loadedUnit "loop" "1.0.0" []).

Definition selfRegistry : gmap string MeteorPackage :=
  <["loop" := selfUser]> ∅.

(** The dependency order of [impliedRegistry]. *)
Definition impliedRank (p : MeteorPackage) : nat :=
  if bool_decide (meteorName p = "consumer") then 2
  else if bool_decide (meteorName p = "near") then 1
  else 0.

(** The same package in a local folder and in the [non-core] folder of
    the checkout, the read of the second finishing first. *)
Definition twoFolders : list Candidate :=
  [{| cindex := 4; cname := "tracker";
      cpath := "/meteor/packages/non-core/tracker/package.js" |};
   {| cindex := 1; cname := "tracker"; cpath := "/app/packages/tracker/package.js" |}].

(** *** More packages, files and scopes *)

(** [first-lib] and [second-lib] export [Widget]; [third-lib] exports
    nothing and depends on [first-lib]; the application uses the three, in
    this order. *)
Definition thirdLib : MeteorPackage :=
  addMeteorDependencies nodeNameOf ["first-lib"] None None
    (loadedUnit "third-lib" "3.0.0" []).

Definition threeUser : MeteorPackage :=
  addMeteorDependencies nodeNameOf ["first-lib"; "second-lib"; "third-lib"] None None
    (loadedUnit "app-ui" "1.0.0" []).

Definition threeRegistry : gmap string MeteorPackage :=
  <["app-ui" := threeUser]>
    (<["meteor" := meteorUnit]>
      (<["first-lib" := loadedUnit "first-lib" "1.0.0" ["Widget"]]>
        (<["second-lib" := loadedUnit "second-lib" "2.0.0" ["Widget"]]>
          (<["third-lib" := thirdLib]> ∅)))).

(** What the resolution of each dependency of the application binds. *)
Definition threeResolutions : list (gmap string string * gmap string string) :=
  (λ d, match contribution 2 threeRegistry ["Widget"] d with
        | Ok c => c
        | Err _ => (∅, ∅)
        end) <$> keys (dependencies threeUser).


















(** The output of the rewrite for [blockLetFile],
<<
    __package_globals__.Foo = 1;
    function f() { { let Foo = 2; __package_globals__.Foo; } }
>>
    as acorn parses it, with new node objects, and its scopes: the
    references to [Foo] have given way to unresolved references to
    [__package_globals__]. *)
Definition blockLetReparsed : Globals.node :=
  parsed "Program" 100
    [("body", parsed "ExpressionStatement" 101
        [("expression", parsed "AssignmentExpression" 102
            [("left", parsed "MemberExpression" 103
                [("object", ident "__package_globals__" 104);
                 ("property", ident "Foo" 105)]);
             ("right", parsed "Literal" 106 [])])]);
     ("body", parsed "FunctionDeclaration" 107
        [("id", ident "f" 108);
         ("body", parsed "BlockStatement" 109
            [("body", parsed "BlockStatement" 110
                [("body", parsed "VariableDeclaration" 111
                    [("declarations", parsed "VariableDeclarator" 112
                        [("id", ident "Foo" 113);
                         ("init", parsed "Literal" 114 [])])]);
                 ("body", parsed "ExpressionStatement" 115
                    [("expression", parsed "MemberExpression" 116
                        [("object", ident "__package_globals__" 117);
                         ("property", ident "Foo" 118)])])])])])].

Definition reparsedGlobalScope : Globals.Scope :=
  Globals.mkScope [] [None; None] None.

Definition reparsedFScope : Globals.Scope :=
  Globals.mkScope ["arguments"] [None]
    (Some (Globals.mkScope ["f"] [None; None]
             (Some (Globals.mkScope ["arguments"] [None; None]
                      (Some reparsedGlobalScope))))).

Definition blockLetReparsedScopes : Globals.ScopeManager :=
  λ id, match id with
        | 100 => Some reparsedGlobalScope
        | 107 => Some reparsedFScope
        | 110 => Some (Globals.mkScope ["Foo"] [None] (Some reparsedFScope))
        | _ => None
        end.

(** The output of the rewrite for [namespaceFile],
<<
    __package_globals__.__package_globals__;
>>
    as acorn parses it. *)
Definition namespaceReparsed : Globals.node :=
  parsed "Program" 100
    [("body", parsed "ExpressionStatement" 101
        [("expression", parsed "MemberExpression" 102
            [("object", ident "__package_globals__" 103);
             ("property", ident "__package_globals__" 104)])])].

Definition namespaceReparsedScopes : Globals.ScopeManager :=
  λ id, match id with
        | 100 => Some globalScope
        | _ => None
        end.

(** The file
<<
    try { } catch (Foo) { }
>>
    and its scopes: the parameter belongs to the scope of the catch
    clause, and nothing is declared or referred to elsewhere. *)
Definition catchFile : Globals.node :=
  parsed "Program" 0
    [("body", parsed "TryStatement" 1
        [("block", parsed "BlockStatement" 2 []);
         ("handler", parsed "CatchClause" 3
            [("param", ident "Foo" 4);
             ("body", parsed "BlockStatement" 5 [])])])].

Definition catchScopes : Globals.ScopeManager :=
  λ id, match id with
        | 0 => Some (Globals.mkScope [] [] None)
        | _ => None
        end.

(** The file
<<
    function f(Foo) {
      function h() {
        Foo: g();
        { g(function () { return 1; }); }
        return Foo;
      }
      return h;
    }
>>
    and its scopes: [f] declares [arguments], [Foo] and [h]; [h] declares
    [arguments], and its references to [g] are unresolved while the
    reference to [Foo] goes through to the parameter of [f]; the label
    [Foo] is no reference; the innermost function lies in a block, whose
    scope is the upper scope of its scope. *)
Definition labelFile : Globals.node :=
  parsed "Program" 0
    [("body", parsed "FunctionDeclaration" 1
        [("id", ident "f" 2);
         ("params", ident "Foo" 3);
         ("body", parsed "BlockStatement" 4
            [("body", parsed "FunctionDeclaration" 5
                [("id", ident "h" 6);
                 ("body", parsed "BlockStatement" 7
                    [("body", parsed "LabeledStatement" 8
                        [("body", parsed "ExpressionStatement" 9
                            [("expression", parsed "CallExpression" 10
                                [("callee", ident "g" 11)])]);
                         ("label", ident "Foo" 12)]);
                     ("body", parsed "BlockStatement" 13
                        [("body", parsed "ExpressionStatement" 14
                            [("expression", parsed "CallExpression" 15
                                [("callee", ident "g" 16);
                                 ("arguments", parsed "FunctionExpression" 17
                                    [("body", parsed "BlockStatement" 18
                                        [("body", parsed "ReturnStatement" 19
                                            [("argument",
                                              parsed "Literal" 20 [])])])])])])]);
                     ("body", parsed "ReturnStatement" 21
                        [("argument", ident "Foo" 22)])])]);
             ("body", parsed "ReturnStatement" 23
                [("argument", ident "h" 24)])])])].

Definition labelGlobalScope : Globals.Scope :=
  Globals.mkScope [] [None; None] None.

Definition labelFScope : Globals.Scope :=
  Globals.mkScope ["arguments"; "Foo"; "h"] [None; None]
    (Some (Globals.mkScope ["f"] [None; None]
             (Some (Globals.mkScope ["arguments"] [None; None]
                      (Some labelGlobalScope))))).

Definition labelHScope : Globals.Scope :=
  Globals.mkScope ["arguments"] [None; None; Some "Foo"] (Some labelFScope).

Definition labelBlockScope : Globals.Scope :=
  Globals.mkScope [] [None] (Some labelHScope).

Definition labelInnerScope : Globals.Scope :=
  Globals.mkScope ["arguments"] [] (Some labelBlockScope).

Definition labelScopes : Globals.ScopeManager :=
  λ id, match id with
        | 0 => Some labelGlobalScope
        | 1 => Some labelFScope
        | 5 => Some labelHScope
        | 13 => Some labelBlockScope
        | 17 => Some labelInnerScope
        | _ => None
        end.

(** The output of the rewrite for [labelFile], where [return Foo] has
    become [return __package_globals__.Foo], as acorn parses it, and its
    scopes: no reference to [Foo] is left in [h], an unresolved
    reference to [__package_globals__] has taken its place. *)
Definition labelReparsed : Globals.node :=
  parsed "Program" 100
    [("body", parsed "FunctionDeclaration" 101
        [("id", ident "f" 102);
         ("params", ident "Foo" 103);
         ("body", parsed "BlockStatement" 104
            [("body", parsed "FunctionDeclaration" 105
                [("id", ident "h" 106);
                 ("body", parsed "BlockStatement" 107
                    [("body", parsed "LabeledStatement" 108
                        [("body", parsed "ExpressionStatement" 109
                            [("expression", parsed "CallExpression" 110
                                [("callee", ident "g" 111)])]);
                         ("label", ident "Foo" 112)]);
                     ("body", parsed "BlockStatement" 113
                        [("body", parsed "ExpressionStatement" 114
                            [("expression", parsed "CallExpression" 115
                                [("callee", ident "g" 116);
                                 ("arguments", parsed "FunctionExpression" 117
                                    [("body", parsed "BlockStatement" 118
                                        [("body", parsed "ReturnStatement" 119
                                            [("argument",
                                              parsed "Literal" 120 [])])])])])])]);
                     ("body", parsed "ReturnStatement" 121
                        [("argument", parsed "MemberExpression" 122
                            [("object", ident "__package_globals__" 123);
                             ("property", ident "Foo" 124)])])])]);
             ("body", parsed "ReturnStatement" 125
                [("argument", ident "h" 126)])])])].

Definition labelReparsedGlobalScope : Globals.Scope :=
  Globals.mkScope [] [None; None; None] None.

Definition labelReparsedFScope : Globals.Scope :=
  Globals.mkScope ["arguments"; "Foo"; "h"] [None; None; None]
    (Some (Globals.mkScope ["f"] [None; None; None]
             (Some (Globals.mkScope ["arguments"] [None; None; None]
                      (Some labelReparsedGlobalScope))))).

Definition labelReparsedHScope : Globals.Scope :=
  Globals.mkScope ["arguments"] [None; None; None] (Some labelReparsedFScope).

Definition labelReparsedBlockScope : Globals.Scope :=
  Globals.mkScope [] [None] (Some labelReparsedHScope).

Definition labelReparsedInnerScope : Globals.Scope :=
  Globals.mkScope ["arguments"] [] (Some labelReparsedBlockScope).

Definition labelReparsedScopes : Globals.ScopeManager :=
  λ id, match id with
        | 100 => Some labelReparsedGlobalScope
        | 101 => Some labelReparsedFScope
        | 105 => Some labelReparsedHScope
        | 113 => Some labelReparsedBlockScope
        | 117 => Some labelReparsedInnerScope
        | _ => None
        end.

End Examples.

(** * Properties *)

(** ** Lists, sets and sorting *)

Section SetFacts.

Lemma elem_of_set_add x y s : x ∈ set_add y s ↔ x ∈ s ∨ x = y.
Proof.
  unfold set_add. case_decide.
  - split; [tauto|]. intros [?| ->]; done.
  - rewrite elem_of_app, list_elem_of_singleton. done.
Qed.

Lemma NoDup_set_add y s : NoDup s → NoDup (set_add y s).
Proof.
  intros Hs. unfold set_add. case_decide; [done|].
  apply NoDup_app. split_and!; [done| |apply NoDup_singleton].
  intros x Hx ->%list_elem_of_singleton. done.
Qed.

Lemma set_add_self y s : y ∈ set_add y s.
Proof. apply elem_of_set_add. by right. Qed.

Lemma set_add_mono x y s : x ∈ s → x ∈ set_add y s.
Proof. intros. apply elem_of_set_add. by left. Qed.

Lemma elem_of_foldl_set_add x l acc :
  x ∈ foldl (λ s y, set_add y s) acc l ↔ x ∈ acc ∨ x ∈ l.
Proof.
  revert acc. induction l as [|y l IH]; intros acc; simpl.
  - rewrite elem_of_nil. tauto.
  - rewrite IH, elem_of_set_add, elem_of_cons. tauto.
Qed.

Lemma NoDup_foldl_set_add l acc :
  NoDup acc → NoDup (foldl (λ s y, set_add y s) acc l).
Proof.
  revert acc. induction l as [|y l IH]; intros acc Hacc; simpl; [done|].
  by apply IH, NoDup_set_add.
Qed.

Lemma elem_of_set_from x l : x ∈ set_from l ↔ x ∈ l.
Proof. unfold set_from. rewrite elem_of_foldl_set_add, elem_of_nil. tauto. Qed.

Lemma NoDup_set_from l : NoDup (set_from l).
Proof. apply NoDup_foldl_set_add, NoDup_nil_2. Qed.

(** An array without duplicates is its own [Set]. *)
Lemma foldl_set_add_NoDup l acc :
  NoDup (acc ++ l) → foldl (λ s y, set_add y s) acc l = acc ++ l.
Proof.
  revert acc. induction l as [|y l IH]; intros acc Hnd; simpl.
  - by rewrite app_nil_r.
  - assert (y ∉ acc) as Hy.
    { apply NoDup_app in Hnd as (_ & Hd & _). intros Hin.
      apply (Hd y Hin). by left. }
    unfold set_add at 2. rewrite decide_False by done.
    rewrite IH; rewrite <- (assoc_L (++)); done.
Qed.

Lemma set_from_NoDup l : NoDup l → set_from l = l.
Proof. intros. unfold set_from. by rewrite foldl_set_add_NoDup. Qed.

End SetFacts.

Section SortFacts.
Context {A : Type} (le : A → A → bool).

Lemma insert_sorted_perm x l : insert_sorted le x l ≡ₚ x :: l.
Proof.
  induction l as [|y l IH]; simpl; [done|].
  destruct (le x y); [done|].
  rewrite IH. apply Permutation_swap.
Qed.

Lemma sortBy_perm l : sortBy le l ≡ₚ l.
Proof.
  induction l as [|x l IH]; simpl; [done|].
  by rewrite insert_sorted_perm, IH.
Qed.

Hypothesis le_total : ∀ x y, le x y = false → le y x = true.
Hypothesis le_trans : ∀ x y z, le x y = true → le y z = true → le x z = true.

Lemma insert_sorted_sorted x l :
  StronglySorted (λ a b, le a b = true) l →
  StronglySorted (λ a b, le a b = true) (insert_sorted le x l).
Proof using le_total le_trans.
  induction 1 as [|y l Hl IH Hy]; simpl.
  - repeat constructor.
  - destruct (le x y) eqn:Hxy.
    + constructor; [by constructor|].
      constructor; [done|].
      eapply Forall_impl; [exact Hy|]. intros z Hz. by eapply le_trans.
    + constructor; [done|].
      rewrite insert_sorted_perm. constructor; [by apply le_total|done].
Qed.

Lemma sortBy_sorted l : StronglySorted (λ a b, le a b = true) (sortBy le l).
Proof using le_total le_trans.
  induction l as [|x l IH]; simpl; [constructor|].
  by apply insert_sorted_sorted.
Qed.

Lemma filter_head_false (f : A → bool) y l :
  f y = false →
  List.filter f l ++ y :: List.filter (λ a, negb (f a)) l = y :: l →
  List.filter f l = [].
Proof.
  intros Hy Hl. destruct (List.filter f l) as [|z t] eqn:Hz; [done|].
  assert (In z (List.filter f l)) as Hin by (rewrite Hz; left; done).
  apply filter_In in Hin as [_ Hfz].
  simpl in Hl. injection Hl as -> _. congruence.
Qed.

Lemma insert_sorted_partition (f : A → bool) x l :
  (∀ a b, le a b = f a || negb (f b)) →
  List.filter f l ++ List.filter (λ a, negb (f a)) l = l →
  insert_sorted le x l
  = List.filter f (x :: l) ++ List.filter (λ a, negb (f a)) (x :: l).
Proof.
  intros Hle. induction l as [|y l IH]; intros Hl.
  - simpl. by destruct (f x).
  - simpl in *. rewrite Hle. destruct (f x) eqn:Hx; simpl.
    + by rewrite Hl.
    + destruct (f y) eqn:Hy; simpl in *.
      * injection Hl as Hl. by rewrite IH.
      * pose proof (filter_head_false f y l Hy Hl) as Hnil.
        rewrite Hnil in *. simpl in *. by rewrite Hl.
Qed.

Lemma filter_filter_keep (g h : A → bool) l :
  (∀ a, g a = true → h a = true) →
  List.filter h (List.filter g l) = List.filter g l.
Proof.
  intros Hgh. induction l as [|x l IH]; [done|]. simpl.
  destruct (g x) eqn:Hx; [|done]. simpl. rewrite (Hgh x Hx). by rewrite IH.
Qed.

Lemma filter_filter_drop (g h : A → bool) l :
  (∀ a, g a = true → h a = false) →
  List.filter h (List.filter g l) = [].
Proof.
  intros Hgh. induction l as [|x l IH]; [done|]. simpl.
  destruct (g x) eqn:Hx; [|done]. simpl. by rewrite (Hgh x Hx).
Qed.

Lemma filter_partition_l (f : A → bool) l :
  List.filter f (List.filter f l ++ List.filter (λ a, negb (f a)) l)
  = List.filter f l.
Proof.
  rewrite List.filter_app, filter_filter_keep by done.
  rewrite (filter_filter_drop (λ a, negb (f a)) f)
    by (intros a; by destruct (f a)).
  apply app_nil_r.
Qed.

Lemma filter_partition_r (f : A → bool) l :
  List.filter (λ a, negb (f a))
    (List.filter f l ++ List.filter (λ a, negb (f a)) l)
  = List.filter (λ a, negb (f a)) l.
Proof.
  rewrite List.filter_app.
  rewrite (filter_filter_drop f (λ a, negb (f a)))
    by (intros a; by destruct (f a)).
  by rewrite filter_filter_keep.
Qed.

(** Stability, in the form the two-class comparator of [sortImports]
    needs: when [le] only separates the elements that satisfy [f] from the
    others, sorting is the stable partition. *)
Lemma sortBy_partition (f : A → bool) l :
  (∀ a b, le a b = f a || negb (f b)) →
  sortBy le l = List.filter f l ++ List.filter (λ a, negb (f a)) l.
Proof.
  intros Hle. induction l as [|x l IH]; [done|].
  cbn [sortBy]. rewrite IH.
  rewrite (insert_sorted_partition f); [|done|].
  - cbn [List.filter].
    rewrite filter_partition_l, filter_partition_r.
    by destruct (f x).
  - by rewrite filter_partition_l, filter_partition_r.
Qed.

End SortFacts.

(** ** The build-target tree *)

Module ArchFacts.
Import Arch Examples.

Lemma arch_ind (P : MeteorArch → Prop) :
  (∀ a, parentArch a = None → P a) →
  (∀ a p, parentArch a = Some p → P p → P a) →
  ∀ a, P a.
Proof.
  intros Hroot Hchild. fix IH 1.
  intros [n [p|] e i ip pp up mm ass md].
  - apply (Hchild _ p); [reflexivity|apply IH].
  - by apply Hroot.
Qed.

(** The merged entries are the node's own followed by those of every
    ancestor, nearest first. *)
Lemma getImportsEntries_ancestors a :
  getImportsEntries a = concat (imports <$> a :: ancestors a).
Proof.
  induction a as [a Ha|a p Ha IH] using arch_ind.
  - destruct a; simpl in *; subst; simpl. done.
  - destruct a; simpl in *; subst; simpl in *. by rewrite IH.
Qed.

Lemma byOrder_total x y : byOrder x y = false → byOrder y x = true.
Proof. unfold byOrder. lia. Qed.

Lemma byOrder_trans x y z :
  byOrder x y = true → byOrder y z = true → byOrder x z = true.
Proof. unfold byOrder. lia. Qed.

(** C6.  [getImports] without the own-only flag merges the entries of the
    node with those of all its ancestors, orders them by import order and
    returns the specifiers in that order, each once: the entries it reads
    the specifiers from are a permutation of the merged entries, sorted by
    order.  For parent imports [a], [b] with orders 0 and 1 and child
    import [c] with order 2 the child's result is [a; b; c]. *)
Theorem getImports_sorted_merge (a : MeteorArch) :
  let entries := sortBy byOrder (getImportsEntries a) in
  getImportsEntries a = concat (imports <$> a :: ancestors a)
  ∧ entries ≡ₚ concat (imports <$> a :: ancestors a)
  ∧ StronglySorted (λ x y, (x.2 ≤ y.2)%Z) entries
  ∧ getImports false a = set_from entries.*1
  ∧ NoDup (getImports false a)
  ∧ getImports false child_c = ["a"; "b"; "c"].
Proof.
  split_and!.
  - apply getImportsEntries_ancestors.
  - rewrite <- getImportsEntries_ancestors. apply sortBy_perm.
  - pose proof (sortBy_sorted byOrder byOrder_total byOrder_trans
                  (getImportsEntries a)) as Hs.
    induction Hs as [|x l Hl IH Hx]; constructor; [done|].
    eapply Forall_impl; [exact Hx|]. intros y. unfold byOrder. lia.
  - done.
  - apply NoDup_set_from.
  - reflexivity.
Qed.

(** Every specifier of the node or of an ancestor is in the result, and
    nothing else. *)
Lemma elem_of_getImports s a :
  s ∈ getImports false a ↔ ∃ b, b ∈ a :: ancestors a ∧ s ∈ keys (imports b).
Proof.
  unfold getImports. rewrite elem_of_set_from.
  rewrite (sortBy_perm byOrder (getImportsEntries a)).
  rewrite getImportsEntries_ancestors.
  unfold keys. rewrite list_elem_of_fmap. split.
  - intros ([k o] & -> & Hin).
    apply list_elem_of_In, in_concat in Hin as (es & Hes & Hin).
    apply list_elem_of_In, list_elem_of_fmap in Hes as (b & -> & Hb).
    exists b. split; [done|]. apply list_elem_of_fmap. exists (k, o).
    split; [done|]. by apply list_elem_of_In.
  - intros (b & Hb & Hs).
    apply list_elem_of_fmap in Hs as (e & -> & He).
    exists e. split; [done|].
    apply list_elem_of_In, in_concat. exists (imports b).
    split; [|by apply list_elem_of_In].
    apply list_elem_of_In, list_elem_of_fmap. by exists b.
Qed.

(** [isNoop(false)] is [true] exactly when the node is unmodified and has
    a parent whose own flag is unset; the parent's ancestors are not
    consulted. *)
Lemma isNoop_ancestors_true a :
  isNoop false a = Some true
  ↔ modified a = false ∧ ∃ p, parentArch a = Some p ∧ modified p = false.
Proof.
  unfold isNoop. simpl. destruct (modified a); simpl.
  - split; [done|]. by intros [? _].
  - destruct (parentArch a) as [p|].
    + split.
      * intros [= H]. split; [done|]. exists p. by destruct (modified p).
      * intros (_ & p' & [= <-] & ->). done.
    + split; [done|]. by intros (_ & ? & ? & _).
Qed.

(** C9.  With the ancestors flag, [isNoop] answers [true] on an unmodified
    node with an unmodified parent although the grandparent was modified
    by [addExport], and answers [undefined] rather than [true] on an
    unmodified root. *)
Theorem isNoop_ancestors_misses_grandparent :
  modified grandparent_modified = true
  ∧ grandparent_modified ∈ ancestors child_untouched
  ∧ isNoop false child_untouched = Some true
  ∧ isNoop false (newArch "client" None) = None.
Proof.
  split_and!; try reflexivity.
  simpl. right. left.
Qed.

End ArchFacts.

(** ** Dictionaries and strings *)

Section MapFacts.
Context {V : Type}.
Implicit Types m : list (string * V).

Lemma map_get_set_eq k v m : map_get k (map_set k v m) = Some v.
Proof.
  induction m as [|[k' v'] m IH]; simpl.
  - by rewrite decide_True.
  - destruct (decide (k' = k)) as [->|Hne]; simpl.
    + by rewrite decide_True.
    + by rewrite decide_False.
Qed.

Lemma map_get_set_ne k k' v m :
  k ≠ k' → map_get k' (map_set k v m) = map_get k' m.
Proof.
  intros Hne. induction m as [|[k0 v0] m IH]; simpl.
  - by rewrite decide_False.
  - destruct (decide (k0 = k)) as [->|Hne0]; simpl.
    + by rewrite !decide_False.
    + destruct (decide (k0 = k')); done.
Qed.

(** Setting a key never disturbs the order of the keys already there. *)
Lemma keys_map_set k v m :
  keys (map_set k v m) = if decide (k ∈ keys m) then keys m else keys m ++ [k].
Proof.
  unfold keys. induction m as [|[k0 v0] m IH]; [done|].
  cbn [map_set]. destruct (decide (k0 = k)) as [->|Hne].
  - rewrite !fmap_cons. cbn [fst]. rewrite decide_True; [done|]. left.
  - rewrite !fmap_cons. cbn [fst]. rewrite IH.
    destruct (decide (k ∈ m.*1)) as [Hin|Hnin].
    + rewrite decide_True; [done|]. by right.
    + rewrite decide_False; [done|].
      intros [?|?]%elem_of_cons; congruence.
Qed.

End MapFacts.

Section StringFacts.

(** [replace] rewrites the first occurrence only. *)
Lemma replace_first c d (a b : string) :
  contains c a = false →
  replace c d (a +:+ String c b) = a +:+ String d b.
Proof.
  induction a as [|x a IH]; simpl.
  - intros _. by rewrite decide_True.
  - destruct (decide (x = c)); [done|]. intros Ha. by rewrite IH.
Qed.

Lemma replace_absent c d (s : string) :
  contains c s = false → replace c d s = s.
Proof.
  induction s as [|x s IH]; simpl; [done|].
  destruct (decide (x = c)); [done|]. intros Hs. by rewrite IH.
Qed.

Lemma contains_app c (a b : string) :
  contains c (a +:+ b) = contains c a || contains c b.
Proof.
  induction a as [|x a IH]; simpl; [done|].
  destruct (decide (x = c)); [done|]. apply IH.
Qed.

(** What is left after the replacement: an occurrence of [c] remains
    exactly when the text after the first occurrence has one. *)
Lemma contains_replace_first c d (a b : string) :
  c ≠ d → contains c a = false →
  contains c (replace c d (a +:+ String c b)) = contains c b.
Proof.
  intros Hcd Ha. rewrite replace_first by done.
  rewrite contains_app, Ha. simpl. by rewrite decide_False.
Qed.

End StringFacts.

(** ** The package unit: entry wrappers, versions, dependencies *)

Module PackageFacts.
Import Package.

(** The comparator separates absolute from relative specifiers and
    nothing else. *)
Lemma compareImports_le a b :
  (compareImports a b <=? 0)%Z = isAbsolute a || negb (isAbsolute b).
Proof. unfold compareImports. by destruct (isAbsolute a), (isAbsolute b). Qed.

Lemma sortImports_partition imports :
  sortImports imports
  = List.filter isAbsolute imports
    ++ List.filter (λ i, negb (isAbsolute i)) imports.
Proof. apply sortBy_partition, compareImports_le. Qed.

(** C7, as the code has it.  The import section of an entry wrapper has
    one statement per declared import ([import] statements for a native
    package, [require] calls for a legacy-interop one); the specifiers
    that start with [@] or [/] come first, the others after them, and
    inside each of the two groups the declaration order is kept. *)
Theorem getImportStr_absolute_first (importsSet : list string) (isCommon : bool) :
  let ordered := List.filter isAbsolute importsSet
                 ++ List.filter (λ i, negb (isAbsolute i)) importsSet in
  let statement := if isCommon then requireStatement else importStatement in
  getImportStr importsSet isCommon = join newline (statement <$> ordered)
  ∧ ordered ≡ₚ importsSet
  ∧ List.length (statement <$> ordered) = List.length importsSet
  ∧ ∀ exportMainModuleStr exportStr,
      entryWrapper importsSet isCommon exportMainModuleStr exportStr
      = join newline
          ([join newline (statement <$> ordered)]
           ++ match exportMainModuleStr with Some m => [m] | None => [] end
           ++ [exportStr]).
Proof.
  assert (List.filter isAbsolute importsSet
          ++ List.filter (λ i, negb (isAbsolute i)) importsSet ≡ₚ importsSet)
    as Hperm.
  { rewrite <- sortImports_partition. apply sortBy_perm. }
  simpl. split_and!.
  - unfold getImportStr. rewrite sortImports_partition. by destruct isCommon.
  - done.
  - rewrite length_fmap. by rewrite Hperm.
  - intros. unfold entryWrapper, getImportStr.
    rewrite sortImports_partition. by destruct isCommon.
Qed.

(** C7, counterexample.  A relative import declared before a package
    import: the wrapper imports the package first, so the statements are
    not in declaration order. *)
Lemma getImportStr_not_declaration_order :
  getImportStr ["./lib.js"; "@meteor/tracker"] false
  = join newline [importStatement "@meteor/tracker"; importStatement "./lib.js"]
  ∧ getImportStr ["./lib.js"; "@meteor/tracker"] false
    ≠ join newline (importStatement <$> ["./lib.js"; "@meteor/tracker"]).
Proof. split; [reflexivity|]. vm_compute. discriminate. Qed.

Section WithHelpers.
Variable meteorNameToNodeName : string → string.

(** When the version has a single underscore the stored version has
    none. *)
Lemma setBasic_single_underscore name desc (a b : string) p :
  contains "_" a = false → contains "_" b = false →
  ∃ v, version (setBasic meteorNameToNodeName
                  {| basic_name := name; basic_description := desc;
                     basic_version := a +:+ String "_" b |} p) = Some v
       ∧ contains "_" v = false.
Proof.
  intros Ha Hb. exists (replace "_" "-" (a +:+ String "_" b)).
  split; [reflexivity|]. by rewrite contains_replace_first.
Qed.

(** C8.  [setBasic] replaces the first underscore of the version only:
    for the version [1.2.3_4_5] the stored version is [1.2.3-4_5],
    which still has an underscore. *)
Theorem setBasic_keeps_second_underscore name desc p :
  version (setBasic meteorNameToNodeName
             {| basic_name := name; basic_description := desc;
                basic_version := "1.2.3_4_5" |} p) = Some "1.2.3-4_5"
  ∧ contains "_" "1.2.3-4_5" = true.
Proof. split; reflexivity. Qed.

(** *** [addMeteorDependencies] *)

Lemma addImport_mono item archs p x :
  (x ∈ clientJsImports p → x ∈ clientJsImports (addImport item archs p))
  ∧ (x ∈ serverJsImports p → x ∈ serverJsImports (addImport item archs p)).
Proof.
  unfold addImport.
  destruct (forServer archs), (forClient archs); simpl;
    split; intros; try done; by apply set_add_mono.
Qed.

Lemma addImport_other item archs p :
  dependencies (addImport item archs p) = dependencies p
  ∧ peerDependencies (addImport item archs p) = peerDependencies p
  ∧ optionalDependencies (addImport item archs p) = optionalDependencies p
  ∧ allPackages (addImport item archs p) = allPackages p
  ∧ immediateDependencies (addImport item archs p) = immediateDependencies p
  ∧ meteorName (addImport item archs p) = meteorName p.
Proof. unfold addImport. by destruct (forServer archs), (forClient archs). Qed.

Lemma addImport_both item p :
  item ∈ clientJsImports (addImport item (Some ["client"; "server"]) p)
  ∧ item ∈ serverJsImports (addImport item (Some ["client"; "server"]) p).
Proof. split; simpl; apply set_add_self. Qed.

Lemma setDep_placeholder t k p :
  map_get "@meteor/meteor" (dependencies p) = Some meteorVersionPlaceholderSymbol →
  map_get "@meteor/meteor"
    (dependencies (setDep t k meteorVersionPlaceholderSymbol p))
  = Some meteorVersionPlaceholderSymbol.
Proof.
  intros Hp. destruct t; simpl; try done.
  destruct (decide (k = "@meteor/meteor")) as [->|Hne].
  - apply map_get_set_eq.
  - by rewrite map_get_set_ne.
Qed.

Lemma setDep_other t k v p :
  allPackages (setDep t k v p) = allPackages p
  ∧ immediateDependencies (setDep t k v p) = immediateDependencies p
  ∧ clientJsImports (setDep t k v p) = clientJsImports p
  ∧ serverJsImports (setDep t k v p) = serverJsImports p.
Proof. by destruct t. Qed.

Lemma addMeteorDependency_keeps deps archs opts p dep :
  (hasMeteor p → hasMeteor (addMeteorDependency meteorNameToNodeName deps archs opts p dep))
  ∧ (importsMeteor p →
     importsMeteor (addMeteorDependency meteorNameToNodeName deps archs opts p dep)).
Proof.
  unfold addMeteorDependency.
  set (name := default EmptyString (head (split "@" dep))).
  case_bool_decide; [done|].
  set (p1 := if negb (from_option weak false opts)
             then with_allPackages (set_add name (allPackages p)) p else p).
  assert (hasMeteor p → hasMeteor p1) as H1.
  { intros (Hd & Ha & Hi). subst p1.
    destruct (negb _); [|done]. split_and!; simpl; try done.
    by apply set_add_mono. }
  assert (importsMeteor p → importsMeteor p1) as H1'.
  { subst p1. by destruct (negb _). }
  set (p2 := setDep deps (meteorNameToNodeName name) meteorVersionPlaceholderSymbol p1).
  assert (hasMeteor p1 → hasMeteor p2) as H2.
  { intros (Hd & Ha & Hi). subst p2. unfold hasMeteor.
    destruct (setDep_other deps (meteorNameToNodeName name)
                meteorVersionPlaceholderSymbol p1) as (-> & -> & _).
    split_and!; try done. by apply setDep_placeholder. }
  assert (importsMeteor p1 → importsMeteor p2) as H2'.
  { intros [Hc Hs]. subst p2.
    destruct (setDep_other deps (meteorNameToNodeName name)
                meteorVersionPlaceholderSymbol p1) as (_ & _ & Hc' & Hs').
    unfold importsMeteor. by rewrite Hc', Hs'. }
  destruct (negb (from_option unordered false opts) && negb (from_option weak false opts)).
  - split.
    + intros Hp. destruct (H2 (H1 Hp)) as (Hd & Ha & Hi).
      destruct (addImport_other (meteorNameToNodeName name) archs p2)
        as (Ed & _ & _ & Ea & Ei & _).
      split_and!; simpl; rewrite ?Ed, ?Ea, ?Ei; try done.
      by apply set_add_mono.
    + intros Hp. destruct (H2' (H1' Hp)) as [Hc Hs].
      destruct (addImport_mono (meteorNameToNodeName name) archs p2
                  "@meteor/meteor") as [Mc Ms].
      split; simpl; auto.
  - split; auto.
Qed.

Lemma addMeteorDependencies_fold_keeps deps archs opts packages p :
  (hasMeteor p →
   hasMeteor (foldl (addMeteorDependency meteorNameToNodeName deps archs opts) p packages))
  ∧ (importsMeteor p →
     importsMeteor (foldl (addMeteorDependency meteorNameToNodeName deps archs opts) p packages)).
Proof.
  revert p. induction packages as [|dep packages IH]; intros p; simpl; [done|].
  destruct (IH (addMeteorDependency meteorNameToNodeName deps archs opts p dep))
    as [IH1 IH2].
  destruct (addMeteorDependency_keeps deps archs opts p dep) as [K1 K2].
  split; auto.
Qed.

End WithHelpers.

(** *** The manifest *)

Lemma mapM_Forall2 {A B} (f : A → result B) (l : list A) (r : list B) :
  mapM f l = Ok r → Forall2 (λ x y, f x = Ok y) l r.
Proof.
  revert r. induction l as [|x l IH]; intros r; simpl.
  - intros [= <-]. constructor.
  - destruct (f x) as [y|] eqn:Hy; simpl; [|done].
    destruct (mapM f l) as [ys|] eqn:Hys; simpl; [|done].
    intros [= <-]. constructor; [done|]. by apply IH.
Qed.

(** The required-dependency map of the manifest has no placeholder left:
    every placeholder was replaced by the version of the registered
    package. *)
Lemma toJSON_dependencies_resolved packageMap p m :
  toJSON packageMap p = Ok m →
  Forall (λ kv, kv.2 ≠ meteorVersionPlaceholderSymbol) (manifest_dependencies m).
Proof.
  unfold toJSON.
  destruct (mapM _ _) as [deps|] eqn:Hdeps; simpl; [|done].
  intros [= <-]. simpl.
  apply mapM_Forall2 in Hdeps.
  induction Hdeps as [|[k v] [k' v'] l l' Hkv _ IH]; constructor; [|done].
  unfold resolveDependency in Hkv. simpl.
  case_bool_decide as Hv.
  - destruct (packageMap !! _) as [q|]; [|done].
    injection Hkv as _ <-. unfold versionOf. by destruct (version q).
  - by injection Hkv as _ <-.
Qed.

(** The peer and optional maps are handed on as they are. *)
Lemma toJSON_peer_optional_unchanged packageMap p m :
  toJSON packageMap p = Ok m →
  manifest_peerDependencies m = peerDependencies p
  ∧ manifest_optionalDependencies m = optionalDependencies p.
Proof.
  unfold toJSON. destruct (mapM _ _); simpl; [|done]. by intros [= <-].
Qed.

(** C2.  A unit that uses [tracker] as an unordered dependency, converted
    with all its packages loaded: in the manifest the required dependency
    on [@meteor/meteor] has the version of the loaded [meteor] unit, but
    the peer dependency on [@meteor/tracker] is still the placeholder. *)
Theorem toJSON_keeps_peer_placeholder :
  ∃ m, toJSON Examples.peerRegistry Examples.peerUser = Ok m
       ∧ manifest_dependencies m = [("@meteor/meteor", versionString "1.10.2")]
       ∧ manifest_peerDependencies m
         = [("@meteor/tracker", meteorVersionPlaceholderSymbol)].
Proof. eexists. split; [vm_compute; reflexivity|]. split; reflexivity. Qed.

(** *** Resolution of imported globals *)

Lemma getImportedGlobalsMaps_S fuel packageMap p globals :
  getImportedGlobalsMaps (S fuel) packageMap p globals
  = forEach (resolveDep fuel packageMap globals) (keys (dependencies p))
      (bindStatic p globals, bindStatic p globals).
Proof. reflexivity. Qed.

Lemma forEach_app {A S} (f : S → A → result S) l1 l2 s :
  forEach f (l1 ++ l2) s = bind (forEach f l1 s) (forEach f l2).
Proof.
  revert s. induction l1 as [|x l1 IH]; intros s; simpl; [done|].
  destruct (f s x); simpl; [apply IH|done].
Qed.

Lemma bindExports_lookup globals exports from (m : gmap string string) x :
  bindExports globals exports from m !! x
  = if bool_decide (x ∈ exports ∧ x ∈ globals) then Some from else m !! x.
Proof.
  unfold bindExports. revert m.
  induction exports as [|e es IH]; intros m; cbn [foldl].
  - rewrite bool_decide_eq_false_2; [done|]. intros [H _]. by apply elem_of_nil in H.
  - rewrite IH. destruct (decide (x ∈ es ∧ x ∈ globals)) as [Hes|Hes].
    + rewrite !bool_decide_eq_true_2; [done| |done].
      destruct Hes. split; [by right|done].
    + rewrite (bool_decide_eq_false_2 _ Hes).
      destruct (decide (x ∈ e :: es ∧ x ∈ globals)) as [He|He].
      * rewrite (bool_decide_eq_true_2 _ He).
        destruct He as [[->|Hx]%elem_of_cons Hg]; [|tauto].
        rewrite bool_decide_eq_true_2 by done. apply lookup_insert_eq.
      * rewrite (bool_decide_eq_false_2 _ He).
        destruct (bool_decide (e ∈ globals)) eqn:Heg; [|done].
        apply bool_decide_eq_true_1 in Heg.
        rewrite lookup_insert_ne; [done|]. intros ->. apply He. split; [left|done].
Qed.

Lemma bindExports_union globals exports from (a b : gmap string string) :
  bindExports globals exports from (a ∪ b)
  = bindExports globals exports from a ∪ b.
Proof.
  unfold bindExports. revert a.
  induction exports as [|e es IH]; intros a; cbn [foldl]; [done|].
  destruct (bool_decide (e ∈ globals)); [|apply IH]. rewrite insert_union_l. apply IH.
Qed.

Lemma bindImplied_union packageMap globals arch implies (a b : gmap string string) :
  bindImplied packageMap globals arch implies (a ∪ b)
  = bind (bindImplied packageMap globals arch implies a) (λ a', Ok (a' ∪ b)).
Proof.
  unfold bindImplied. revert a.
  induction implies as [|imp imps IH]; intros a; simpl; [done|].
  destruct (packageMap !! _) as [q|]; simpl; [|done].
  rewrite bindExports_union. apply IH.
Qed.

Lemma bindImplied_total packageMap globals arch implies (m : gmap string string) :
  Forall (λ imp, is_Some (packageMap !! nodeNameToMeteorName imp)) implies →
  ∃ m', bindImplied packageMap globals arch implies m = Ok m'.
Proof.
  unfold bindImplied. intros H. revert m.
  induction H as [|imp imps [q Hq] _ IH]; intros m; simpl; [by eexists|].
  rewrite Hq. simpl. apply IH.
Qed.

Lemma resolveDep_union fuel packageMap globals cm sm dep :
  resolveDep fuel packageMap globals (cm, sm) dep
  = bind (contribution fuel packageMap globals dep)
         (λ r, Ok (r.1 ∪ cm, r.2 ∪ sm)).
Proof.
  unfold contribution, resolveDep.
  destruct (packageMap !! _) as [q|]; simpl; [|by rewrite !(left_id_L ∅ (∪))].
  destruct (getImportedGlobalsMaps _ _ _ _) as [[dc ds]|]; simpl; [|done].
  rewrite !(right_id_L ∅ (∪)).
  rewrite !bindImplied_union.
  destruct (bindImplied _ _ "client" _ dc) as [c|]; simpl; [|done].
  destruct (bindImplied _ _ "server" _ ds) as [s|]; simpl; [|done].
  by rewrite !bindExports_union.
Qed.

(** A dependency that is not a registered package binds nothing. *)
Lemma contribution_unregistered fuel packageMap globals dep :
  packageMap !! nodeNameToMeteorName dep = None →
  contribution fuel packageMap globals dep = Ok (∅, ∅).
Proof. intros H. unfold contribution, resolveDep. by rewrite H. Qed.

Lemma forEach_resolveDep_total fuel packageMap globals deps maps :
  Forall (λ d, ∃ r, contribution fuel packageMap globals d = Ok r) deps →
  ∃ r, forEach (resolveDep fuel packageMap globals) deps maps = Ok r.
Proof.
  intros H. revert maps.
  induction H as [|d ds [r Hr] _ IH]; intros [cm sm]; simpl; [by eexists|].
  rewrite resolveDep_union, Hr. simpl. apply IH.
Qed.

Lemma forEach_resolveDep_silent fuel packageMap globals arch deps maps r x :
  Forall (λ d, ∀ c, contribution fuel packageMap globals d = Ok c →
                    archMap arch c !! x = None) deps →
  forEach (resolveDep fuel packageMap globals) deps maps = Ok r →
  archMap arch r !! x = archMap arch maps !! x.
Proof.
  intros H. revert maps.
  induction H as [|d ds Hd _ IH]; intros [cm sm]; simpl.
  - by intros [= <-].
  - rewrite resolveDep_union.
    destruct (contribution _ _ _ d) as [c|] eqn:Hc; simpl; [|done].
    intros Hr. rewrite (IH _ Hr). specialize (Hd c eq_refl).
    unfold archMap in *. case_bool_decide; simpl in *;
      by rewrite lookup_union_r.
Qed.

(** Inside one dependency its own exports are bound last: they win over the
    exports of the packages it implies and over its own resolution. *)
Lemma contribution_own_export fuel packageMap globals arch dep q c x :
  arch = "client" ∨ arch = "server" →
  packageMap !! nodeNameToMeteorName dep = Some q →
  x ∈ globals → x ∈ getExportedVars arch q →
  contribution fuel packageMap globals dep = Ok c →
  archMap arch c !! x = Some dep.
Proof.
  intros Harch Hq Hg Hx. unfold contribution, resolveDep. rewrite Hq.
  destruct (getImportedGlobalsMaps _ _ _ _) as [[dc ds]|]; simpl; [|done].
  destruct (bindImplied _ _ "client" _ _) as [cm|]; simpl; [|done].
  destruct (bindImplied _ _ "server" _ _) as [sm|]; simpl; [|done].
  intros [= <-]. unfold archMap.
  destruct Harch as [-> | ->]; simpl;
    rewrite bindExports_lookup; by rewrite bool_decide_eq_true_2.
Qed.

(** When a registered dependency exports a name for the architecture and
    the resolution of no dependency declared after it binds the name, the
    name is bound to the specifier of that dependency. *)
Lemma getImportedGlobalsMaps_last_provider
    fuel packageMap p globals arch x provider pre post q :
  arch = "client" ∨ arch = "server" →
  keys (dependencies p) = pre ++ provider :: post →
  packageMap !! nodeNameToMeteorName provider = Some q →
  x ∈ globals →
  x ∈ getExportedVars arch q →
  Forall (λ d, ∃ c, contribution fuel packageMap globals d = Ok c)
         (keys (dependencies p)) →
  Forall (λ d, ∀ c, contribution fuel packageMap globals d = Ok c →
                    archMap arch c !! x = None) post →
  ∃ maps, getImportedGlobalsMaps (S fuel) packageMap p globals = Ok maps
          ∧ archMap arch maps !! x = Some provider.
Proof.
  intros Harch Hkeys Hq Hg Hx Hall Hpost.
  rewrite getImportedGlobalsMaps_S.
  destruct (forEach_resolveDep_total fuel packageMap globals _
              (bindStatic p globals, bindStatic p globals) Hall) as [r Hr].
  exists r. split; [done|].
  rewrite Hkeys in Hr, Hall. rewrite forEach_app in Hr.
  destruct (forEach _ pre _) as [[cm sm]|]; simpl in Hr; [|done].
  rewrite resolveDep_union in Hr.
  apply Forall_app in Hall as [_ Hprov]. apply Forall_cons in Hprov as [[c Hc] _].
  rewrite Hc in Hr. simpl in Hr.
  rewrite (forEach_resolveDep_silent _ _ _ arch _ _ _ x Hpost Hr).
  pose proof (contribution_own_export _ _ _ _ _ _ _ _ Harch Hq Hg Hx Hc) as Hown.
  unfold archMap in *. case_bool_decide; simpl in *;
    by rewrite (lookup_union_Some_l _ _ _ _ Hown).
Qed.

(** On a registry without dependency cycles in which every implied package
    is registered the resolution returns. *)
Lemma getImportedGlobalsMaps_total packageMap rank globals :
  closedImplies packageMap →
  (∀ n q, packageMap !! n = Some q → ranked packageMap rank q) →
  ∀ fuel p, ranked packageMap rank p → rank p < fuel →
            ∃ r, getImportedGlobalsMaps fuel packageMap p globals = Ok r.
Proof.
  intros Hclosed Hranked. induction fuel as [|fuel IH]; intros p Hp Hlt; [lia|].
  rewrite getImportedGlobalsMaps_S. apply forEach_resolveDep_total.
  apply Forall_forall. intros d Hd. unfold contribution, resolveDep.
  destruct (packageMap !! nodeNameToMeteorName d) as [q|] eqn:Hq; [|by eexists].
  destruct (IH q) as [[dc ds] ->]; [by eapply Hranked|specialize (Hp d q Hd Hq); lia|].
  simpl.
  destruct (bindImplied_total packageMap globals "client" (getImplies "client" q)
              (dc ∪ ∅)) as [cm ->].
  { apply Forall_forall. intros imp Himp. by eapply Hclosed. }
  simpl.
  destruct (bindImplied_total packageMap globals "server" (getImplies "server" q)
              (ds ∪ ∅)) as [sm ->].
  { apply Forall_forall. intros imp Himp. by eapply Hclosed. }
  simpl. by eexists.
Qed.

Lemma archMap_union arch (c acc : gmap string string * gmap string string) x :
  archMap arch (c.1 ∪ acc.1, c.2 ∪ acc.2) !! x
  = match archMap arch c !! x with
    | Some from => Some from
    | None => archMap arch acc !! x
    end.
Proof.
  unfold archMap. case_bool_decide; cbn [fst snd];
    rewrite lookup_union; by destruct (_ !! x), (_ !! x).
Qed.

(** The dependency loop: the last resolution that binds a name decides. *)
Lemma forEach_resolveDep_last fuel packageMap globals deps cs :
  Forall2 (λ d c, contribution fuel packageMap globals d = Ok c) deps cs →
  ∀ acc, ∃ maps,
    forEach (resolveDep fuel packageMap globals) deps acc = Ok maps
    ∧ ∀ arch x,
        (∀ i c from,
           cs !! i = Some c → archMap arch c !! x = Some from →
           (∀ j c', i < j → cs !! j = Some c' → archMap arch c' !! x = None) →
           archMap arch maps !! x = Some from)
        ∧ ((∀ j c', cs !! j = Some c' → archMap arch c' !! x = None) →
           archMap arch maps !! x = archMap arch acc !! x).
Proof.
  induction 1 as [|d c deps cs Hc _ IH]; intros [cm sm]; simpl.
  - eexists. split; [done|]. intros arch x. split; [|done].
    intros i c from Hi. done.
  - rewrite resolveDep_union, Hc. simpl.
    destruct (IH (c.1 ∪ cm, c.2 ∪ sm)) as (maps & -> & Hmaps).
    exists maps. split; [done|]. intros arch x.
    destruct (Hmaps arch x) as [Hlast Hnone].
    pose proof (archMap_union arch c (cm, sm) x) as Hacc. cbn [fst snd] in Hacc.
    split.
    + intros [|i] c0 from Hi Hfrom Hlater.
      * injection Hi as <-. rewrite Hnone.
        -- by rewrite Hacc, Hfrom.
        -- intros j c' Hj. apply (Hlater (S j)); [lia|done].
      * apply (Hlast i c0 from Hi Hfrom).
        intros j c' Hij Hj. apply (Hlater (S j)); [lia|done].
    + intros Hall. rewrite Hnone.
      * rewrite Hacc. by rewrite (Hall 0 c eq_refl).
      * intros j c' Hj. by apply (Hall (S j)).
Qed.

(** C1, as the code has it.  The resolution walks the dependencies in
    the order in which they were declared, and what the resolution of a
    dependency binds overwrites the bindings made before it.  So, when the
    resolution of every dependency returns, a name is bound as the
    last-declared dependency whose resolution binds it binds it, and as
    the static imports bind it when the resolution of no dependency does.
    The resolution of a registered dependency binds every requested name
    the dependency exports to the specifier of that dependency, also when
    a package it implies, or one of its own dependencies, exports the
    name too. *)
Theorem getImportedGlobalsMaps_last_binding fuel packageMap p globals cs :
  Forall2 (λ d c, contribution fuel packageMap globals d = Ok c)
          (keys (dependencies p)) cs →
  ∃ maps,
    getImportedGlobalsMaps (S fuel) packageMap p globals = Ok maps
    ∧ (∀ arch x i c from,
         cs !! i = Some c → archMap arch c !! x = Some from →
         (∀ j c', i < j → cs !! j = Some c' → archMap arch c' !! x = None) →
         archMap arch maps !! x = Some from)
    ∧ (∀ arch x,
         (∀ j c', cs !! j = Some c' → archMap arch c' !! x = None) →
         archMap arch maps !! x = bindStatic p globals !! x)
    ∧ (∀ i d c q arch x,
         keys (dependencies p) !! i = Some d → cs !! i = Some c →
         arch = "client" ∨ arch = "server" →
         packageMap !! nodeNameToMeteorName d = Some q →
         x ∈ globals → x ∈ getExportedVars arch q →
         archMap arch c !! x = Some d).
Proof.
  intros Hcs. rewrite getImportedGlobalsMaps_S.
  destruct (forEach_resolveDep_last fuel packageMap globals _ _ Hcs
              (bindStatic p globals, bindStatic p globals)) as (maps & Hmaps & Hlast).
  exists maps. split_and!; [done| | |].
  - intros arch x. apply Hlast.
  - intros arch x Hall. destruct (Hlast arch x) as [_ Hnone].
    rewrite (Hnone Hall). unfold archMap. by case_bool_decide.
  - intros i d c q arch x Hd Hc Harch Hq Hg Hx.
    pose proof (Forall2_lookup_lr _ _ _ _ _ _ Hcs Hd Hc) as Hcontr.
    simpl in Hcontr.
    apply (contribution_own_export fuel packageMap globals arch d q c x
             Harch Hq Hg Hx Hcontr).
Qed.

Import Examples.

(** C1, counterexample.  Two strong dependencies export [Widget]; the
    first-declared one is [@meteor/first-lib], the name is bound to
    [@meteor/second-lib]. *)
Lemma getImportedGlobalsMaps_second_declared_wins :
  keys (dependencies twoProviders)
  = ["@meteor/meteor"; "@meteor/first-lib"; "@meteor/second-lib"]
  ∧ "Widget" ∈ clientJsExports (loadedUnit "first-lib" "1.0.0" ["Widget"])
  ∧ ∃ maps,
      getImportedGlobalsMaps 2 twoProvidersRegistry twoProviders ["Widget"]
      = Ok maps
      ∧ maps.1 !! "Widget" = Some "@meteor/second-lib"
      ∧ maps.2 !! "Widget" = Some "@meteor/second-lib"
      ∧ maps.1 !! "Widget" ≠ Some "@meteor/first-lib".
Proof.
  split; [reflexivity|]. split; [by left|].
  eexists. split; [vm_compute; reflexivity|].
  split_and!; [reflexivity|reflexivity|discriminate].
Qed.

(** C1 on three providers: [first-lib] and [second-lib] export [Widget],
    [third-lib], declared last, exports nothing and depends on
    [first-lib].  The resolution of [third-lib] binds [Widget] to
    [@meteor/first-lib], and so does the resolution of the application:
    neither the first-declared nor the last-declared provider decides. *)
Lemma getImportedGlobalsMaps_last_binding_witness :
  keys (dependencies threeUser)
  = ["@meteor/meteor"; "@meteor/first-lib"; "@meteor/second-lib"; "@meteor/third-lib"]
  ∧ Forall2 (λ d c, contribution 2 threeRegistry ["Widget"] d = Ok c)
            (keys (dependencies threeUser)) threeResolutions
  ∧ (archMap "client" <$> threeResolutions)
    = [∅; {[ "Widget" := "@meteor/first-lib" ]};
       {[ "Widget" := "@meteor/second-lib" ]};
       {[ "Widget" := "@meteor/first-lib" ]}]
  ∧ ∃ maps,
      getImportedGlobalsMaps 3 threeRegistry threeUser ["Widget"] = Ok maps
      ∧ archMap "client" maps !! "Widget" = Some "@meteor/first-lib".
Proof.
  split; [reflexivity|].
  assert (Forall2 (λ d c, contribution 2 threeRegistry ["Widget"] d = Ok c)
                  (keys (dependencies threeUser)) threeResolutions) as Hcs.
  { change (keys (dependencies threeUser))
      with ["@meteor/meteor"; "@meteor/first-lib"; "@meteor/second-lib";
            "@meteor/third-lib"].
    unfold threeResolutions.
    change (keys (dependencies threeUser))
      with ["@meteor/meteor"; "@meteor/first-lib"; "@meteor/second-lib";
            "@meteor/third-lib"].
    cbn [fmap list_fmap].
    repeat (apply Forall2_cons; split; [vm_compute; reflexivity|]).
    apply Forall2_nil_2. }
  assert ((archMap "client" <$> threeResolutions)
          = [∅; {[ "Widget" := "@meteor/first-lib" ]};
             {[ "Widget" := "@meteor/second-lib" ]};
             {[ "Widget" := "@meteor/first-lib" ]}]) as Hclient
    by (vm_compute; reflexivity).
  split; [exact Hcs|]. split; [exact Hclient|].
  destruct (getImportedGlobalsMaps_last_binding 2 threeRegistry threeUser
              ["Widget"] threeResolutions Hcs) as (maps & Hmaps & Hlast & _).
  exists maps. split; [exact Hmaps|].
  assert (∀ i m, (archMap "client" <$> threeResolutions) !! i = Some m →
                 ∃ c, threeResolutions !! i = Some c ∧ archMap "client" c = m)
    as Hget.
  { intros i m Hi. rewrite list_lookup_fmap in Hi.
    destruct (threeResolutions !! i) as [c|]; [|done].
    injection Hi as <-. by exists c. }
  destruct (Hget 3 {[ "Widget" := "@meteor/first-lib" ]}) as (c & Hc & Hm).
  { by rewrite Hclient. }
  apply (Hlast "client" "Widget" 3 c "@meteor/first-lib" Hc).
  - by rewrite Hm.
  - intros j c' Hj Hc'.
    assert (is_Some ((archMap "client" <$> threeResolutions) !! j)) as Hsome.
    { rewrite list_lookup_fmap, Hc'. by eexists. }
    rewrite Hclient in Hsome. apply lookup_lt_is_Some in Hsome. simpl in Hsome. lia.
Defined.

(** The nearer-provider scenario: [consumer] depends on [near], which
    exports [Widget] and implies [far], which exports [Widget] too;
    [Widget] is bound to [@meteor/near]. *)
Lemma getImportedGlobalsMaps_nearer_provider :
  ("client" = "client" ∨ "client" = "server")
  ∧ keys (dependencies consumer) = ["@meteor/meteor"] ++ "@meteor/near" :: []
  ∧ impliedRegistry !! nodeNameToMeteorName "@meteor/near" = Some nearUnit
  ∧ "Widget" ∈ ["Widget"]
  ∧ "Widget" ∈ getExportedVars "client" nearUnit
  ∧ "@meteor/far" ∈ getImplies "client" nearUnit
  ∧ "Widget" ∈ getExportedVars "client" farUnit
  ∧ ∃ maps, getImportedGlobalsMaps 3 impliedRegistry consumer ["Widget"] = Ok maps
            ∧ archMap "client" maps !! "Widget" = Some "@meteor/near".
Proof.
  split_and!; try (by left); try reflexivity.
  apply (getImportedGlobalsMaps_last_provider 2 impliedRegistry consumer
           ["Widget"] "client" "Widget" "@meteor/near" ["@meteor/meteor"] []
           nearUnit).
  - by left.
  - reflexivity.
  - reflexivity.
  - by left.
  - by left.
  - repeat constructor; eexists; vm_compute; reflexivity.
  - constructor.
Defined.

End PackageFacts.

(** ** Rewriting package globals *)

Module GlobalsFacts.
Import Globals Examples.

Lemma node_ind' (P : node → Prop) :
  (∀ ty nm id ks, Forall (λ k, P k.2) ks → P (Node ty nm id ks)) →
  ∀ n, P n.
Proof.
  intros H. fix IH 1. intros [ty nm id ks]. apply H.
  induction ks as [|[p k] ks IHks]; constructor; [apply IH|apply IHks].
Qed.

(** [walk] in terms of [walkKids]. *)
Lemma walk_eq sm g pt prop n cs :
  walk sm g pt prop n cs
  = bind (walkKids sm g (ntype n) (kids n)
            (if isFunction n then acquire sm n else cs)) (λ walked,
    let n' := Node (ntype n) (nname n) (nid n) walked.1 in
    bind (if isFunction n then popScope walked.2 else Ok walked.2) (λ left,
    bind (shouldRewrite g left pt prop n') (λ b,
    Ok (if b then rewritten n' else n', left)))).
Proof.
  destruct n as [ty nm id ks]. cbn [walk ntype nname nid kids].
  f_equal.
  generalize (if isFunction (Node ty nm id ks)
              then acquire sm (Node ty nm id ks) else cs).
  induction ks as [|[p k] ks IH]; intros c; [done|].
  cbn [walkKids]. destruct (walk sm g (Some ty) p k c) as [r|]; [|done].
  cbn [bind]. by rewrite IH.
Qed.

Lemma walkKids_app sm g pty ks1 ks2 cs :
  walkKids sm g pty (ks1 ++ ks2) cs
  = bind (walkKids sm g pty ks1 cs) (λ r1,
    bind (walkKids sm g pty ks2 r1.2) (λ r2,
    Ok (r1.1 ++ r2.1, r2.2))).
Proof.
  revert cs. induction ks1 as [|[p k] ks1 IH]; intros cs; simpl.
  - by destruct (walkKids sm g pty ks2 cs) as [[? ?]|].
  - destruct (walk sm g (Some pty) p k cs) as [[k' c']|]; simpl; [|done].
    rewrite IH. destruct (walkKids sm g pty ks1 c') as [[? ?]|]; simpl; [|done].
    by destruct (walkKids sm g pty ks2 _) as [[? ?]|].
Qed.

Lemma shouldRewrite_true g cs pt prop n :
  shouldRewrite g cs pt prop n = Ok true →
  ntype n = "Identifier" ∧ nname n ∈ g.
Proof.
  unfold shouldRewrite. case_bool_decide as Hty; simpl; [|done].
  destruct pt as [pt|]; [|done].
  repeat (case_bool_decide; simpl; try done).
  all: destruct cs; try done; repeat (case_bool_decide; simpl; try done).
Qed.

Lemma isFunction_Identifier n : ntype n = "Identifier" → isFunction n = false.
Proof. unfold isFunction. by intros ->. Qed.

(** *** Rewriting twice *)

Lemma shouldRewrite_false_compat g cs pt pt' prop n :
  compat pt pt' →
  shouldRewrite g cs pt prop n = Ok false →
  shouldRewrite g cs pt' prop n = Ok false.
Proof.
  intros [->|[-> ->]]; [done|].
  unfold shouldRewrite. case_bool_decide as Hty; simpl; [|done].
  by destruct (bool_decide (prop = "object")).
Qed.

Lemma shouldRewrite_not_Identifier g cs pt prop n :
  ntype n ≠ "Identifier" → shouldRewrite g cs pt prop n = Ok false.
Proof. intros H. unfold shouldRewrite. by rewrite bool_decide_eq_false_2. Qed.

Section Idempotence.
Variable sm : ScopeManager.
Variable g : list string.
Hypothesis namespace_fresh : "__package_globals__" ∉ g.

Lemma walk_namespace_object cs :
  walk sm g (Some "MemberExpression") "object"
    (identifier "__package_globals__") cs
  = Ok (identifier "__package_globals__", cs).
Proof using namespace_fresh.
  rewrite walk_eq. simpl. unfold shouldRewrite. simpl.
  rewrite (bool_decide_eq_false_2 _ namespace_fresh). done.
Qed.

Lemma walk_namespace_property x cs :
  walk sm g (Some "MemberExpression") "property" (identifier x) cs
  = Ok (identifier x, cs).
Proof. rewrite walk_eq. simpl. unfold shouldRewrite. by simpl. Qed.

Lemma walk_idempotent_gen n :
  ∀ pt pt' prop cs n' cs',
    compat pt pt' →
    walk sm g pt prop n cs = Ok (n', cs') →
    walk sm g pt' prop n' cs = Ok (n', cs').
Proof using namespace_fresh.
  induction n as [ty nm id ks IH] using node_ind'.
  intros pt pt' prop cs n' cs' Hcompat.
  rewrite walk_eq. cbn [ntype nname nid kids].
  set (fn := isFunction (Node ty nm id ks)).
  set (entered := if fn then acquire sm (Node ty nm id ks) else cs).
  assert (∀ pty pty' c ks' c',
            compat (Some pty) (Some pty') →
            walkKids sm g pty ks c = Ok (ks', c') →
            walkKids sm g pty' ks' c = Ok (ks', c')) as Hkids.
  { clear -IH. induction IH as [|[p k] ks Hk _ IHks];
      intros pty pty' c ks' c' Hc; simpl.
    - by intros [= <- <-].
    - destruct (walk sm g (Some pty) p k c) as [[k1 c1]|] eqn:Hw; simpl; [|done].
      destruct (walkKids sm g pty ks c1) as [[ks1 c2]|] eqn:Hws; simpl; [|done].
      intros [= <- <-]. simpl.
      rewrite (Hk _ _ _ _ _ _ Hc Hw). simpl.
      by rewrite (IHks _ _ _ _ _ Hc Hws). }
  destruct (walkKids sm g ty ks entered) as [[ks' c2]|] eqn:Hw; simpl; [|done].
  destruct (if fn then popScope c2 else Ok c2) as [left|] eqn:Hleft; simpl; [|done].
  destruct (shouldRewrite g left pt prop (Node ty nm id ks')) as [b|] eqn:Hb;
    simpl; [|done].
  intros [= <- <-]. destruct b.
  - (* rewritten in the first pass *)
    apply shouldRewrite_true in Hb as [Hty _]. simpl in Hty. subst ty.
    assert (fn = false) as Hfn by done.
    unfold entered in Hw. rewrite Hfn in Hw, Hleft. injection Hleft as <-.
    rewrite walk_eq. unfold rewritten. cbn [ntype nname nid kids].
    assert (∀ nm id ks, isFunction (Node "MemberExpression" nm id ks) = false)
      as HME by done.
    rewrite !HME.
    rewrite walkKids_app.
    rewrite (Hkids "Identifier" "MemberExpression" cs ks' c2) by (by right || done).
    cbn [bind fst snd walkKids].
    rewrite walk_namespace_object. cbn [bind fst snd].
    rewrite walk_namespace_property. cbn [bind fst snd].
    rewrite shouldRewrite_not_Identifier by done. done.
  - (* left alone in the first pass *)
    rewrite walk_eq. cbn [ntype nname nid kids].
    change (isFunction (Node ty nm id ks')) with fn.
    change (acquire sm (Node ty nm id ks')) with (acquire sm (Node ty nm id ks)).
    fold entered.
    rewrite (Hkids ty ty entered ks' c2) by (by left || done).
    cbn [bind fst snd]. rewrite Hleft. cbn [bind].
    rewrite (shouldRewrite_false_compat _ _ _ _ _ _ Hcompat Hb). done.
Qed.

End Idempotence.

Lemma walk_nid sm g pt prop n cs n' cs' :
  walk sm g pt prop n cs = Ok (n', cs') → nid n' = nid n.
Proof.
  rewrite walk_eq.
  destruct (walkKids _ _ _ _ _) as [[ks' c2]|]; simpl; [|done].
  destruct (if isFunction n then _ else _) as [left|]; simpl; [|done].
  destruct (shouldRewrite _ _ _ _ _) as [b|]; simpl; [|done].
  intros [= <- <-]. by destruct b.
Qed.

(** A second pass over the tree the first pass made, with the scopes of
    the first pass, changes nothing when [__package_globals__] is not in
    the owned set. *)
Lemma rewrite_twice_same_scopes sm ast (packageGlobalsSet : option (list string)) out :
  "__package_globals__" ∉ default [] packageGlobalsSet →
  rewriteFileForPackageGlobals sm ast packageGlobalsSet = Ok out →
  rewriteFileForPackageGlobals sm out packageGlobalsSet = Ok out.
Proof.
  unfold rewriteFileForPackageGlobals.
  destruct packageGlobalsSet as [[|x g]|]; simpl; [by intros _ [= <-]| |by intros _ [= <-]].
  intros Hfresh.
  destruct (walk sm (x :: g) None "" ast (acquire sm ast)) as [[r c]|] eqn:Hw;
    simpl; [|done].
  intros [= <-].
  assert (acquire sm r = acquire sm ast) as ->.
  { unfold acquire. by rewrite (walk_nid _ _ _ _ _ _ _ _ Hw). }
  rewrite (walk_idempotent_gen sm (x :: g) Hfresh ast None None "" _ r c); [done| |done].
  by left.
Qed.

(** *** Names bound in a function scope *)

Lemma scopedBy_eq P sm cs n :
  scopedBy P sm cs n ↔
  if isFunction n then
    ∃ sc, acquire sm n = Some sc ∧ P sc ∧ upper sc = Some cs
          ∧ Forall (λ k, scopedBy P sm sc k.2) (kids n)
  else Forall (λ k, scopedBy P sm cs k.2) (kids n).
Proof.
  assert (∀ c ks,
            (fix all (ks : list (string * node)) : Prop :=
               match ks with
               | [] => True
               | (_, k) :: ks' => scopedBy P sm c k ∧ all ks'
               end) ks ↔ Forall (λ k, scopedBy P sm c k.2) ks) as Hall.
  { intros c ks. induction ks as [|[p k] ks IH]; [by split|].
    rewrite Forall_cons, <- IH. done. }
  destruct n as [ty nm id ks]. cbn [scopedBy kids].
  destruct (isFunction _).
  - split; intros (sc & ? & ? & ? & H); exists sc; split_and!; try done; by apply Hall.
  - apply Hall.
Qed.

Lemma shouldRewrite_protected g sc pt prop n :
  protects sc (nname n) → is_Some pt →
  shouldRewrite g (Some sc) pt prop n = Ok false.
Proof.
  intros Hprot [pty ->]. unfold shouldRewrite.
  repeat (case_bool_decide; simpl; try done).
  all: destruct Hprot; done.
Qed.

Lemma shouldRewrite_total g sc pt prop n :
  is_Some pt → ∃ b, shouldRewrite g (Some sc) pt prop n = Ok b.
Proof.
  intros [pty ->]. unfold shouldRewrite.
  repeat (case_bool_decide; simpl; try by eexists).
Qed.

Lemma keeps_node x ty nm id ks ks' (b : bool) :
  (ty = "Identifier" → nm = x → b = false) →
  Forall2 (λ k k', k.1 = k'.1 ∧ keeps x k.2 k'.2) ks ks' →
  keeps x (Node ty nm id ks)
    (if b then rewritten (Node ty nm id ks') else Node ty nm id ks').
Proof.
  intros Hb Hks [|i path] n; simpl.
  - intros [= <-] Hty Hnm. simpl in *. rewrite (Hb Hty Hnm).
    eexists. split; [done|]. done.
  - destruct (ks !! i) as [[p k]|] eqn:Hk; [|done].
    intros Hn Hty Hnm.
    destruct (Forall2_lookup_l _ _ _ _ _ Hks Hk) as ([p' k'] & Hk' & _ & Hkeep).
    destruct (Hkeep path n Hn Hty Hnm) as (n' & Hn' & ?).
    exists n'. split; [|done].
    destruct b; simpl.
    + rewrite lookup_app_l by (by eapply lookup_lt_Some). by rewrite Hk'.
    + by rewrite Hk'.
Qed.

(** On well-nested scopes the walk of a subtree returns, in the scope it
    started in; where the scopes protect [x], it keeps every occurrence
    of [x]. *)
Lemma walk_scopedBy P sm g n :
  ∀ pt prop cs,
    scopedBy P sm cs n → P cs → is_Some pt →
    ∃ n', walk sm g pt prop n (Some cs) = Ok (n', Some cs)
          ∧ ∀ x, (∀ sc, P sc → protects sc x) → keeps x n n'.
Proof.
  induction n as [ty nm id ks IH] using node_ind'.
  intros pt prop cs Hsc Hcs Hpt.
  assert (∀ c, Forall (λ k, scopedBy P sm c k.2) ks → P c →
               ∃ ks', walkKids sm g ty ks (Some c) = Ok (ks', Some c)
                      ∧ ∀ x, (∀ sc, P sc → protects sc x) →
                             Forall2 (λ k k', k.1 = k'.1 ∧ keeps x k.2 k'.2) ks ks')
    as Hkids.
  { clear -IH. intros c Hall Hc.
    induction IH as [|[p k] ks Hk _ IHks]; simpl.
    - eexists. split; [done|]. intros; constructor.
    - apply Forall_cons in Hall as [Hk1 Hall]. simpl in Hk, Hk1.
      destruct (Hk (Some ty) p c Hk1 Hc) as (k' & Hw & Hkeep); [done|].
      rewrite Hw. simpl.
      destruct (IHks Hall) as (ks' & -> & Hkeeps). simpl.
      eexists. split; [done|]. intros x Hx. constructor; [|by apply Hkeeps].
      split; [done|]. by apply Hkeep. }
  apply scopedBy_eq in Hsc. rewrite walk_eq. cbn [ntype nname nid kids].
  destruct (isFunction (Node ty nm id ks)) eqn:Hfn.
  - destruct Hsc as (sc & -> & Hprot & Hup & Hall).
    destruct (Hkids sc Hall Hprot) as (ks' & -> & Hkeeps). simpl.
    rewrite Hup.
    assert (ty ≠ "Identifier") as Hty.
    { intros ->. by rewrite isFunction_Identifier in Hfn. }
    rewrite shouldRewrite_not_Identifier by done. simpl.
    eexists. split; [done|]. intros x Hx.
    apply (keeps_node x ty nm id ks ks' false); [done|by apply Hkeeps].
  - destruct (Hkids cs Hsc Hcs) as (ks' & -> & Hkeeps). simpl.
    destruct (shouldRewrite_total g cs pt prop (Node ty nm id ks') Hpt) as [b Hb].
    rewrite Hb. simpl. eexists. split; [done|]. intros x Hx.
    apply keeps_node; [|by apply Hkeeps]. intros -> ->.
    rewrite shouldRewrite_protected in Hb by (done || by apply Hx). congruence.
Qed.

Lemma walkKids_scopedBy P sm g pty ks cs :
  Forall (λ k, scopedBy P sm cs k.2) ks → P cs →
  ∃ ks', walkKids sm g pty ks (Some cs) = Ok (ks', Some cs)
         ∧ ∀ x, (∀ sc, P sc → protects sc x) →
                Forall2 (λ k k', k.1 = k'.1 ∧ keeps x k.2 k'.2) ks ks'.
Proof.
  intros Hall Hcs. induction Hall as [|[p k] ks Hk _ IHks]; simpl.
  - eexists. split; [done|]. intros; constructor.
  - simpl in Hk.
    destruct (walk_scopedBy P sm g k (Some pty) p cs Hk Hcs) as (k' & Hw & Hkeep);
      [done|].
    rewrite Hw. simpl.
    destruct IHks as (ks' & -> & Hkeeps). simpl.
    eexists. split; [done|]. intros x Hx. constructor; [|by apply Hkeeps].
    split; [done|]. by apply Hkeep.
Qed.

(** On a file whose functions are well nested under the scope of the
    program the rewrite returns. *)
Lemma rewriteFileForPackageGlobals_total sm ast packageGlobalsSet cs :
  isFunction ast = false → ntype ast ≠ "Identifier" →
  acquire sm ast = Some cs →
  Forall (λ k, nested sm cs k.2) (kids ast) →
  ∃ out, rewriteFileForPackageGlobals sm ast packageGlobalsSet = Ok out.
Proof.
  intros Hfn Hty Hacq Hall. unfold rewriteFileForPackageGlobals.
  destruct packageGlobalsSet as [[|y g]|]; [by eexists| |by eexists].
  rewrite walk_eq, Hfn, Hacq.
  destruct (walkKids_scopedBy (λ _, True) sm (y :: g) (ntype ast) (kids ast) cs
              Hall I) as (ks' & -> & _).
  simpl. rewrite shouldRewrite_not_Identifier by done. simpl. by eexists.
Qed.

Lemma walkKids_lookup sm g pty ks cs ks' cs' i p k :
  walkKids sm g pty ks cs = Ok (ks', cs') →
  ks !! i = Some (p, k) →
  ∃ c c' k', walk sm g (Some pty) p k c = Ok (k', c') ∧ ks' !! i = Some (p, k').
Proof.
  revert cs ks' i. induction ks as [|[p0 k0] ks IH]; intros cs ks' i; simpl; [done|].
  destruct (walk sm g (Some pty) p0 k0 cs) as [[k1 c1]|] eqn:Hw; simpl; [|done].
  destruct (walkKids sm g pty ks c1) as [[ks1 c2]|] eqn:Hws; simpl; [|done].
  intros [= <- <-]. destruct i as [|i]; simpl.
  - intros [= -> ->]. by exists cs, c1, k1.
  - intros Hi. by apply (IH _ _ _ Hws Hi).
Qed.

(** The subtree at a position of the output is the result of walking the
    subtree at that position of the input. *)
Lemma walk_subtree sm g t :
  ∀ pt prop cs t' cs' path n,
    walk sm g pt prop t cs = Ok (t', cs') →
    subtree_at path t = Some n →
    ∃ pt1 prop1 c1 n1 c1',
      walk sm g pt1 prop1 n c1 = Ok (n1, c1') ∧ subtree_at path t' = Some n1.
Proof.
  induction t as [ty nm id ks IH] using node_ind'.
  intros pt prop cs t' cs' [|i path] n Hw; simpl.
  - intros [= <-]. by exists pt, prop, cs, t', cs'.
  - destruct (ks !! i) as [[p k]|] eqn:Hk; [|done]. intros Hn.
    rewrite walk_eq in Hw. cbn [ntype nname nid kids] in Hw.
    destruct (walkKids _ _ _ _ _) as [[ks' c2]|] eqn:Hws; simpl in Hw; [|done].
    destruct (if isFunction (Node ty nm id ks) then popScope c2 else Ok c2)
      as [left|]; simpl in Hw; [|done].
    destruct (shouldRewrite _ _ _ _ _) as [b|]; simpl in Hw; [|done].
    injection Hw as <- <-.
    destruct (walkKids_lookup _ _ _ _ _ _ _ _ _ _ Hws Hk) as (c & c' & k' & Hwk & Hk').
    rewrite Forall_forall in IH.
    destruct (IH (p, k) (list_elem_of_lookup_2 _ _ _ Hk) _ _ _ _ _ _ _ Hwk Hn)
      as (pt1 & prop1 & c1 & n1 & c1' & Hw1 & Hn1).
    exists pt1, prop1, c1, n1, c1'. split; [done|].
    destruct b; simpl.
    + rewrite lookup_app_l by (by eapply lookup_lt_Some). by rewrite Hk'.
    + by rewrite Hk'.
Qed.


(** *** Names the scope around them protects *)








(** *** Rewriting the printed output again *)

Lemma reparsed_eq g sm sm2 t t2 :
  reparsed g sm sm2 t t2 ↔
  ntype t2 = ntype t
  ∧ (ntype t = "Identifier" → nname t2 = nname t)
  ∧ (isFunction t = true → coversO g (acquire sm t) (acquire sm2 t2))
  ∧ Forall2 (λ k k2, k2.1 = k.1 ∧ reparsed g sm sm2 k.2 k2.2) (kids t) (kids t2).
Proof.
  assert (∀ ks ks2,
            (fix all (ks ks2 : list (string * node)) : Prop :=
               match ks, ks2 with
               | [], [] => True
               | (p, k) :: ks', (p2, k2) :: ks2' =>
                   p2 = p ∧ reparsed g sm sm2 k k2 ∧ all ks' ks2'
               | _, _ => False
               end) ks ks2
            ↔ Forall2 (λ k k2, k2.1 = k.1 ∧ reparsed g sm sm2 k.2 k2.2) ks ks2)
    as Hall.
  { induction ks as [|[p k] ks IH]; intros [|[p2 k2] ks2].
    - split; [constructor|done].
    - split; [done|]. intros H. inversion H.
    - split; [done|]. intros H. inversion H.
    - rewrite IH. split.
      + intros (? & ? & ?). by constructor.
      + intros H. inversion H as [|? ? ? ? [? ?] ?]; subst. done. }
  destruct t as [ty nm id ks], t2 as [ty2 nm2 id2 ks2].
  cbn [reparsed ntype nname kids]. by rewrite Hall.
Qed.

Lemma covers_eq g s1 o2 :
  covers g s1 o2 ↔
  ∃ s2, o2 = Some s2
        ∧ (∀ x, x ∈ g → protects s1 x → protects s2 x)
        ∧ coversO g (upper s1) (upper s2).
Proof.
  destruct s1 as [st th up]. cbn [covers upper]. destruct o2 as [s2|].
  - split.
    + intros [H1 H2]. exists s2. split_and!; [done|done|]. by destruct up.
    + intros (? & [= <-] & H1 & H2). split; [done|]. by destruct up.
  - split; [done|]. by intros (? & ? & _).
Qed.

Lemma coversO_pop g c c2 left :
  coversO g c c2 → popScope c = Ok left →
  ∃ left2, popScope c2 = Ok left2 ∧ coversO g left left2.
Proof.
  destruct c as [s|]; [|done]. simpl. intros Hc [= <-].
  apply covers_eq in Hc as (s2 & -> & _ & Hup).
  by exists (upper s2).
Qed.

(** A node the first pass left alone is left alone by the second. *)
Lemma shouldRewrite_covers g c c2 pt prop n n2 :
  coversO g c c2 →
  ntype n2 = ntype n → (ntype n = "Identifier" → nname n2 = nname n) →
  shouldRewrite g c pt prop n = Ok false →
  shouldRewrite g c2 pt prop n2 = Ok false.
Proof.
  intros Hc Hty Hnm. unfold shouldRewrite. rewrite Hty.
  case_bool_decide as Hid; simpl; [|done]. rewrite (Hnm Hid).
  destruct pt as [pt|]; [|done].
  repeat (case_bool_decide; simpl; try done).
  all: destruct c as [s|]; [|done].
  all: simpl in Hc; apply covers_eq in Hc as (s2 & -> & Hprot & _).
  all: repeat (case_bool_decide; simpl; try done).
  all: intros _.
  all: try (exfalso; assert (protects s2 (nname n)) as [?|?]
              by (apply Hprot; [done|by left]); done).
  all: try (exfalso; assert (protects s2 (nname n)) as [?|?]
              by (apply Hprot; [done|by right]); done).
Qed.

Section Reparsed.
Variable sm sm2 : ScopeManager.
Variable g : list string.
Hypothesis namespace_fresh : "__package_globals__" ∉ g.

(** The object and the property of an access the first pass made. *)
Lemma walk_reparsed_object c2 o2 :
  reparsed g sm sm2 (identifier "__package_globals__") o2 →
  walk sm2 g (Some "MemberExpression") "object" o2 c2 = Ok (o2, c2).
Proof using namespace_fresh.
  rewrite reparsed_eq. intros (Hty & Hnm & _ & Hks).
  destruct o2 as [ty2 nm2 id2 ks2]. cbn [ntype nname kids identifier] in *.
  inversion Hks. subst. rewrite (Hnm eq_refl).
  rewrite walk_eq. simpl. unfold shouldRewrite. simpl.
  by rewrite (bool_decide_eq_false_2 _ namespace_fresh).
Qed.

Lemma walk_reparsed_property x c2 p2 :
  reparsed g sm sm2 (identifier x) p2 →
  walk sm2 g (Some "MemberExpression") "property" p2 c2 = Ok (p2, c2).
Proof.
  rewrite reparsed_eq. intros (Hty & Hnm & _ & Hks).
  destruct p2 as [ty2 nm2 id2 ks2]. cbn [ntype nname kids identifier] in *.
  inversion Hks. subst.
  rewrite walk_eq. simpl. unfold shouldRewrite. by simpl.
Qed.

(** The second pass leaves the tree of the second parse as it is. *)
Lemma walk_reparsed n :
  ∀ pt pt' prop cs out cs' n2 cs2,
    compat pt pt' →
    walk sm g pt prop n cs = Ok (out, cs') →
    reparsed g sm sm2 out n2 →
    coversO g cs cs2 →
    ∃ cs2', walk sm2 g pt' prop n2 cs2 = Ok (n2, cs2') ∧ coversO g cs' cs2'.
Proof using namespace_fresh.
  induction n as [ty nm id ks IH] using node_ind'.
  intros pt pt' prop cs out cs' n2 cs2 Hcompat.
  rewrite walk_eq. cbn [ntype nname nid kids].
  set (fn := isFunction (Node ty nm id ks)).
  set (entered := if fn then acquire sm (Node ty nm id ks) else cs).
  assert (∀ pty pty' c ks' c' ks2 c2,
            compat (Some pty) (Some pty') →
            walkKids sm g pty ks c = Ok (ks', c') →
            Forall2 (λ k k2, k2.1 = k.1 ∧ reparsed g sm sm2 k.2 k2.2) ks' ks2 →
            coversO g c c2 →
            ∃ c2', walkKids sm2 g pty' ks2 c2 = Ok (ks2, c2')
                   ∧ coversO g c' c2') as Hkids.
  { clear -IH. induction IH as [|[p k] ks Hk _ IHks];
      intros pty pty' c ks' c' ks2 c2 Hc; simpl.
    - intros [= <- <-] Hall Hcov. inversion Hall. subst. by exists c2.
    - destruct (walk sm g (Some pty) p k c) as [[k1 c1]|] eqn:Hw; simpl; [|done].
      destruct (walkKids sm g pty ks c1) as [[ks1 c1']|] eqn:Hws; simpl; [|done].
      intros [= <- <-] Hall Hcov.
      inversion Hall as [|? [p2 k2] ? ks2' [Hp Hr] Hrest]; subst. simpl in *.
      subst p2.
      destruct (Hk _ _ _ _ _ _ _ _ Hc Hw Hr Hcov) as (c3 & Hw2 & Hcov3).
      destruct (IHks _ _ _ _ _ _ _ Hc Hws Hrest Hcov3) as (c4 & Hws2 & Hcov4).
      exists c4. simpl. rewrite Hw2. simpl. rewrite Hws2. simpl. done. }
  destruct (walkKids sm g ty ks entered) as [[ks' c1']|] eqn:Hw; simpl; [|done].
  destruct (if fn then popScope c1' else Ok c1') as [left|] eqn:Hleft; simpl; [|done].
  destruct (shouldRewrite g left pt prop (Node ty nm id ks')) as [b|] eqn:Hb;
    simpl; [|done].
  intros [= <- <-] Hre Hcov. destruct b.
  - (* rewritten in the first pass: a member access in the second *)
    apply shouldRewrite_true in Hb as [Hty _]. simpl in Hty. subst ty.
    assert (fn = false) as Hfn by done.
    unfold entered in Hw. rewrite Hfn in Hw, Hleft. injection Hleft as <-.
    apply reparsed_eq in Hre as (Hty2 & _ & _ & Hks2).
    destruct n2 as [ty2 nm2 id2 ks2]. unfold rewritten in *.
    cbn [ntype nname nid kids] in *. subst ty2.
    apply Forall2_app_inv_l in Hks2 as (ks2a & ks2b & Hka & Hkb & ->).
    inversion Hkb as [|? [po o2] ? ? [Hpo Ho] Hkb']; subst.
    inversion Hkb' as [|? [pp p2] ? ? [Hpp Hp] Hkb'']; subst.
    inversion Hkb''; subst. simpl in Hpo, Hpp, Ho, Hp. subst po pp.
    destruct (Hkids "Identifier" "MemberExpression" cs ks' c1' ks2a cs2)
      as (c3 & Hw2 & Hcov3); [by right|done|done|done|].
    exists c3. split; [|done].
    rewrite walk_eq. cbn [ntype nname nid kids].
    assert (∀ nm id ks, isFunction (Node "MemberExpression" nm id ks) = false)
      as HME by done.
    rewrite !HME. rewrite walkKids_app, Hw2. cbn [bind fst snd walkKids].
    rewrite (walk_reparsed_object _ _ Ho). cbn [bind fst snd].
    rewrite (walk_reparsed_property _ _ _ Hp). cbn [bind fst snd].
    rewrite shouldRewrite_not_Identifier by done. done.
  - (* left alone in the first pass *)
    apply reparsed_eq in Hre as (Hty2 & Hnm2 & Hfn2 & Hks2).
    destruct n2 as [ty2 nm2 id2 ks2]. cbn [ntype nname nid kids] in *. subst ty2.
    rewrite walk_eq. cbn [ntype nname nid kids].
    change (isFunction (Node ty nm2 id2 ks2)) with fn.
    change (isFunction (Node ty nm id ks')) with fn in Hfn2.
    change (acquire sm (Node ty nm id ks'))
      with (acquire sm (Node ty nm id ks)) in Hfn2.
    set (entered2 := if fn then acquire sm2 (Node ty nm2 id2 ks2) else cs2).
    assert (coversO g entered entered2) as Hent.
    { unfold entered, entered2. destruct fn; [by apply Hfn2|done]. }
    destruct (Hkids ty ty entered ks' c1' ks2 entered2)
      as (c3 & Hw2 & Hcov3); [by left|done|done|done|].
    rewrite Hw2. cbn [bind fst snd].
    assert (∃ left2, (if fn then popScope c3 else Ok c3) = Ok left2
                     ∧ coversO g left left2) as (left2 & Hleft2 & Hcovl).
    { destruct fn.
      - by apply (coversO_pop g c1').
      - injection Hleft as <-. by exists c3. }
    rewrite Hleft2. cbn [bind].
    exists left2. split; [|done].
    rewrite (shouldRewrite_covers g left left2 pt' prop (Node ty nm id ks')
               (Node ty nm2 id2 ks2) Hcovl); [done|done|done|].
    by apply (shouldRewrite_false_compat _ _ pt).
Qed.

End Reparsed.

Lemma walk_reparsed_root sm g pt prop n cs out cs' :
  walk sm g pt prop n cs = Ok (out, cs') → acquire sm out = acquire sm n.
Proof. intros Hw. unfold acquire. by rewrite (walk_nid _ _ _ _ _ _ _ _ Hw). Qed.

(** C5, as the code has it.  Let the synthetic namespace identifier
    [__package_globals__] not be in the owned set, let the output of the
    first call parse again, to a tree [ast2] of the shape of the tree the
    first call printed, and let the scopes of the second analysis protect
    the owned names that the scopes of the first protected.  Then the
    second call rewrites nothing: what it prints is the tree it parsed.
    The identifiers the first call rewrote are member accesses now, whose
    object is not owned and whose property is skipped, and every other
    node is decided as before. *)
Theorem rewrite_twice_reparsed sm sm2 ast ast2
    (packageGlobalsSet : option (list string)) out :
  "__package_globals__" ∉ default [] packageGlobalsSet →
  rewriteFileForPackageGlobals sm ast packageGlobalsSet = Ok out →
  reparsed (default [] packageGlobalsSet) sm sm2 out ast2 →
  coversO (default [] packageGlobalsSet) (acquire sm ast) (acquire sm2 ast2) →
  rewriteFileForPackageGlobals sm2 ast2 packageGlobalsSet = Ok ast2.
Proof.
  unfold rewriteFileForPackageGlobals.
  destruct packageGlobalsSet as [[|x g]|]; simpl; [done| |done].
  intros Hfresh.
  destruct (walk sm (x :: g) None "" ast (acquire sm ast)) as [[r c]|] eqn:Hw;
    simpl; [|done].
  intros [= <-] Hre Hcov.
  destruct (walk_reparsed sm sm2 (x :: g) Hfresh ast None None ""
              (acquire sm ast) r c ast2 (acquire sm2 ast2))
    as (c2 & -> & _); try done.
  by left.
Qed.

(** The shape of a tree, and the owned names a scope protects, on
    examples. *)
Ltac no_member H :=
  repeat (apply elem_of_cons in H as [H|H]; [discriminate|]);
  by apply elem_of_nil in H.

Ltac solve_covers :=
  repeat match goal with
         | |- True => exact I
         | |- _ ∧ _ => split
         | |- ∀ x, x ∈ [] → protects _ x → protects _ x =>
             let x := fresh "x" in
             let Hx := fresh "Hx" in
             intros x Hx; by apply elem_of_nil in Hx
         | |- ∀ x, x ∈ _ → protects _ x → protects _ x =>
             let x := fresh "x" in
             let Hx := fresh "Hx" in
             let Hp := fresh "Hp" in
             intros x Hx Hp; apply list_elem_of_singleton in Hx; subst x;
             first [ destruct Hp as [Hp|Hp]; simpl in Hp; no_member Hp
                   | left; simpl; repeat first [by left | right]
                   | right; simpl; repeat first [by left | right] ]
         end.

Ltac reparsed_node :=
  apply reparsed_eq; split; [reflexivity|];
  split; [first [ intros _; reflexivity
                | let H := fresh in intros H; vm_compute in H; discriminate H ]|];
  split; [let H := fresh in
          intros H;
          first [ vm_compute in H; discriminate H
                | clear H; simpl; solve_covers ]|];
  lazymatch goal with
  | |- Forall2 ?R ?a ?b =>
      let a' := eval hnf in a in
      let b' := eval hnf in b in
      change (Forall2 R a' b')
  end.

Ltac solve_reparsed :=
  lazymatch goal with
  | |- reparsed _ _ _ _ _ => reparsed_node; solve_reparsed
  | |- Forall2 _ [] [] => constructor
  | |- Forall2 _ (_ :: _) (_ :: _) =>
      constructor; [split; [reflexivity|cbn [snd]; solve_reparsed]|solve_reparsed]
  end.

(** C5, counterexample.  With [__package_globals__] in the owned set the
    first pass turns [__package_globals__] into
    [__package_globals__.__package_globals__] and the second pass rewrites
    the object of that access again, on the tree of the first pass as
    well as on the tree of a second parse. *)
Lemma rewrite_twice_differs :
  ∃ once twice,
    rewriteFileForPackageGlobals namespaceScopes namespaceFile
      (Some ["__package_globals__"]) = Ok once
    ∧ rewriteFileForPackageGlobals namespaceScopes once
        (Some ["__package_globals__"]) = Ok twice
    ∧ twice ≠ once
    ∧ reparsed ["__package_globals__"] namespaceScopes namespaceReparsedScopes
        once namespaceReparsed
    ∧ coversO ["__package_globals__"] (acquire namespaceScopes namespaceFile)
        (acquire namespaceReparsedScopes namespaceReparsed)
    ∧ ∃ again,
        rewriteFileForPackageGlobals namespaceReparsedScopes namespaceReparsed
          (Some ["__package_globals__"]) = Ok again
        ∧ again ≠ namespaceReparsed.
Proof.
  eexists. eexists. split; [vm_compute; reflexivity|].
  split; [vm_compute; reflexivity|]. split; [discriminate|].
  split; [solve_reparsed|]. split.
  { simpl. solve_covers. }
  eexists. split; [vm_compute; reflexivity|].
  intros H. vm_compute in H. discriminate.
Qed.

(** The parameter of a catch clause that is named like an owned global
    is rewritten: the output has [__package_globals__.Foo] in the place
    of the parameter, which is no program for the parser of a second
    call. *)
Lemma rewrite_catch_parameter :
  subtree_at [0; 1; 0] catchFile = Some (ident "Foo" 4)
  ∧ ∃ out,
      rewriteFileForPackageGlobals catchScopes catchFile (Some ["Foo"]) = Ok out
      ∧ ∃ clause param,
          subtree_at [0; 1] out = Some clause
          ∧ ntype clause = "CatchClause"
          ∧ kids clause !! 0%nat = Some ("param", param)
          ∧ isGlobalsAccess "Foo" param = true.
Proof.
  split; [reflexivity|]. eexists. split; [vm_compute; reflexivity|].
  eexists. eexists. split_and!; reflexivity.
Qed.

(** Where a function lies in a block the walk goes on in the scope of
    the block, and a second analysis need not protect what the first
    protected: in [labelFile] the use of [Foo] after the block is
    rewritten, which leaves no reference to [Foo] in [h]; the label
    [Foo], kept by the first pass because of that reference, is
    rewritten by the second. *)
Lemma rewrite_twice_uncovered :
  ("__package_globals__" ∉ ["Foo"])
  ∧ ∃ once,
      rewriteFileForPackageGlobals labelScopes labelFile (Some ["Foo"]) = Ok once
      ∧ reparsed [] labelScopes labelReparsedScopes once labelReparsed
      ∧ subtree_at [0; 2; 0; 1; 0; 1] once = Some (ident "Foo" 12)
      ∧ subtree_at [0; 2; 0; 1; 0; 1] labelReparsed = Some (ident "Foo" 112)
      ∧ protects labelHScope "Foo"
      ∧ ¬ protects labelReparsedHScope "Foo"
      ∧ ∃ twice,
          rewriteFileForPackageGlobals labelReparsedScopes labelReparsed
            (Some ["Foo"]) = Ok twice
          ∧ twice ≠ labelReparsed
          ∧ ∃ n', subtree_at [0; 2; 0; 1; 0; 1] twice = Some n'
                  ∧ isGlobalsAccess "Foo" n' = true.
Proof.
  split.
  { intros H. no_member H. }
  eexists. split; [vm_compute; reflexivity|].
  split; [solve_reparsed|].
  split; [reflexivity|]. split; [reflexivity|].
  split; [right; right; right; left|].
  split.
  { intros [H|H]; simpl in H; no_member H. }
  eexists. split; [vm_compute; reflexivity|].
  split; [intros H; vm_compute in H; discriminate|].
  eexists. split; reflexivity.
Qed.

(** C5 on the file with the block-scoped [let]: the tree of its output,
    parsed again, is left as it is by a second call. *)
Lemma rewrite_twice_reparsed_witness :
  ("__package_globals__" ∉ default [] (Some ["Foo"]))
  ∧ ∃ out,
      rewriteFileForPackageGlobals blockLetScopes blockLetFile (Some ["Foo"])
      = Ok out
      ∧ reparsed ["Foo"] blockLetScopes blockLetReparsedScopes out blockLetReparsed
      ∧ coversO ["Foo"] (acquire blockLetScopes blockLetFile)
          (acquire blockLetReparsedScopes blockLetReparsed)
      ∧ rewriteFileForPackageGlobals blockLetReparsedScopes blockLetReparsed
          (Some ["Foo"]) = Ok blockLetReparsed.
Proof.
  assert ("__package_globals__" ∉ (default [] (Some ["Foo"]))) as Hfresh.
  { simpl. intros H. no_member H. }
  split; [done|].
  eexists. split; [vm_compute; reflexivity|].
  match goal with
  | |- reparsed ?g ?a ?b ?o ?t ∧ _ =>
      assert (reparsed g a b o t) as Hre by solve_reparsed
  end.
  assert (coversO ["Foo"] (acquire blockLetScopes blockLetFile)
            (acquire blockLetReparsedScopes blockLetReparsed)) as Hcov.
  { simpl. solve_covers. }
  split; [exact Hre|]. split; [exact Hcov|].
  eapply (rewrite_twice_reparsed blockLetScopes blockLetReparsedScopes blockLetFile
            blockLetReparsed (Some ["Foo"]) _ Hfresh); [|exact Hre|exact Hcov].
  vm_compute. reflexivity.
Defined.

End GlobalsFacts.

(** ** The registry: one load and one write per unit *)

Module RegistryFacts.
Import Registry Examples.

Lemma filter_insert_length (P : Task → bool) (l : list Task) i t t' :
  l !! i = Some t →
  List.length (List.filter P (<[i := t']> l)) + (if P t then 1 else 0)
  = List.length (List.filter P l) + (if P t' then 1 else 0).
Proof.
  revert i. induction l as [|x l IH]; intros [|i]; simpl; try done.
  - intros [= ->]. destruct (P t), (P t'); simpl; lia.
  - intros Hi. specialize (IH i Hi). destruct (P x); simpl; lia.
Qed.

Lemma elem_of_insert_task (ts : list Task) i t' x :
  x ∈ <[i := t']> ts → x = t' ∨ x ∈ ts.
Proof.
  revert i. induction ts as [|y ts IH]; intros [|i]; simpl.
  - by right.
  - by right.
  - intros [->|?]%elem_of_cons; [by left|right; by right].
  - intros [->|H]%elem_of_cons; [right; left|].
    destruct (IH _ H); [by left|right; by right].
Qed.

Lemma lookup_snoc_ne {A} (l : list A) x u :
  u ≠ List.length l → (l ++ [x]) !! u = l !! u.
Proof.
  intros Hu. destruct (decide (u < List.length l)) as [Hlt|Hge].
  - by apply lookup_app_l.
  - rewrite (lookup_ge_None_2 l) by lia. apply lookup_ge_None_2.
    rewrite length_app. simpl. lia.
Qed.

Lemma lookup_snoc_eq {A} (l : list A) x : (l ++ [x]) !! List.length l = Some x.
Proof. by rewrite list_lookup_middle. Qed.

Ltac case_tasks :=
  unfold isLoader, isWorking, holdsUnit, threw, returned, creates, registers in *;
  simpl in *;
  repeat (case_bool_decide; simplify_eq; simpl in * ).

Ltac use_insert ts i t t' Hi u :=
  pose proof (filter_insert_length (isLoader u) ts i t t' Hi);
  pose proof (filter_insert_length (isWorking u) ts i t t' Hi);
  pose proof (filter_insert_length (threw u) ts i t t' Hi);
  pose proof (filter_insert_length (returned u) ts i t t' Hi);
  pose proof (filter_insert_length (holdsUnit u) ts i t t' Hi).

Ltac open_inv H :=
  destruct H as [Hcr Hls Hlf Hld Hfa Hou Hws Hwf Hwr Hwl Hho Hts Hwg Hwa];
  unfold count, countP, tcount, flag in *; simpl in *.

Ltac split_inv :=
  split; unfold count, countP, tcount, flag; simpl;
  rewrite ?List.filter_app, ?length_app; simpl.

Lemma inv_initial u : Inv initial u.
Proof.
  split_inv; try done.
  - intros t Ht. by apply elem_of_nil in Ht.
  - intros Ht. by apply elem_of_nil in Ht.
  - intros Ht. by apply elem_of_nil in Ht.
Qed.

Lemma invName_initial name : InvName initial name.
Proof. split; simpl; [done|]. intros u. by rewrite lookup_empty. Qed.

(** A unit is made: a request for a name that is not in the registry. *)
Lemma inv_new us pm ts tr name t u :
  (t = EnsureLoading (List.length us) false
   ∨ t = ConvertLoading (List.length us) false) →
  Inv (mkWorld us pm ts tr) u →
  Inv (mkWorld (us ++ [newUnit name]) (<[name := List.length us]> pm)
         (ts ++ [t])
         (tr ++ [Registered name (List.length us); LoadStarted (List.length us)]))
      u.
Proof.
  intros Ht H. open_inv H.
  destruct (decide (u = List.length us)) as [->|Hne].
  - rewrite (lookup_ge_None_2 us (List.length us)) in * by lia.
    split_inv; rewrite ?lookup_snoc_eq; simpl;
      destruct Ht as [-> | ->]; case_tasks; try lia.
    all: try (intros ? _ _; by eexists).
    all: try (intros [Hin|?%list_elem_of_singleton]%elem_of_app; [|done]).
    all: try (destruct (Hts _ Hin eq_refl) as [? ?]; done).
  - split_inv; rewrite ?lookup_snoc_ne by done; simpl;
      destruct Ht as [-> | ->]; case_tasks; try lia.
    all: try (intros t [Hin|Hin%list_elem_of_singleton]%elem_of_app;
                [by apply Hts|subst t; simpl; intros ?; simplify_eq]).
    all: try (intros [Hin|?%list_elem_of_singleton]%elem_of_app;
                [by (apply Hwg || apply Hwa)|done]).
Qed.

(** A call is added that makes no unit. *)
Lemma inv_call us pm ts tr t u :
  (∀ v, taskUnit t = Some v → is_Some (us !! v)) →
  isLoader u t = false → threw u t = false → returned u t = false →
  isWorking u t = false → holdsUnit u t = false →
  t ≠ WriteWaiting u → t ≠ WriteReturned u false →
  Inv (mkWorld us pm ts tr) u → Inv (mkWorld us pm (ts ++ [t]) tr) u.
Proof.
  intros Hex H1 H2 H3 H4 H5 H6 H7 H. open_inv H.
  split_inv; rewrite ?H1, ?H2, ?H3, ?H4, ?H5; simpl; try lia; try done.
  - intros t' [Hin|Hin%list_elem_of_singleton]%elem_of_app; [by apply Hts|subst t'].
    apply Hex.
  - intros [Hin|?%list_elem_of_singleton]%elem_of_app; [by apply Hwg|done].
  - intros [Hin|?%list_elem_of_singleton]%elem_of_app; [by apply Hwa|done].
Qed.

Lemma inv_ensure name w u : Inv w u → Inv (ensurePackage name w) u.
Proof.
  destruct w as [us pm ts tr]. intros H. unfold ensurePackage. simpl.
  destruct (pm !! name) as [v|] eqn:Hv.
  - by apply inv_call.
  - apply inv_new; [by left|done].
Qed.

Lemma inv_convert name w u : Inv w u → Inv (convertPackage name w) u.
Proof.
  destruct w as [us pm ts tr]. intros H. unfold convertPackage. simpl.
  case_bool_decide; [done|].
  destruct (pm !! name) as [v|] eqn:Hv; [done|].
  apply inv_new; [by right|done].
Qed.

Lemma inv_write name w w' u :
  InvName w name → writeToNpmModule name w = Some w' → Inv w u → Inv w' u.
Proof.
  destruct w as [us pm ts tr]. unfold writeToNpmModule. simpl.
  intros [_ Hst]. simpl in Hst.
  destruct (pm !! name) as [v|] eqn:Hv; [|done].
  intros [= <-] H. apply inv_call; try done; intros ? [= <-]; by apply Hst.
Qed.

(** What a call going on does to the signals of its unit. *)
Lemma lookup_insert_unit (us : list Unit) v x u unit0 :
  us !! v = Some unit0 →
  <[v := x]> us !! u = if decide (u = v) then Some x else us !! u.
Proof.
  intros Hv. case_decide as Hu.
  - subst u. apply list_lookup_insert_eq. by eapply lookup_lt_Some.
  - by apply list_lookup_insert_ne.
Qed.

Ltac finish Hts Hwg Hwa :=
  try lia; try done;
  try (repeat match goal with b : bool |- _ => destruct b end;
       simpl in *; lia);
  try (intros ? _ _; by eexists);
  try (intros ? [->|?]%elem_of_insert_task; [done|by apply Hts]);
  try (intros ? [->|?]%elem_of_insert_task; [simpl; intros ?; simplify_eq|by apply Hts]);
  try (intros [?|?]%elem_of_insert_task;
         [simplify_eq; try done; try lia|by (apply Hwg || apply Hwa)]).

Ltac step_case Hv u v Hts Hwg Hwa :=
  destruct (decide (u = v)) as [->|Hne];
  [ rewrite ?Hv in *;
    split_inv; rewrite ?(lookup_insert_unit _ _ _ _ _ Hv), ?Hv; simpl;
      rewrite ?decide_True by done; simpl; case_tasks;
      finish Hts Hwg Hwa
  | split_inv; rewrite ?(lookup_insert_unit _ _ _ _ _ Hv); simpl;
      rewrite ?decide_False by done; simpl; case_tasks;
      finish Hts Hwg Hwa ].

Lemma inv_resume i w w' u : resume i w = Some w' → Inv w u → Inv w' u.
Proof.
  destruct w as [us pm ts tr]. unfold resume. simpl.
  destruct (ts !! i) as [t|] eqn:Hi; [|done].
  destruct t as [v [|]|v|n|v|v [|]|v|v|v|v|v b]; try done;
    (destruct (us !! v) as [[nm ul ua uw]|] eqn:Hv; simpl; [|done]).
  - (* the load of an ensured unit ends *)
    intros [= <-] H. open_inv H.
    use_insert ts i (EnsureLoading v true) (EnsureReturned v) Hi u.
    step_case Hv u v Hts Hwg Hwa.
  - (* the load of a converted unit ends *)
    intros [= <-] H. open_inv H.
    use_insert ts i (ConvertLoading v true) (WriteCalled v) Hi u.
    step_case Hv u v Hts Hwg Hwa.
  - (* a write call finds the unit loaded *)
    destruct ul; [|done].
    destruct ua.
    + intros [= <-] H. open_inv H.
      use_insert ts i (WriteCalled v) (WriteWaiting v) Hi u.
      step_case Hv u v Hts Hwg Hwa.
    + intros [= <-] H. open_inv H.
      use_insert ts i (WriteCalled v) (WriteWorking v) Hi u.
      step_case Hv u v Hts Hwg Hwa.
  - (* the write ends *)
    intros [= <-] H. open_inv H.
    use_insert ts i (WriteWorking v) (WriteReturned v true) Hi u.
    step_case Hv u v Hts Hwg Hwa.
  - (* a waiting write call is woken *)
    destruct uw; [|done].
    intros [= <-] H. open_inv H.
    use_insert ts i (WriteWaiting v) (WriteReturned v false) Hi u.
    step_case Hv u v Hts Hwg Hwa.
Qed.

Lemma inv_describe i name stored w w' u :
  describe i name stored w = Some w' → Inv w u → Inv w' u.
Proof.
  destruct w as [us pm ts tr]. unfold describe. simpl.
  destruct (ts !! i) as [t|] eqn:Hi; [|done].
  destruct t as [v [|]|v|n|v|v [|]|v|v|v|v|v b]; try done;
    (destruct (us !! v) as [[nm ul ua uw]|] eqn:Hv; simpl; [|done]).
  - intros [= <-] H. open_inv H.
    use_insert ts i (EnsureLoading v false) (EnsureLoading v true) Hi u.
    destruct stored; step_case Hv u v Hts Hwg Hwa.
  - intros [= <-] H. open_inv H.
    use_insert ts i (ConvertLoading v false) (ConvertLoading v true) Hi u.
    destruct stored; step_case Hv u v Hts Hwg Hwa.
Qed.

Lemma inv_fail i w w' u : fail i w = Some w' → Inv w u → Inv w' u.
Proof.
  destruct w as [us pm ts tr]. unfold fail. simpl.
  destruct (ts !! i) as [t|] eqn:Hi; [|done].
  destruct t as [v d|v|n|v|v d|v|v|v|v|v b]; try done;
    (destruct (us !! v) as [[nm ul ua uw]|] eqn:Hv; simpl; [|done]).
  - intros [= <-] H. open_inv H.
    use_insert ts i (EnsureLoading v d) (EnsureThrew v) Hi u.
    step_case Hv u v Hts Hwg Hwa.
  - intros [= <-] H. open_inv H.
    use_insert ts i (ConvertLoading v d) (ConvertThrew v) Hi u.
    step_case Hv u v Hts Hwg Hwa.
Qed.

(** *** The registry, name by name *)

Lemma invName_new us pm ts tr t name' name :
  pm !! name' = None →
  InvName (mkWorld us pm ts tr) name →
  InvName (mkWorld (us ++ [newUnit name']) (<[name' := List.length us]> pm)
             (ts ++ [t])
             (tr ++ [Registered name' (List.length us);
                     LoadStarted (List.length us)]))
          name.
Proof.
  intros Hnew [Hreg Hst]. unfold countP in *. simpl in *.
  destruct (decide (name = name')) as [->|Hne].
  - rewrite Hnew in Hreg.
    split; unfold countP; simpl;
      rewrite ?List.filter_app, ?length_app, ?lookup_insert_eq; simpl.
    + rewrite bool_decide_eq_true_2 by done. simpl. lia.
    + intros u [= <-]. rewrite lookup_snoc_eq. by eexists.
  - split; unfold countP; simpl;
      rewrite ?List.filter_app, ?length_app, ?lookup_insert_ne by done; simpl.
    + rewrite bool_decide_eq_false_2 by done. simpl. lia.
    + intros u Hu. destruct (Hst u Hu) as [x Hx].
      exists x. by apply lookup_app_l_Some.
Qed.

Lemma invName_ensure name' w name : InvName w name → InvName (ensurePackage name' w) name.
Proof.
  destruct w as [us pm ts tr]. intros H. unfold ensurePackage. simpl.
  destruct (pm !! name') as [v|] eqn:Hv.
  - destruct H as [Hreg Hst]. by split.
  - by apply invName_new.
Qed.

Lemma invName_convert name' w name :
  InvName w name → InvName (convertPackage name' w) name.
Proof.
  destruct w as [us pm ts tr]. intros H. unfold convertPackage. simpl.
  case_bool_decide; [done|].
  destruct (pm !! name') as [v|] eqn:Hv; [done|].
  by apply invName_new.
Qed.

Lemma invName_write name' w w' name :
  writeToNpmModule name' w = Some w' → InvName w name → InvName w' name.
Proof.
  destruct w as [us pm ts tr]. unfold writeToNpmModule. simpl.
  destruct (pm !! name') as [v|]; [|done].
  intros [= <-] [Hreg Hst]. by split.
Qed.

(** A call going on changes the signals of a unit of the store and adds
    no request to the trace. *)
Lemma invName_update us pm ts ts' tr es v x unit0 name :
  us !! v = Some unit0 →
  List.filter (registers name) es = [] →
  InvName (mkWorld us pm ts tr) name →
  InvName (mkWorld (<[v := x]> us) pm ts' (tr ++ es)) name.
Proof.
  intros Hv Hes [Hreg Hst]. unfold countP in *. simpl in *.
  split; unfold countP; simpl.
  - rewrite List.filter_app, length_app, Hes. simpl. lia.
  - intros u Hu. rewrite (lookup_insert_unit _ _ _ _ _ Hv).
    case_decide; [by eexists|by apply Hst].
Qed.

Lemma invName_same us pm ts ts' tr name :
  InvName (mkWorld us pm ts tr) name → InvName (mkWorld us pm ts' tr) name.
Proof. intros [Hreg Hst]. by split. Qed.

Lemma invName_resume i w w' name :
  resume i w = Some w' → InvName w name → InvName w' name.
Proof.
  destruct w as [us pm ts tr]. unfold resume. simpl.
  destruct (ts !! i) as [t|] eqn:Hi; [|done].
  destruct t as [v [|]|v|n|v|v [|]|v|v|v|v|v b]; try done;
    (destruct (us !! v) as [unit0|] eqn:Hv; simpl; [|done]).
  - intros [= <-]. by apply (invName_update _ _ _ _ _ _ _ _ unit0).
  - intros [= <-]. by apply (invName_update _ _ _ _ _ _ _ _ unit0).
  - destruct (loaded unit0); [|done]. destruct (alreadyWritten unit0).
    + intros [= <-]. apply invName_same.
    + intros [= <-]. by apply (invName_update _ _ _ _ _ _ _ _ unit0).
  - intros [= <-]. by apply (invName_update _ _ _ _ _ _ _ _ unit0).
  - destruct (written unit0); [|done]. intros [= <-]. apply invName_same.
Qed.

Lemma invName_fail i w w' name :
  fail i w = Some w' → InvName w name → InvName w' name.
Proof.
  destruct w as [us pm ts tr]. unfold fail. simpl.
  destruct (ts !! i) as [t|] eqn:Hi; [|done].
  destruct t as [v d|v|n|v|v d|v|v|v|v|v b]; try done;
    (destruct (us !! v) as [unit0|] eqn:Hv; simpl; [|done]).
  - intros [= <-]. by apply (invName_update _ _ _ _ _ _ _ _ unit0).
  - intros [= <-]. by apply (invName_update _ _ _ _ _ _ _ _ unit0).
Qed.

(** The load stores its unit under the name it has now: the name is in
    the registry from then on, with a unit of the store. *)
Lemma invName_describe i nm stored w w' name :
  describe i nm stored w = Some w' → InvName w name → InvName w' name.
Proof.
  destruct w as [us pm ts tr]. unfold describe. simpl.
  destruct (ts !! i) as [t|] eqn:Hi; [|done].
  assert (∀ v t', us !! v = Some (default (newUnit "") (us !! v)) →
                  InvName (mkWorld us pm ts tr) name →
                  ∀ name',
                  InvName (mkWorld (<[v := setName name' (default (newUnit "") (us !! v))]> us)
                             (if stored then <[name' := v]> pm else pm)
                             (<[i := t']> ts)
                             (tr ++ (if stored then [Stored name' v] else [])))
                          name) as Hgo.
  { intros v t' Hv [Hreg Hst] name'. unfold countP in *. simpl in *.
    split; unfold countP; simpl.
    - rewrite List.filter_app, length_app.
      destruct stored; simpl; [|lia].
      destruct (decide (name = name')) as [->|Hne].
      + rewrite lookup_insert_eq. destruct (pm !! name'); lia.
      + rewrite lookup_insert_ne by done. lia.
    - intros u. rewrite (lookup_insert_unit _ _ _ _ _ Hv).
      destruct stored.
      + destruct (decide (name = name')) as [->|Hne].
        * rewrite lookup_insert_eq. intros [= <-].
          rewrite decide_True by done. by eexists.
        * rewrite lookup_insert_ne by done. intros Hu.
          case_decide; [by eexists|by apply Hst].
      + intros Hu. case_decide; [by eexists|by apply Hst]. }
  destruct t as [v [|]|v|n|v|v [|]|v|v|v|v|v b]; try done;
    (destruct (us !! v) as [unit0|] eqn:Hv; simpl; [|done]).
  - intros [= <-] H. specialize (Hgo v (EnsureLoading v true)).
    rewrite Hv in Hgo. simpl in Hgo. by apply Hgo.
  - intros [= <-] H. specialize (Hgo v (ConvertLoading v true)).
    rewrite Hv in Hgo. simpl in Hgo. by apply Hgo.
Qed.

(** *** Every state the schedule can reach *)

Lemma inv_step w w' :
  step w w' →
  (∀ u, Inv w u) ∧ (∀ name, InvName w name) →
  (∀ u, Inv w' u) ∧ (∀ name, InvName w' name).
Proof.
  intros [[n|n|n|i nm stored|i|i] Ha] [Hu Hn]; simpl in Ha.
  - injection Ha as <-. split; intros; [by apply inv_ensure|by apply invName_ensure].
  - injection Ha as <-. split; intros; [by apply inv_convert|by apply invName_convert].
  - split; intros; [by apply (inv_write n w)|by apply (invName_write n w)].
  - split; intros; [by apply (inv_describe i nm stored w)
                   |by apply (invName_describe i nm stored w)].
  - split; intros; [by apply (inv_fail i w)|by apply (invName_fail i w)].
  - split; intros; [by apply (inv_resume i w)|by apply (invName_resume i w)].
Qed.

Lemma inv_reachable w :
  reachable w → (∀ u, Inv w u) ∧ (∀ name, InvName w name).
Proof.
  induction 1 as [|w w' _ IH Hstep].
  - split; intros; [apply inv_initial|apply invName_initial].
  - by eapply inv_step.
Qed.

Lemma run_reachable actions w w' :
  reachable w → run actions w = Some w' → reachable w'.
Proof.
  revert w. induction actions as [|a actions IH]; intros w Hw; simpl.
  - by intros [= <-].
  - destruct (perform a w) as [w1|] eqn:Ha; simpl; [|done].
    apply IH. eapply reachable_step; [done|by exists a].
Qed.

Lemma flag_le f u w : flag f u w ≤ 1.
Proof. unfold flag. destruct (_ !! _) as [x|]; [destruct (f x)|]; lia. Qed.

Lemma tcount_lookup (P : Task → bool) w i t :
  tasks w !! i = Some t → P t = true → 1 ≤ tcount P w.
Proof.
  unfold tcount. generalize (tasks w). intros l. revert i.
  induction l as [|x l IH]; intros [|i]; simpl; try done.
  - intros [= ->] ->. simpl. lia.
  - intros Hi Ht. specialize (IH i Hi Ht). destruct (P x); simpl; lia.
Qed.

Lemma tcount_elem (P : Task → bool) w t :
  t ∈ tasks w → P t = true → 1 ≤ tcount P w.
Proof.
  intros [i Hi]%list_elem_of_lookup_1 Ht. by eapply tcount_lookup.
Qed.

Lemma tcount_pos (P : Task → bool) w :
  1 ≤ tcount P w → ∃ j t, tasks w !! j = Some t ∧ P t = true.
Proof.
  unfold tcount. generalize (tasks w). intros l.
  induction l as [|x l IH]; simpl; [lia|].
  destruct (P x) eqn:Hx; simpl.
  - intros _. by exists 0, x.
  - intros H. destruct (IH H) as (j & t & Hj & Ht). by exists (S j), t.
Qed.

Lemma count_snoc e e' w w' :
  trace w' = trace w ++ [e'] →
  count e w' = count e w + (if bool_decide (e' = e) then 1 else 0).
Proof.
  intros Htr. unfold count, countP. rewrite Htr, List.filter_app, length_app.
  simpl. by case_bool_decide.
Qed.

(** C3, as the code has it.  In every state the cooperative schedule can
    reach:
    - for every name, requests have made at most one unit, a request to
      ensure a name that is not in the registry makes one and starts its
      load, and a request to ensure a name that is in the registry
      returns [false] at once and changes neither the store, the registry
      nor the trace;
    - for every unit, one load was started when it was made, at most one
      write was started and at most one finished, at most one call of
      [ensurePackage] is or was to be handed the unit; a call was handed
      it only after its load had finished without throwing, and a call
      that threw did so after the load had thrown and the loaded signal
      was resolved;
    - a call of [writeToNpmModule] on the unit waits as long as the
      load has not finished; the first to go on starts the write; every
      other one waits for the written signal: it cannot go on while the
      write is under way, in the hands of a call that works, and when
      that call has finished the write the waiting call returns, leaving
      store, registry and trace as they are. *)
Theorem registry_one_load_one_write w name u :
  reachable w →
  countP (registers name) w ≤ 1
  ∧ (packageMap w !! name = None →
     countP (registers name) (ensurePackage name w) = 1
     ∧ packageMap (ensurePackage name w) !! name = Some (List.length (units w))
     ∧ count (LoadStarted (List.length (units w))) (ensurePackage name w) = 1)
  ∧ (is_Some (packageMap w !! name) →
     ensurePackage name w
     = mkWorld (units w) (packageMap w) (tasks w ++ [EnsureDeclined name])
         (trace w))
  ∧ (countP (registers name) w = 1 → is_Some (packageMap w !! name))
  ∧ countP (creates u) w ≤ 1
  ∧ count (LoadStarted u) w = countP (creates u) w
  ∧ count (LoadFinished u) w ≤ count (LoadStarted u) w
  ∧ count (WriteStarted u) w ≤ 1
  ∧ count (WriteFinished u) w ≤ count (WriteStarted u) w
  ∧ tcount (holdsUnit u) w ≤ 1
  ∧ (∀ t, t ∈ tasks w → taskUnit t = Some u →
          countP (creates u) w = 1 ∧ count (LoadStarted u) w = 1)
  ∧ (EnsureReturned u ∈ tasks w →
     count (LoadFinished u) w = 1 ∧ count (LoadFailed u) w = 0)
  ∧ (EnsureThrew u ∈ tasks w →
     count (LoadFailed u) w = 1 ∧ count (LoadFinished u) w = 1)
  ∧ (WriteReturned u false ∈ tasks w → count (WriteFinished u) w = 1)
  ∧ (∀ i, tasks w !! i = Some (WriteCalled u) →
       (count (LoadFinished u) w = 0 → resume i w = None)
       ∧ (count (LoadFinished u) w = 1 → count (WriteStarted u) w = 0 →
          ∃ w', resume i w = Some w'
                ∧ tasks w' = <[i := WriteWorking u]> (tasks w)
                ∧ trace w' = trace w ++ [WriteStarted u])
       ∧ (count (WriteStarted u) w = 1 →
          resume i w
          = Some (mkWorld (units w) (packageMap w)
                    (<[i := WriteWaiting u]> (tasks w)) (trace w))))
  ∧ (∀ i, tasks w !! i = Some (WriteWaiting u) →
       count (WriteStarted u) w = 1
       ∧ resume i w
         = if bool_decide (count (WriteFinished u) w = 1)
           then Some (mkWorld (units w) (packageMap w)
                        (<[i := WriteReturned u false]> (tasks w)) (trace w))
           else None)
  ∧ (count (WriteStarted u) w = 1 → count (WriteFinished u) w = 0 →
     ∃ j, tasks w !! j = Some (WriteWorking u))
  ∧ (∀ j w', tasks w !! j = Some (WriteWorking u) → resume j w = Some w' →
       count (WriteStarted u) w' = 1
       ∧ count (WriteFinished u) w' = 1
       ∧ ∀ i, tasks w !! i = Some (WriteWaiting u) →
              resume i w'
              = Some (mkWorld (units w') (packageMap w')
                        (<[i := WriteReturned u false]> (tasks w')) (trace w'))).
Proof.
  intros Hw. destruct (inv_reachable w Hw) as [Hu Hn].
  destruct (Hu u) as [Hcr Hls Hlf Hld Hfa Hou Hws Hwf Hwr Hwl Hho Hts Hwg Hwa].
  destruct (Hn name) as [Hreg Hst].
  pose proof (flag_le (λ _, true) u w) as Lc.
  pose proof (flag_le alreadyWritten u w) as La.
  pose proof (flag_le loaded u w) as Ll.
  split_and!; try lia.
  - destruct (packageMap w !! name); lia.
  - intros Hnone. rewrite Hnone in Hreg. unfold ensurePackage. rewrite Hnone.
    unfold count, countP in *. simpl.
    rewrite !List.filter_app, !length_app, lookup_insert_eq. simpl.
    rewrite !bool_decide_eq_true_2 by done. simpl.
    split_and!; [lia|done|].
    destruct (Hu (List.length (units w))) as [Hcr' Hls' _ _ _ _ _ _ _ _ _ _ _ _].
    unfold count, countP, flag in Hcr', Hls'.
    rewrite (lookup_ge_None_2 (units w)) in Hcr' by lia. lia.
  - intros [v Hv]. unfold ensurePackage. by rewrite Hv.
  - intros Hone. destruct (packageMap w !! name); [done|lia].
  - intros t Ht Htu. destruct (Hts t Ht Htu) as [x Hx].
    unfold flag in Hcr. rewrite Hx in Hcr. lia.
  - intros Ht.
    pose proof (tcount_elem (returned u) w _ Ht (bool_decide_eq_true_2 _ eq_refl)).
    lia.
  - intros Ht.
    assert (threw u (EnsureThrew u) = true) as Hthrew
      by (simpl; by apply bool_decide_eq_true_2).
    pose proof (tcount_elem (threw u) w _ Ht Hthrew). lia.
  - intros Ht. rewrite Hwr. by apply Hwa.
  - intros i Hi.
    destruct (Hts _ (list_elem_of_lookup_2 _ _ _ Hi) eq_refl) as [x Hx].
    unfold flag in Hld, Hws. rewrite Hx in Hld, Hws.
    unfold resume. rewrite Hi, Hx. simpl.
    split_and!.
    + intros H0. destruct (loaded x); [lia|done].
    + intros H1 H0. destruct (loaded x); [|lia].
      destruct (alreadyWritten x); [lia|]. by eexists.
    + intros H1. unfold flag in Hwl. rewrite Hx in Hwl.
      destruct (alreadyWritten x); [|lia]. destruct (loaded x); [done|lia].
  - intros i Hi.
    pose proof (Hwg (list_elem_of_lookup_2 _ _ _ Hi)) as Hflag.
    split; [lia|].
    destruct (Hts _ (list_elem_of_lookup_2 _ _ _ Hi) eq_refl) as [x Hx].
    unfold flag in Hwr. rewrite Hx in Hwr.
    unfold resume. rewrite Hi, Hx. simpl.
    destruct (written x); case_bool_decide; try done; lia.
  - intros H1 H0.
    destruct (tcount_pos (isWorking u) w) as (j & t & Hj & Ht); [lia|].
    unfold isWorking in Ht. apply bool_decide_eq_true_1 in Ht. subst t.
    by exists j.
  - intros j w' Hj Hres.
    destruct (Hts _ (list_elem_of_lookup_2 _ _ _ Hj) eq_refl) as [x Hx].
    assert (isWorking u (WriteWorking u) = true) as Hworking
      by (unfold isWorking; by apply bool_decide_eq_true_2).
    pose proof (tcount_lookup (isWorking u) w j _ Hj Hworking) as Hpos.
    unfold resume in Hres. rewrite Hj, Hx in Hres. simpl in Hres.
    injection Hres as <-.
    rewrite (count_snoc (WriteStarted u) (WriteFinished u) w) by done.
    rewrite (count_snoc (WriteFinished u) (WriteFinished u) w) by done.
    split_and!.
    + case_bool_decide; [done|lia].
    + case_bool_decide; [lia|done].
    + intros i Hi. unfold resume. simpl.
      assert (i ≠ j) as Hij by (intros ->; congruence).
      rewrite list_lookup_insert_ne by done. rewrite Hi.
      rewrite (lookup_insert_unit _ _ _ _ _ Hx), decide_True by done.
      done.
Qed.

(** C3, counterexample.  Of two requests to ensure [tracker] the second
    has returned [false], not the unit, and it has returned while the load
    of the unit is still under way.  And a unit whose descriptor names it
    [tracker] takes the place of the unit registered as [tracker]: two
    units were registered under the name, calls of [writeToNpmModule] for
    the name reach the one and then the other, and both are written. *)
Lemma second_ensure_returns_false :
  (reachable twoRequests
   ∧ tasks twoRequests = [EnsureLoading 0 false; EnsureDeclined "tracker"]
   ∧ units twoRequests = [newUnit "tracker"]
   ∧ loaded (newUnit "tracker") = false
   ∧ count (LoadFinished 0) twoRequests = 0)
  ∧ (reachable afterRenamed
     ∧ trace afterRenamed
       = [Registered "tracker" 0; LoadStarted 0; Stored "tracker" 0;
          LoadFinished 0; Registered "tracker-old" 1; LoadStarted 1;
          Stored "tracker" 1; LoadFinished 1; WriteStarted 0; WriteFinished 0;
          WriteStarted 1; WriteFinished 1]
     ∧ meteorName <$> units afterRenamed = ["tracker"; "tracker"]
     ∧ packageMap afterRenamed !! "tracker" = Some 1
     ∧ tasks afterRenamed
       = [EnsureReturned 0; WriteReturned 0 true; EnsureReturned 1;
          WriteReturned 1 true]).
Proof.
  split.
  - split_and!; try reflexivity.
    apply (run_reachable [Ensure "tracker"; Ensure "tracker"] initial);
      [constructor|reflexivity].
  - split_and!; try reflexivity.
    apply (run_reachable renamed initial); [constructor|reflexivity].
Qed.

(** C3 on a run with two requests to ensure [tracker] and two calls of
    [writeToNpmModule] on its unit, at the point where the second call
    waits for the first. *)
Lemma registry_one_load_one_write_witness :
  reachable whileWriting
  ∧ tasks whileWriting
    = [EnsureReturned 0; EnsureDeclined "tracker"; WriteWorking 0; WriteWaiting 0]
  ∧ countP (registers "tracker") whileWriting ≤ 1
  ∧ count (LoadStarted 0) whileWriting = countP (creates 0) whileWriting
  ∧ count (WriteStarted 0) whileWriting ≤ 1
  ∧ (count (LoadFinished 0) whileWriting = 1
     ∧ count (LoadFailed 0) whileWriting = 0)
  ∧ resume 3 whileWriting = None
  ∧ ∃ w', resume 2 whileWriting = Some w'
          ∧ count (WriteFinished 0) w' = 1
          ∧ resume 3 w'
            = Some (mkWorld (units w') (packageMap w')
                      (<[3 := WriteReturned 0 false]> (tasks w')) (trace w')).
Proof.
  assert (reachable whileWriting) as Hw.
  { apply (run_reachable (take 8 twoWrites) initial); [constructor|reflexivity]. }
  split; [exact Hw|]. split; [reflexivity|].
  destruct (registry_one_load_one_write whileWriting "tracker" 0 Hw)
    as (H1 & _ & _ & _ & _ & H2 & _ & H3 & _ & _ & _ & H4 & _ & _ & _ & H5 & _ & H6).
  split; [exact H1|]. split; [exact H2|]. split; [exact H3|].
  split.
  { apply H4.
    change (tasks whileWriting)
      with [EnsureReturned 0; EnsureDeclined "tracker"; WriteWorking 0;
            WriteWaiting 0].
    left. }
  split.
  { destruct (H5 3 eq_refl) as [_ Hres]. rewrite Hres. reflexivity. }
  eexists. split; [reflexivity|].
  destruct (H6 2 _ eq_refl eq_refl) as (_ & Hfin & Hwake).
  split; [exact Hfin|]. apply (Hwake 3). reflexivity.
Defined.

End RegistryFacts.

(** * Further properties *)

(** ** More on strings *)

Section StringSplit.

Lemma removeFirst_eq pat s :
  removeFirst pat s
  = if String.prefix pat s then dropPrefix pat s
    else match s with
         | EmptyString => EmptyString
         | String a r => String a (removeFirst pat r)
         end.
Proof. by destruct s. Qed.

Lemma prefix_app (p s : string) : String.prefix p (p +:+ s) = true.
Proof.
  induction p as [|a p IH]; simpl; [by destruct s|].
  destruct (Ascii.ascii_dec a a); [apply IH|done].
Qed.

Lemma dropPrefix_app (p s : string) : dropPrefix p (p +:+ s) = s.
Proof. induction p as [|a p IH]; simpl; [by destruct s|apply IH]. Qed.

Lemma removeFirst_prefix (p s : string) : removeFirst p (p +:+ s) = s.
Proof. by rewrite removeFirst_eq, prefix_app, dropPrefix_app. Qed.

Lemma split_no_sep c (a : string) : contains c a = false → split c a = [a].
Proof.
  induction a as [|x a IH]; simpl; [done|].
  destruct (decide (x = c)); [done|]. intros Ha. by rewrite IH.
Qed.

Lemma split_app_sep c (a b : string) :
  contains c a = false → split c (a +:+ String c b) = a :: split c b.
Proof.
  induction a as [|x a IH]; simpl.
  - intros _. by rewrite decide_True.
  - destruct (decide (x = c)); [done|]. intros Ha. by rewrite IH.
Qed.

Lemma split_join c segs :
  segs ≠ [] → Forall (λ s, contains c s = false) segs →
  split c (join (String c EmptyString) segs) = segs.
Proof.
  intros Hne Hall. induction Hall as [|s segs Hs Hall IH]; [done|].
  destruct segs as [|s' segs].
  - by apply split_no_sep.
  - change (join (String c EmptyString) (s :: s' :: segs))
      with (s +:+ String c (join (String c EmptyString) (s' :: segs))).
    rewrite split_app_sep by done. f_equal. by apply IH.
Qed.

Lemma startsWith_app (p s : string) : startsWith p (p +:+ s) = true.
Proof.
  unfold startsWith. induction p as [|a p IH]; simpl; [by destruct s|].
  destruct (Ascii.ascii_dec a a); [apply IH|done].
Qed.

Lemma split_not_nil c s : split c s ≠ [].
Proof.
  destruct s as [|a s]; simpl; [done|].
  destruct (decide (a = c)); [done|]. by destruct (split c s).
Qed.

End StringSplit.

(** ** [meteor-arch.js]: the inherited queries *)

Module ArchQueries.
Import Arch ArchFacts.

Lemma set_from_app_set_from l l' : set_from (set_from l ++ l') = set_from (l ++ l').
Proof.
  unfold set_from at 1 3. rewrite !foldl_app. f_equal.
  apply set_from_NoDup, NoDup_set_from.
Qed.

Lemma ancestors_parent a p : parentArch a = Some p → ancestors a = p :: ancestors p.
Proof. destruct a; simpl. by intros ->. Qed.

Lemma ancestors_root a : parentArch a = None → ancestors a = [].
Proof. destruct a; simpl. by intros ->. Qed.

Lemma lineage_parent a p : parentArch a = Some p → lineage a = lineage p ++ [a].
Proof.
  intros Hp. unfold lineage. by rewrite (ancestors_parent a p Hp), (reverse_cons _ a).
Qed.

Lemma lineage_root a : parentArch a = None → lineage a = [a].
Proof. intros Hp. unfold lineage. by rewrite (ancestors_root a Hp). Qed.

(** A query of the shape [new Set([...parent's, ...own])] is the set of
    the own lists from the root down. *)
Lemma chain_set (f get : MeteorArch → list string) :
  (∀ a, get a = set_from (match parentArch a with
                          | Some p => get p
                          | None => []
                          end ++ f a)) →
  ∀ a, get a = set_from (concat (f <$> lineage a)).
Proof.
  intros Hget a. induction a as [a Ha|a p Ha IH] using arch_ind; rewrite Hget, Ha.
  - rewrite (lineage_root a Ha). simpl. by rewrite app_nil_r.
  - rewrite (lineage_parent a p Ha), fmap_app, concat_app, IH. simpl.
    rewrite app_nil_r. apply set_from_app_set_from.
Qed.

Lemma elem_of_chain (f : MeteorArch → list string) a x :
  x ∈ set_from (concat (f <$> lineage a)) ↔ ∃ b, b ∈ a :: ancestors a ∧ x ∈ f b.
Proof.
  rewrite elem_of_set_from, list_elem_of_In, in_concat. split.
  - intros (l & Hl & Hx). apply list_elem_of_In, list_elem_of_fmap in Hl.
    destruct Hl as (b & -> & Hb). exists b. split; [|by apply list_elem_of_In].
    by apply elem_of_reverse.
  - intros (b & Hb & Hx). exists (f b). split; [|by apply list_elem_of_In].
    apply list_elem_of_In, list_elem_of_fmap. exists b. split; [done|].
    unfold lineage. by apply elem_of_reverse.
Qed.

(** X1.  [getActiveArch] returns the nearest node that was modified, going
    from the node itself up through its ancestors, and the root when none
    was: every node passed on the way is unmodified, and the node returned
    is modified or has no ancestor left. *)
Theorem getActiveArch_nearest a :
  ∃ pre post,
    a :: ancestors a = pre ++ getActiveArch a :: post
    ∧ Forall (λ b, modified b = false) pre
    ∧ post = ancestors (getActiveArch a)
    ∧ (modified (getActiveArch a) = true ∨ post = []).
Proof.
  induction a as [a Ha|a p Ha IH] using arch_ind.
  - exists [], []. destruct a; simpl in *; subst; simpl. split_and!; auto.
  - destruct a as [n par e i ip pp up mm ass [|]]; simpl in *; subst; simpl.
    + exists [], (p :: ancestors p). split_and!; auto.
    + destruct IH as (pre & post & Hchain & Hpre & Hpost & Hend).
      eexists (_ :: pre), post. rewrite Hchain. split_and!; auto.
Qed.

(** X2.  [getExports()] is the exports of the root, then of every node
    down to the node itself, each symbol once at its first place; so a
    symbol is exported exactly when the node or one of its ancestors
    exports it. *)
Theorem getExports_inherited a :
  getExports false a = set_from (concat (exports <$> lineage a))
  ∧ NoDup (getExports false a)
  ∧ ∀ x, x ∈ getExports false a ↔ ∃ b, b ∈ a :: ancestors a ∧ x ∈ exports b.
Proof.
  assert (getExports false a = set_from (concat (exports <$> lineage a))) as Heq.
  { apply (chain_set exports (getExports false)). by intros []. }
  rewrite Heq. split_and!; [done|apply NoDup_set_from|apply elem_of_chain].
Qed.

(** X3.  [getImpliedPackages()] and [getPreloadPackages()] inherit in the
    same way: the packages of the root first, then down to the node, each
    once. *)
Theorem getImpliedPackages_inherited a :
  (getImpliedPackages false a = set_from (concat (impliedPackages <$> lineage a))
   ∧ ∀ x, x ∈ getImpliedPackages false a
          ↔ ∃ b, b ∈ a :: ancestors a ∧ x ∈ impliedPackages b)
  ∧ (getPreloadPackages false a = set_from (concat (preloadPackages <$> lineage a))
     ∧ ∀ x, x ∈ getPreloadPackages false a
            ↔ ∃ b, b ∈ a :: ancestors a ∧ x ∈ preloadPackages b).
Proof.
  assert (getImpliedPackages false a
          = set_from (concat (impliedPackages <$> lineage a))) as Hi.
  { apply (chain_set impliedPackages (getImpliedPackages false)). by intros []. }
  assert (getPreloadPackages false a
          = set_from (concat (preloadPackages <$> lineage a))) as Hp.
  { apply (chain_set preloadPackages (getPreloadPackages false)). by intros []. }
  rewrite Hi, Hp. split_and!; try done; apply elem_of_chain.
Qed.

(** X4.  [getAssets()] is the plain concatenation from the root down: an
    asset added to two nodes of the chain is listed twice. *)
Theorem getAssets_root_first a :
  getAssets false a = concat (assets <$> lineage a).
Proof.
  induction a as [a Ha|a p Ha IH] using arch_ind.
  - rewrite (lineage_root a Ha). destruct a; simpl in *; subst; simpl.
    by rewrite app_nil_r.
  - assert (getAssets false a = getAssets false p ++ assets a) as ->
      by (destruct a; simpl in *; by subst).
    rewrite (lineage_parent a p Ha), IH, fmap_app, concat_app. simpl.
    by rewrite app_nil_r.
Qed.

(** X5.  [getMainModule()] is the main module of the nearest node, from
    the node itself upwards, whose main module is set to a non-empty
    string; a node whose main module is the empty string inherits like a
    node without one. *)
Theorem getMainModule_nearest a :
  getMainModule false a
  = head (List.filter (λ m, truthy (Some m))
            (omap mainModule (a :: ancestors a))).
Proof.
  induction a as [a Ha|a p Ha IH] using arch_ind.
  - destruct a as [n par e i ip pp up [[|c m]|] ass md]; simpl in *; by subst.
  - destruct a as [n par e i ip pp up [[|c m]|] ass md]; simpl in *; subst;
      simpl in *; done.
Qed.

End ArchQueries.

(** ** [maybeRewriteGlobalThis] *)

Module GlobalThisFacts.
Import Globals GlobalThis GlobalsFacts.

Lemma properPrefix_snoc q path i : properPrefix q path → properPrefix q (path ++ [i]).
Proof. intros (j & rest & ->). exists j, (rest ++ [i]). by rewrite <- app_assoc. Qed.

Lemma properPrefix_self_snoc path i : properPrefix path (path ++ [i]).
Proof. by exists i, []. Qed.

Lemma properPrefix_ne q path : properPrefix q path → q ≠ path.
Proof.
  intros (i & rest & ->) H. apply (f_equal List.length) in H.
  rewrite length_app in H. simpl in H. lia.
Qed.

Lemma walkThis_eq path n st :
  walkThis path n st
  = let stack := if contextChanging n then st.1 ++ [path] else st.1 in
    let hit := bool_decide (ntype n = "ThisExpression")
               && bool_decide (List.length stack = 1) in
    let walked := walkThisKids path 0 (kids n) (stack, st.2 || hit) in
    (Node (if hit then "Identifier" else ntype n)
          (if hit then "globalThis" else nname n) (nid n) walked.1,
     (leaveThis path walked.2.1, walked.2.2)).
Proof.
  destruct n as [ty nm id ks]. cbn [walkThis ntype nname nid kids]. cbv zeta.
  set (stack := if contextChanging _ then _ else _).
  set (hit := _ && _).
  generalize (stack, st.2 || hit). generalize 0.
  assert (∀ i s,
    (fix walkKids (i : nat) (ks : list (string * node)) (st : State)
       : list (string * node) * State :=
       match ks with
       | [] => ([], st)
       | (p, k) :: ks' =>
           let r := walkThis (path ++ [i]) k st in
           let rs := walkKids (S i) ks' r.2 in
           ((p, r.1) :: rs.1, rs.2)
       end) i ks s = walkThisKids path i ks s) as Heq.
  { induction ks as [|[p k] ks IH]; intros i s; [done|].
    cbn [walkThisKids]. cbv zeta. by rewrite IH. }
  intros i s. by rewrite Heq.
Qed.

Lemma topLevelThis_eq inF n :
  topLevelThis inF n
  = let inFunction := inF || contextChanging n in
    let hit := bool_decide (ntype n = "ThisExpression") && negb inFunction in
    Node (if hit then "Identifier" else ntype n)
         (if hit then "globalThis" else nname n) (nid n)
         (prod_map id (topLevelThis inFunction) <$> kids n).
Proof.
  destruct n as [ty nm id ks]. cbn [topLevelThis ntype nname nid kids]. cbv zeta.
  set (b := inF || contextChanging _). clearbody b.
  f_equal. induction ks as [|[p k] ks IH]; [done|]. by rewrite IH.
Qed.

Lemma hasTopLevelThis_eq inF n :
  hasTopLevelThis inF n
  = let inFunction := inF || contextChanging n in
    (bool_decide (ntype n = "ThisExpression") && negb inFunction)
    || existsb (λ k, hasTopLevelThis inFunction k.2) (kids n).
Proof.
  destruct n as [ty nm id ks]. cbn [hasTopLevelThis ntype kids]. cbv zeta.
  set (b := inF || contextChanging _). clearbody b.
  f_equal. induction ks as [|[p k] ks IH]; [done|]. simpl. by rewrite IH.
Qed.

(** Below the root the stack holds positions of proper ancestors only. *)
Lemma walkThis_spec n :
  ∀ path stack ret,
    stack ≠ [] → Forall (λ q, properPrefix q path) stack →
    walkThis path n (stack, ret)
    = (topLevelThis (negb (bool_decide (List.length stack = 1))) n,
       (stack,
        ret || hasTopLevelThis (negb (bool_decide (List.length stack = 1))) n)).
Proof.
  induction n as [ty nm idn ks IH] using node_ind'.
  intros path stack ret Hne Hpre.
  rewrite walkThis_eq, topLevelThis_eq, hasTopLevelThis_eq.
  cbn [ntype nname nid kids fst snd]. cbv zeta.
  set (n := Node ty nm idn ks).
  set (inF := negb (bool_decide (List.length stack = 1))).
  set (stack1 := if contextChanging n then stack ++ [path] else stack).
  assert (negb (bool_decide (List.length stack1 = 1)) = inF || contextChanging n)
    as Hin.
  { subst stack1 inF. destruct (contextChanging n).
    - rewrite length_app. simpl. destruct stack; [done|]. simpl.
      rewrite bool_decide_eq_false_2 by lia. by rewrite orb_true_r.
    - by rewrite orb_false_r. }
  assert (bool_decide (List.length stack1 = 1) = negb (inF || contextChanging n))
    as Hlen by (rewrite <- Hin; by rewrite negb_involutive).
  rewrite Hlen.
  set (hit := bool_decide (ty = "ThisExpression") && negb (inF || contextChanging n)).
  assert (stack1 ≠ []) as Hne1.
  { subst stack1. destruct (contextChanging n); [|done]. by destruct stack. }
  assert (∀ i, Forall (λ q, properPrefix q (path ++ [i])) stack1) as Hpre1.
  { intros i. subst stack1. destruct (contextChanging n).
    - apply Forall_app. split.
      + eapply Forall_impl; [done|]. intros q. apply properPrefix_snoc.
      + repeat constructor. apply properPrefix_self_snoc.
    - eapply Forall_impl; [done|]. intros q. apply properPrefix_snoc. }
  assert (∀ b s1, s1 ≠ [] →
            (∀ i, Forall (λ q, properPrefix q (path ++ [i])) s1) →
            negb (bool_decide (List.length s1 = 1)) = b →
            ∀ i r,
              walkThisKids path i ks (s1, r)
              = (prod_map id (topLevelThis b) <$> ks,
                 (s1, r || existsb (λ k, hasTopLevelThis b k.2) ks)))
    as Hkids.
  { clear -IH. intros b s1 Hne1 Hpre1 Hin.
    induction IH as [|[p k] ks Hk _ IHks]; intros i r.
    - simpl. by rewrite orb_false_r.
    - cbn [walkThisKids]. cbv zeta. simpl in Hk.
      rewrite (Hk (path ++ [i]) s1 r Hne1 (Hpre1 i)). rewrite Hin.
      cbn [fst snd]. rewrite IHks. simpl. by rewrite orb_assoc. }
  rewrite (Hkids _ _ Hne1 Hpre1 Hin).
  cbn [fst snd]. f_equal. f_equal; [|by rewrite orb_assoc].
  unfold leaveThis. subst stack1. destruct (contextChanging n).
  - rewrite last_snoc. rewrite bool_decide_eq_true_2 by done.
    by rewrite removelast_last.
  - rewrite bool_decide_eq_false_2; [done|].
    destruct (last stack) as [q|] eqn:Hq; [|done].
    intros [= ->]. apply last_Some in Hq as [l' ->].
    apply Forall_app in Hpre as [_ Hq]. inversion Hq as [|? ? Hq' _]; subst.
    by apply properPrefix_ne in Hq'.
Qed.

(** The walk from the root. *)
Lemma walkThis_root ast :
  let r := walkThis [] ast ([[]], false) in
  (r.1, r.2.2) = (topLevelThis false ast, hasTopLevelThis false ast).
Proof.
  cbv zeta.
  rewrite walkThis_eq, topLevelThis_eq, hasTopLevelThis_eq.
  cbn [fst snd]. cbv zeta.
  set (stack1 := if contextChanging ast then [[]] ++ [[]] else [[]]).
  assert (bool_decide (List.length stack1 = 1) = negb (contextChanging ast)) as Hlen.
  { subst stack1. by destruct (contextChanging ast). }
  rewrite Hlen. simpl orb.
  assert (∀ i r,
            walkThisKids [] i (kids ast) (stack1, r)
            = (prod_map id (topLevelThis (contextChanging ast)) <$> kids ast,
               (stack1,
                r || existsb (λ k, hasTopLevelThis (contextChanging ast) k.2) (kids ast))))
    as Hkids.
  { induction (kids ast) as [|[p k] ks IHks]; intros i r.
    - simpl. by rewrite orb_false_r.
    - cbn [walkThisKids]. cbv zeta.
      rewrite walkThis_spec.
      + rewrite Hlen, negb_involutive. cbn [fst snd]. rewrite IHks. simpl.
        by rewrite orb_assoc.
      + subst stack1. by destruct (contextChanging ast).
      + subst stack1. destruct (contextChanging ast); repeat constructor;
          by exists i, []. }
  by rewrite Hkids.
Qed.

Lemma topLevelThis_unchanged n :
  ∀ b, hasTopLevelThis b n = false ↔ topLevelThis b n = n.
Proof.
  induction n as [ty nm idn ks IH] using node_ind'. intros b.
  rewrite topLevelThis_eq, hasTopLevelThis_eq.
  cbn [ntype nname nid kids]. cbv zeta.
  set (c := b || contextChanging _). clearbody c.
  assert (existsb (λ k, hasTopLevelThis c k.2) ks = false
          ↔ prod_map id (topLevelThis c) <$> ks = ks) as Hks.
  { induction IH as [|[p k] ks Hk _ IHks]; [done|]. simpl in Hk.
    cbn [existsb fmap list_fmap prod_map snd fst].
    rewrite orb_false_iff, (Hk c). split.
    - intros [Hk' Hks%IHks]. unfold id. simpl. f_equal; [by rewrite Hk'|done].
    - intros [= Hk' Hks]. split; [done|]. by apply IHks. }
  rewrite orb_false_iff, Hks. split.
  - intros [-> Heq]. simpl. by rewrite Heq.
  - destruct (bool_decide (ty = "ThisExpression")) eqn:Hty.
    + apply bool_decide_eq_true in Hty as ->. destruct c; simpl.
      * by intros [= ->].
      * intros [= ].
    + simpl. by intros [= ->].
Qed.

(** X6.  The stack-based walk of [maybeRewriteGlobalThis] rewrites exactly
    the [ThisExpression]s that are not inside an arrow function, a function
    expression or a function declaration, however deep they are in other
    nodes, and returns whether there was one. *)
Theorem maybeRewriteGlobalThis_top_level ast :
  maybeRewriteGlobalThis ast
  = (topLevelThis false ast, hasTopLevelThis false ast).
Proof. apply walkThis_root. Qed.

(** X7.  [maybeRewriteGlobalThis] returns [false] exactly when it left the
    tree as it was. *)
Theorem maybeRewriteGlobalThis_false_iff_unchanged ast :
  (maybeRewriteGlobalThis ast).2 = false ↔ (maybeRewriteGlobalThis ast).1 = ast.
Proof.
  pose proof (walkThis_root ast) as Hroot. cbv zeta in Hroot.
  unfold maybeRewriteGlobalThis. cbv zeta. rewrite Hroot. cbn [fst snd].
  apply topLevelThis_unchanged.
Qed.

End GlobalThisFacts.

(** ** [globals.js]: what the rewrite changes, and the import groups *)

Module ReplaceGlobals.
Import Globals GlobalsFacts Examples.

Lemma walkKids_length sm g pty ks cs ks' cs' :
  walkKids sm g pty ks cs = Ok (ks', cs') → List.length ks' = List.length ks.
Proof.
  revert cs ks'. induction ks as [|[p k] ks IH]; intros cs ks'; simpl.
  - by intros [= <- _].
  - destruct (walk sm g (Some pty) p k cs) as [[k1 c1]|]; simpl; [|done].
    destruct (walkKids sm g pty ks c1) as [[ks1 c2]|] eqn:Hws; simpl; [|done].
    intros [= <- <-]. simpl. f_equal. by eapply IH.
Qed.

(** What one visit does to a node. *)
Lemma walk_node sm g pt prop n cs n' cs' :
  walk sm g pt prop n cs = Ok (n', cs') →
  ∃ ks', List.length ks' = List.length (kids n)
         ∧ (n' = Node (ntype n) (nname n) (nid n) ks'
            ∨ (ntype n = "Identifier" ∧ nname n ∈ g
               ∧ n' = rewritten (Node (ntype n) (nname n) (nid n) ks'))).
Proof.
  rewrite walk_eq.
  destruct (walkKids _ _ _ _ _) as [[ks' c2]|] eqn:Hws; simpl; [|done].
  destruct (if isFunction n then popScope c2 else Ok c2) as [left|]; simpl; [|done].
  destruct (shouldRewrite _ _ _ _ _) as [[|]|] eqn:Hb; simpl; [| |done].
  - intros [= <- _]. exists ks'. split; [by eapply walkKids_length|]. right.
    apply shouldRewrite_true in Hb as [Hty Hnm]. simpl in *. done.
  - intros [= <- _]. exists ks'. split; [by eapply walkKids_length|]. by left.
Qed.

(** X8.  The rewrite keeps the shape of the tree.  At every position of
    the input the output has a node with the same name and identity, and
    either the same type and as many children, or the input node is an
    [Identifier] whose name is in the owned set and the output node is the
    member access with the two children [object], the identifier
    [__package_globals__], and [property], the old name, added. *)
Theorem rewrite_only_owned_identifiers
    sm ast (packageGlobalsSet : option (list string)) out path n :
  rewriteFileForPackageGlobals sm ast packageGlobalsSet = Ok out →
  subtree_at path ast = Some n →
  ∃ n', subtree_at path out = Some n'
        ∧ nname n' = nname n ∧ nid n' = nid n
        ∧ ((ntype n' = ntype n ∧ List.length (kids n') = List.length (kids n))
           ∨ (ntype n = "Identifier"
              ∧ nname n ∈ default [] packageGlobalsSet
              ∧ ntype n' = "MemberExpression"
              ∧ ∃ ks', List.length ks' = List.length (kids n)
                       ∧ kids n' = ks' ++ [("object", identifier "__package_globals__");
                                           ("property", identifier (nname n))])).
Proof.
  intros Hout Hn. unfold rewriteFileForPackageGlobals in Hout.
  assert (out = ast
          ∨ ∃ g c, packageGlobalsSet = Some g
                   ∧ walk sm g None "" ast (acquire sm ast) = Ok (out, c))
    as [->|(g & c & -> & Hw)].
  { destruct packageGlobalsSet as [[|y g]|]; simpl in Hout.
    - left. by injection Hout.
    - right. destruct (walk _ _ _ _ _ _) as [[r c]|] eqn:Hw; simpl in Hout; [|done].
      injection Hout as <-. by exists (y :: g), c.
    - left. by injection Hout. }
  - exists n. split_and!; try done. by left.
  - destruct (walk_subtree _ _ _ _ _ _ _ _ _ _ Hw Hn)
      as (pt1 & prop1 & c1 & n1 & c1' & Hw1 & Hn1).
    exists n1. split; [done|].
    destruct (walk_node _ _ _ _ _ _ _ _ Hw1) as (ks' & Hlen & [->|(Hty & Hnm & ->)]).
    + split_and!; try done. by left.
    + split_and!; try done. right. split_and!; try done. by exists ks'.
Qed.

(** X8 on the file with the block-scoped [let]: the use of [Foo] in the
    block is an [Identifier] of the owned set and becomes a member access,
    with the same name and identity. *)
Lemma rewrite_only_owned_identifiers_witness :
  ∃ out,
    rewriteFileForPackageGlobals blockLetScopes blockLetFile (Some ["Foo"]) = Ok out
    ∧ subtree_at [1; 1; 0; 1; 0] blockLetFile = Some (ident "Foo" 14)
    ∧ ∃ n', subtree_at [1; 1; 0; 1; 0] out = Some n'
        ∧ nname n' = nname (ident "Foo" 14) ∧ nid n' = nid (ident "Foo" 14)
        ∧ ((ntype n' = ntype (ident "Foo" 14)
            ∧ List.length (kids n') = List.length (kids (ident "Foo" 14)))
           ∨ (ntype (ident "Foo" 14) = "Identifier"
              ∧ nname (ident "Foo" 14) ∈ default [] (Some ["Foo"])
              ∧ ntype n' = "MemberExpression"
              ∧ ∃ ks', List.length ks' = List.length (kids (ident "Foo" 14))
                       ∧ kids n' = ks' ++ [("object", identifier "__package_globals__");
                                           ("property",
                                            identifier (nname (ident "Foo" 14)))])).
Proof.
  eexists. split; [vm_compute; reflexivity|]. split; [reflexivity|].
  apply (rewrite_only_owned_identifiers blockLetScopes blockLetFile (Some ["Foo"]));
    [vm_compute; reflexivity|reflexivity].
Defined.

Lemma rewrite_keeps_unowned sm ast (packageGlobalsSet : option (list string)) out x :
  rewriteFileForPackageGlobals sm ast packageGlobalsSet = Ok out →
  x ∉ default [] packageGlobalsSet →
  keeps x ast out.
Proof.
  intros Hout Hx path n Hn Hty Hnm. unfold rewriteFileForPackageGlobals in Hout.
  assert (out = ast
          ∨ ∃ g c, packageGlobalsSet = Some g
                   ∧ walk sm g None "" ast (acquire sm ast) = Ok (out, c))
    as [->|(g & c & -> & Hw)].
  { destruct packageGlobalsSet as [[|y g]|]; simpl in Hout.
    - left. by injection Hout.
    - right. destruct (walk _ _ _ _ _ _) as [[r c]|] eqn:Hw; simpl in Hout; [|done].
      injection Hout as <-. by exists (y :: g), c.
    - left. by injection Hout. }
  - by exists n.
  - destruct (walk_subtree _ _ _ _ _ _ _ _ _ _ Hw Hn)
      as (pt1 & prop1 & c1 & n1 & c1' & Hw1 & Hn1).
    exists n1. split; [done|].
    destruct (walk_node _ _ _ _ _ _ _ _ Hw1) as (ks' & Hlen & [->|(_ & Hg & ->)]).
    + done.
    + simpl in Hx. by rewrite Hnm in Hg.
Qed.

(** *** The import groups *)

Lemma map_get_None_keys {V} k (m : list (string * V)) :
  map_get k m = None ↔ k ∉ keys m.
Proof.
  unfold keys. induction m as [|[k' v'] m IH]; simpl.
  - split; [intros _; apply not_elem_of_nil|done].
  - rewrite not_elem_of_cons. destruct (decide (k' = k)) as [->|Hne].
    + split; [done|]. by intros [? _].
    + rewrite IH. split; [by intros ?; split|by intros [_ ?]].
Qed.

Lemma map_set_set {V} k (v v' : V) m :
  map_set k v (map_set k v' m) = map_set k v m.
Proof.
  induction m as [|[k0 v0] m IH]; simpl.
  - by rewrite decide_True.
  - destruct (decide (k0 = k)) as [->|Hne]; simpl.
    + by rewrite decide_True.
    + by rewrite decide_False, IH.
Qed.

(** One round of the loop. *)
Lemma groupImports_snoc globals global importedGlobals :
  groupImports (globals ++ [global]) importedGlobals
  = let from := sourceOf importedGlobals global in
    let imports := groupImports globals importedGlobals in
    map_set from (set_add global (default [] (map_get from imports))) imports.
Proof.
  unfold groupImports. rewrite foldl_app. cbn [foldl]. cbv zeta.
  set (imports := foldl _ [] globals).
  destruct (map_get (sourceOf importedGlobals global) imports) eqn:Hget;
    [by rewrite Hget|].
  by rewrite map_get_set_eq, map_set_set.
Qed.

Lemma set_from_snoc l x : set_from (l ++ [x]) = set_add x (set_from l).
Proof. unfold set_from. by rewrite foldl_app. Qed.

Lemma set_add_not_nil x s : set_add x s ≠ [].
Proof.
  unfold set_add. destruct (decide (x ∈ s)) as [Hin|_].
  - intros ->. by apply elem_of_nil in Hin.
  - by destruct s.
Qed.

Lemma groupImports_keys globals importedGlobals :
  keys (groupImports globals importedGlobals)
  = set_from (sourceOf importedGlobals <$> globals).
Proof.
  induction globals as [|g globals IH] using rev_ind; [done|].
  rewrite groupImports_snoc, fmap_app.
  change (sourceOf importedGlobals <$> [g]) with [sourceOf importedGlobals g].
  rewrite set_from_snoc. cbv zeta.
  rewrite keys_map_set, IH. done.
Qed.

Lemma groupImports_get globals importedGlobals k :
  map_get k (groupImports globals importedGlobals)
  = nonEmpty (set_from (filter (λ g, sourceOf importedGlobals g = k) globals)).
Proof.
  induction globals as [|g globals IH] using rev_ind; [done|].
  rewrite groupImports_snoc, filter_app. cbv zeta.
  destruct (decide (sourceOf importedGlobals g = k)) as [<-|Hne].
  - rewrite map_get_set_eq, IH.
    rewrite filter_cons_True by done. rewrite filter_nil, set_from_snoc.
    set (s := set_from _).
    assert (default [] (nonEmpty s) = s) as -> by (by destruct s).
    pose proof (set_add_not_nil g s). by destruct (set_add g s).
  - rewrite map_get_set_ne by done. rewrite IH.
    rewrite filter_cons_False by done. by rewrite filter_nil, app_nil_r.
Qed.

(** X9.  [replaceGlobalsInFile] sorts the globals of a file into one
    group per source, in the order in which the sources first occur: the
    group of a source holds, once each and in their order, exactly the
    globals of that source, and a source without globals has no group. *)
Theorem groupImports_by_source globals importedGlobals :
  keys (groupImports globals importedGlobals)
  = set_from (sourceOf importedGlobals <$> globals)
  ∧ NoDup (keys (groupImports globals importedGlobals))
  ∧ ∀ k, map_get k (groupImports globals importedGlobals)
         = nonEmpty (set_from (filter (λ g, sourceOf importedGlobals g = k) globals)).
Proof.
  split_and!.
  - apply groupImports_keys.
  - rewrite groupImports_keys. apply NoDup_set_from.
  - apply groupImports_get.
Qed.

(** X10.  Only the globals of the file that no dependency provides are
    turned into members of the namespace object: an [Identifier] whose
    name is not a global of the file, or is imported from a package, is
    the same [Identifier] in the tree that is written. *)
Theorem replaceGlobalsInFile_keeps_imported
    sm outputParentFolder globals file ast importedGlobals importStr out x :
  replaceGlobalsInFile sm outputParentFolder globals file ast importedGlobals
  = Ok (Some (importStr, out)) →
  x ∉ globals ∨ sourceOf importedGlobals x ≠ "__globals.js" →
  keeps x ast out.
Proof.
  unfold replaceGlobalsInFile. intros Hout Hx.
  destruct (groupImports globals importedGlobals) as [|e es] eqn:Hgroups; [done|].
  rewrite <- Hgroups in Hout.
  destruct (rewriteFileForPackageGlobals _ _ _) as [out'|] eqn:Hrw; simpl in Hout;
    [|done].
  injection Hout as _ <-.
  apply (rewrite_keeps_unowned _ _ _ _ _ Hrw).
  rewrite groupImports_get.
  set (s := set_from _).
  assert (x ∉ s) as Hs.
  { unfold s. rewrite elem_of_set_from, list_elem_of_filter. intros [Hsrc Hin].
    by destruct Hx. }
  by destruct s.
Qed.

(** X10 on [Meteor.startup(Foo)] in a package that imports [Meteor]: the
    import statements are written, [Meteor] stays and [Foo] becomes
    [__package_globals__.Foo]. *)
Lemma replaceGlobalsInFile_keeps_imported_witness :
  ∃ out,
    replaceGlobalsInFile startupScopes "/out/pkg" ["Meteor"; "Foo"]
      "/out/pkg/lib/main.js" startupFile startupImported
    = Ok (Some ("import { Meteor } from " +:+ String "034" EmptyString
                +:+ "@meteor/meteor" +:+ String "034" EmptyString +:+ ";"
                +:+ String "010" EmptyString
                +:+ "import __package_globals__ from " +:+ String "034" EmptyString
                +:+ "./../__globals.js" +:+ String "034" EmptyString +:+ ";",
                out))
    ∧ (∃ n', subtree_at [0; 0; 1] out = Some n' ∧ isGlobalsAccess "Foo" n' = true)
    ∧ ("Meteor" ∉ ["Meteor"; "Foo"]
       ∨ sourceOf startupImported "Meteor" ≠ "__globals.js")
    ∧ keeps "Meteor" startupFile out.
Proof.
  eexists. split; [vm_compute; reflexivity|].
  split; [eexists; split; reflexivity|].
  assert (sourceOf startupImported "Meteor" ≠ "__globals.js") as Hsrc
    by (vm_compute; discriminate).
  split; [by right|].
  eapply (replaceGlobalsInFile_keeps_imported startupScopes "/out/pkg"
            ["Meteor"; "Foo"] "/out/pkg/lib/main.js" startupFile startupImported);
    [vm_compute; reflexivity|by right].
Defined.

(** *** The specifier of the namespace module *)

(** X11.  For a file [n] path segments below the folder, the namespace
    module, which lies in the folder itself, is imported from [n - 1]
    directories up: [./__globals.js] for a file of the folder and
    [./../__globals.js] for one in a sub-folder. *)
Theorem globalsSpecifier_depth outputParentFolder segs :
  segs ≠ [] → Forall (λ s, contains "/" s = false) segs →
  globalsSpecifier outputParentFolder
    (removeFirst "./" outputParentFolder +:+ "/" +:+ join "/" segs)
  = "./" +:+ join "/" (replicate (List.length segs - 1) "..")
    +:+ (if bool_decide (List.length segs = 1) then "" else "/")
    +:+ "__globals.js".
Proof.
  intros Hne Hall. unfold globalsSpecifier.
  rewrite removeFirst_prefix.
  change ("/" +:+ join "/" segs) with (EmptyString +:+ String "/" (join "/" segs)).
  rewrite split_app_sep by done. rewrite split_join by done.
  destruct segs as [|s segs]; [done|]. cbn [drop List.length].
  rewrite drop_0. replace (S (List.length segs) - 1) with (List.length segs) by lia.
  assert ((λ _ : string, "..") <$> segs = replicate (List.length segs) "..") as ->.
  { clear. induction segs as [|x segs IH]; [done|]. simpl. by rewrite <- IH. }
  destruct segs as [|s' segs]; [done|].
  rewrite bool_decide_eq_false_2 by done.
  destruct (join "/" (replicate (List.length (s' :: segs)) "..")) eqn:Hj; [|done].
  simpl in Hj. by destruct (replicate (List.length segs) "..").
Qed.

(** X11 on a file two folders deep. *)
Lemma globalsSpecifier_depth_witness :
  ["lib"; "client"; "main.js"] ≠ []
  ∧ Forall (λ s, contains "/" s = false) ["lib"; "client"; "main.js"]
  ∧ globalsSpecifier "./out/pkg" "out/pkg/lib/client/main.js"
    = "./../../__globals.js".
Proof.
  split; [done|].
  assert (Forall (λ s, contains "/" s = false) ["lib"; "client"; "main.js"]) as Hall.
  { apply Forall_cons; split; [reflexivity|].
    apply Forall_cons; split; [reflexivity|].
    apply Forall_cons; split; [reflexivity|]. apply Forall_nil_2. }
  split; [exact Hall|].
  apply (globalsSpecifier_depth "./out/pkg" ["lib"; "client"; "main.js"]);
    [done|exact Hall].
Defined.

(** The file path has to be written like the folder path without its
    first [./]: when the file path starts with [./] as well, or the
    folder path starts with [../], the specifier goes up too far. *)
Lemma globalsSpecifier_dot_prefixed :
  globalsSpecifier "./out/pkg" "out/pkg/lib/main.js" = "./../__globals.js"
  ∧ globalsSpecifier "./out/pkg" "./out/pkg/lib/main.js" = "./../../__globals.js"
  ∧ globalsSpecifier "../out/pkg" "../out/pkg/lib/main.js"
    = "./../../../__globals.js".
Proof. split_and!; reflexivity. Qed.

End ReplaceGlobals.

(** ** The package unit: names, exports, manifest, dependencies *)

Module PackageMore.
Import Package PackageFacts Examples.

(** *** Names *)

(** [name.split('/')[1]] is defined when [name] starts with [@meteor/]. *)
Lemma split_meteor_second name :
  startsWith "@meteor/" name = true → is_Some (split "/" name !! 1%nat).
Proof.
  unfold startsWith. intros H.
  repeat (destruct name as [|? name]; [done|];
          cbn [String.prefix] in H;
          destruct (Ascii.ascii_dec _ _) as [<-|]; [|done]).
  change (is_Some (split "/" ("@meteor" +:+ String "/" name) !! 1%nat)).
  rewrite split_app_sep by done. simpl.
  pose proof (split_not_nil "/" name). destruct (split "/" name); [done|by eexists].
Qed.

(** A prefix that ends with the separator fixes the first segment. *)
Lemma prefix_segment c (p a b : string) :
  contains c p = false → contains c a = false →
  String.prefix (p +:+ String c EmptyString) (a +:+ String c b) = true → a = p.
Proof.
  revert a. induction p as [|x p IH]; intros a; simpl.
  - intros _ Ha. destruct a as [|y a]; [done|]. simpl in *.
    destruct (Ascii.ascii_dec c y) as [<-|]; [|done].
    by rewrite decide_True in Ha.
  - destruct (decide (x = c)) as [|Hxc]; [done|]. intros Hp.
    destruct a as [|y a]; simpl.
    + intros _. by destruct (Ascii.ascii_dec x c).
    + destruct (decide (y = c)); [done|]. intros Ha.
      destruct (Ascii.ascii_dec x y) as [<-|]; [|done]. intros H.
      f_equal. by apply IH.
Qed.

(** X12.  [nodeNameToMeteorName] decodes both shapes of a node name: the
    package [b] of the scope [@meteor] is the Meteor package [b], and the
    package [b] of any other scope [@a] is the Meteor package [a:b]. *)
Theorem nodeNameToMeteorName_decode (a b : string) :
  contains "/" a = false → contains "/" b = false →
  nodeNameToMeteorName ("@" +:+ a +:+ "/" +:+ b)
  = if bool_decide (a = "meteor") then b else a +:+ ":" +:+ b.
Proof.
  intros Ha Hb. unfold nodeNameToMeteorName.
  case_bool_decide as Hm.
  - subst a. change ("@" +:+ "meteor" +:+ "/" +:+ b) with ("@meteor/" +:+ b).
    rewrite startsWith_app.
    change ("@meteor/" +:+ b) with ("@meteor" +:+ String "/" b).
    rewrite split_app_sep by done. by rewrite split_no_sep.
  - destruct (startsWith "@meteor/" ("@" +:+ a +:+ "/" +:+ b)) eqn:Hs.
    + exfalso. apply Hm. unfold startsWith in Hs. simpl in Hs.
      apply (prefix_segment "/" "meteor" a b); done.
    + change (slice1 ("@" +:+ a +:+ "/" +:+ b)) with (a +:+ String "/" b).
      rewrite split_app_sep by done. by rewrite split_no_sep.
Qed.

(** X12 on [@iron/router]. *)
Lemma nodeNameToMeteorName_decode_witness :
  contains "/" "iron" = false ∧ contains "/" "router" = false
  ∧ nodeNameToMeteorName "@iron/router" = "iron:router".
Proof.
  split; [reflexivity|]. split; [reflexivity|].
  apply (nodeNameToMeteorName_decode "iron" "router"); reflexivity.
Defined.

(** *** [addExports] *)

Lemma forEach_Ok {A S} (f : S → A → result S) (g : S → A → S) l s :
  (∀ s x, f s x = Ok (g s x)) → forEach f l s = Ok (foldl g s l).
Proof.
  intros Hf. revert s.
  induction l as [|x l IH]; intros s; simpl; [done|]. rewrite Hf. simpl. apply IH.
Qed.

Lemma foldl_exports (s c : bool) symbols p :
  foldl (λ p symbol,
           let p := if s then with_serverJsExports (serverJsExports p ++ [symbol]) p
                    else p in
           if c then with_clientJsExports (clientJsExports p ++ [symbol]) p else p)
        p symbols
  = with_clientJsExports (clientJsExports p ++ (if c then symbols else []))
      (with_serverJsExports (serverJsExports p ++ (if s then symbols else [])) p).
Proof.
  revert p. induction symbols as [|x symbols IH]; intros p; cbn [foldl].
  - destruct p, s, c; simpl; by rewrite ?app_nil_r.
  - rewrite IH. destruct p, s, c; simpl; by rewrite <- ?app_assoc.
Qed.

(** X13.  Exports that are not test-only are appended, in order and with
    repetitions, to the server list when the architectures are absent,
    empty or include [server], and to the client list when they are
    absent, empty or include [client], [web] or [web.browser]. *)
Theorem addExports_appends symbols archs p :
  addExports symbols archs None p
  = Ok (with_clientJsExports
          (clientJsExports p ++ (if forClient archs then symbols else []))
          (with_serverJsExports
             (serverJsExports p ++ (if forServer archs then symbols else [])) p)).
Proof.
  unfold addExports.
  rewrite (forEach_Ok _
    (λ p symbol,
       let p := if forServer archs
                then with_serverJsExports (serverJsExports p ++ [symbol]) p else p in
       if forClient archs
       then with_clientJsExports (clientJsExports p ++ [symbol]) p else p)).
  - by rewrite foldl_exports.
  - intros q x. unfold addExportsSymbol, forServer, forClient, archsInclude.
    destruct archs as [[|a l]|]; simpl; try done.
    repeat (case_bool_decide; simpl; try done).
Qed.

(** X14.  Test-only exports.  Without architectures ([undefined]) the
    first symbol makes [addExports] throw a [TypeError]; with the empty
    list nothing is exported; with a non-empty list the flag is ignored
    and the symbols are exported like any others. *)
Theorem addExports_testOnly symbol symbols a l p :
  addExports (symbol :: symbols) None (Some {| testOnly := true |}) p = Err TypeError
  ∧ addExports symbols (Some []) (Some {| testOnly := true |}) p = Ok p
  ∧ addExports symbols (Some (a :: l)) (Some {| testOnly := true |}) p
    = addExports symbols (Some (a :: l)) None p.
Proof.
  split_and!.
  - reflexivity.
  - unfold addExports. rewrite (forEach_Ok _ (λ p _, p)); [|done].
    by induction symbols.
  - unfold addExports. revert p.
    induction symbols as [|x symbols IH]; intros p; [done|].
    cbn [forEach]. unfold addExportsSymbol at 1 3. simpl.
    repeat (case_bool_decide; simpl; try apply IH).
Qed.

(** *** The manifest *)

Lemma mapM_Ok_iff {A B} (f : A → result B) (l : list A) :
  (∃ r, mapM f l = Ok r) ↔ Forall (λ x, ∃ y, f x = Ok y) l.
Proof.
  induction l as [|x l IH]; simpl.
  - split; [constructor|by eexists].
  - rewrite Forall_cons, <- IH. split.
    + intros [r Hr]. destruct (f x) as [y|]; simpl in Hr; [|done].
      destruct (mapM f l) as [ys|]; simpl in Hr; [|done].
      split; by eexists.
    + intros [[y ->] [ys ->]]. simpl. by eexists.
Qed.

(** X15.  [toJSON] returns exactly when every required dependency that
    still carries the placeholder is a registered package; otherwise it
    throws. *)
Theorem toJSON_returns_iff packageMap p :
  (∃ m, toJSON packageMap p = Ok m)
  ↔ ∀ name, (name, meteorVersionPlaceholderSymbol) ∈ dependencies p →
            is_Some (packageMap !! nodeNameToMeteorName name).
Proof.
  unfold toJSON. split.
  - intros [m Hm] name Hin.
    destruct (mapM _ _) as [deps|] eqn:Hdeps; simpl in Hm; [|done].
    assert (∃ r, mapM (resolveDependency packageMap) (dependencies p) = Ok r) as Hex
      by (by eexists).
    apply mapM_Ok_iff in Hex. rewrite Forall_forall in Hex.
    destruct (Hex _ Hin) as [y Hy]. simpl in Hy.
    destruct (packageMap !! _); [by eexists|done].
  - intros Hreg.
    assert (∃ r, mapM (resolveDependency packageMap) (dependencies p) = Ok r)
      as [r ->].
    { apply mapM_Ok_iff, Forall_forall. intros [name v] Hin. simpl.
      case_bool_decide as Hv; [|by eexists]. subst v.
      destruct (Hreg name Hin) as [q ->]. by eexists. }
    simpl. by eexists.
Qed.

(** X16.  In the manifest the required dependencies keep their names and
    their order; a dependency on an npm package keeps its version and a
    placeholder is replaced by the version of the registered package. *)
Theorem toJSON_dependencies_versions packageMap p m :
  toJSON packageMap p = Ok m →
  Forall2 (λ old new,
             new.1 = old.1
             ∧ if bool_decide (old.2 = meteorVersionPlaceholderSymbol)
               then ∃ q, packageMap !! nodeNameToMeteorName old.1 = Some q
                         ∧ new.2 = versionOf q
               else new.2 = old.2)
          (dependencies p) (manifest_dependencies m).
Proof.
  unfold toJSON.
  destruct (mapM _ _) as [deps|] eqn:Hdeps; simpl; [|done].
  intros [= <-]. simpl. apply mapM_Forall2 in Hdeps.
  eapply Forall2_impl; [exact Hdeps|].
  intros [k v] [k' v'] Hkv. unfold resolveDependency in Hkv. simpl.
  case_bool_decide as Hv.
  - destruct (packageMap !! _) as [q|]; [|done].
    injection Hkv as <- <-. split; [done|]. by exists q.
  - by injection Hkv as <- <-.
Qed.

(** X16 on the unit with an unordered dependency on [tracker]: its only
    required dependency is the automatic one on [@meteor/meteor]. *)
Lemma toJSON_dependencies_versions_witness :
  ∃ m, toJSON peerRegistry peerUser = Ok m
       ∧ Forall2 (λ old new,
                    new.1 = old.1
                    ∧ if bool_decide (old.2 = meteorVersionPlaceholderSymbol)
                      then ∃ q, peerRegistry !! nodeNameToMeteorName old.1 = Some q
                                ∧ new.2 = versionOf q
                      else new.2 = old.2)
                 (dependencies peerUser) (manifest_dependencies m).
Proof.
  eexists. split; [vm_compute; reflexivity|].
  apply (toJSON_dependencies_versions peerRegistry peerUser). vm_compute. reflexivity.
Defined.

End PackageMore.

(** ** The package unit: what a declared dependency changes *)

Module PackageDeps.
Import Package PackageFacts Examples.

Lemma foldl_preserves {A B} (Q : A → Prop) (f : A → B → A) l a :
  (∀ a b, b ∈ l → Q a → Q (f a b)) → Q a → Q (foldl f a l).
Proof.
  revert a. induction l as [|b l IH]; intros a Hf Ha; simpl; [done|].
  apply IH.
  - intros a' b' Hb'. apply Hf. by right.
  - apply Hf; [by left|done].
Qed.

Lemma excludes_not x : x ∈ excludes → x ≠ "mongo" ∧ x ≠ "meteor".
Proof.
  intros Hx. split; intros ->;
    by apply (bool_decide_pack _) in Hx.
Qed.

Section WithNaming.
Variable meteorNameToNodeName : string → string.

(** What [addImport] leaves in the import sets. *)
Lemma addImport_imports item archs p :
  clientJsImports (addImport item archs p)
  = (if forClient archs then set_add item (clientJsImports p) else clientJsImports p)
  ∧ serverJsImports (addImport item archs p)
    = (if forServer archs then set_add item (serverJsImports p) else serverJsImports p).
Proof. unfold addImport. by destruct (forServer archs), (forClient archs). Qed.

(** One declared package, field by field. *)
Lemma addMeteorDependency_fields deps archs opts p dep :
  let name := packageNameOf dep in
  let w := from_option weak false opts in
  let u := from_option unordered false opts in
  let p' := addMeteorDependency meteorNameToNodeName deps archs opts p dep in
  if bool_decide (name ∈ excludes) then p' = p
  else
    allPackages p' = (if w then allPackages p else set_add name (allPackages p))
    ∧ immediateDependencies p'
      = (if u || w then immediateDependencies p
         else set_add name (immediateDependencies p))
    ∧ clientJsImports p'
      = (if u || w then clientJsImports p
         else clientJsImports (addImport (meteorNameToNodeName name) archs p))
    ∧ serverJsImports p'
      = (if u || w then serverJsImports p
         else serverJsImports (addImport (meteorNameToNodeName name) archs p))
    ∧ depsOf deps p'
      = map_set (meteorNameToNodeName name) meteorVersionPlaceholderSymbol (depsOf deps p)
    ∧ ∀ t, t ≠ deps → depsOf t p' = depsOf t p.
Proof.
  cbv zeta. unfold addMeteorDependency, packageNameOf.
  set (name := default EmptyString (head (split "@" dep))).
  case_bool_decide as Hex; [done|].
  destruct (from_option weak false opts), (from_option unordered false opts);
    cbn [negb andb orb].
  all: unfold addImport; destruct (forServer archs), (forClient archs).
  all: destruct deps; simpl; split_and!; try done.
  all: by intros [].
Qed.

Lemma addMeteorDependencies_base packages archs opts p :
  addMeteorDependencies meteorNameToNodeName packages archs opts p
  = foldl (addMeteorDependency meteorNameToNodeName
             (if from_option unordered false opts then Peer
              else if from_option weak false opts then Optional else Required)
             archs opts)
      (addMeteorDependencies meteorNameToNodeName [] archs opts p) packages.
Proof. reflexivity. Qed.

(** The automatic dependencies add nothing but [mongo] and [meteor]. *)
Lemma addMeteorDependencies_nil_sets archs opts p x :
  x ≠ "mongo" → x ≠ "meteor" →
  let base := addMeteorDependencies meteorNameToNodeName [] archs opts p in
  (x ∈ allPackages base ↔ x ∈ allPackages p)
  ∧ (x ∈ immediateDependencies base ↔ x ∈ immediateDependencies p).
Proof.
  intros Hmongo Hmeteor. cbv zeta. unfold addMeteorDependencies. cbn [foldl].
  destruct (startsWith "qualia:" (meteorName p));
    destruct (negb (isCommon _)) eqn:Hc1;
    rewrite ?Hc1;
    destruct (negb (bool_decide _)); try rewrite Hc1;
    try destruct (negb (isCommon _));
    unfold addImport; simpl; rewrite ?elem_of_set_add; split; tauto.
Qed.

Lemma addMeteorDependencies_nil_other archs opts p :
  let base := addMeteorDependencies meteorNameToNodeName [] archs opts p in
  peerDependencies base = peerDependencies p
  ∧ optionalDependencies base = optionalDependencies p.
Proof.
  cbv zeta. unfold addMeteorDependencies. cbn [foldl].
  destruct (startsWith "qualia:" (meteorName p));
    destruct (negb (isCommon _)) eqn:Hc1;
    rewrite ?Hc1;
    destruct (negb (bool_decide _)); try rewrite Hc1;
    try destruct (negb (isCommon _));
    unfold addImport; simpl; done.
Qed.

(** One implied package, field by field. *)
Lemma addImplied_sets archs p dep x :
  x ∈ excludes →
  (x ∈ allPackages (addImplied meteorNameToNodeName archs p dep) ↔ x ∈ allPackages p)
  ∧ (x ∈ immediateDependencies (addImplied meteorNameToNodeName archs p dep)
     ↔ x ∈ immediateDependencies p).
Proof.
  intros Hx. unfold addImplied.
  set (name := default EmptyString (head (split "@" dep))).
  case_bool_decide as Hex; [done|].
  assert (x ≠ name) by (by intros ->).
  destruct (noArchs archs || archsInclude archs "server"),
           (noArchs archs || archsInclude archs "client");
    simpl; rewrite !elem_of_set_add; split; tauto.
Qed.

(** X17.  A package of the exclusion list (the build plugins) is never
    put in the set of packages to load nor in the set of packages to
    write, whether it is used or implied, with or without a version. *)
Theorem excluded_never_added packages archs opts p x :
  x ∈ excludes →
  let used := addMeteorDependencies meteorNameToNodeName packages archs opts p in
  let implied := addImplies meteorNameToNodeName packages archs p in
  (x ∈ allPackages used ↔ x ∈ allPackages p)
  ∧ (x ∈ immediateDependencies used ↔ x ∈ immediateDependencies p)
  ∧ (x ∈ allPackages implied ↔ x ∈ allPackages p)
  ∧ (x ∈ immediateDependencies implied ↔ x ∈ immediateDependencies p).
Proof.
  intros Hx. cbv zeta.
  destruct (excludes_not x Hx) as [Hmongo Hmeteor].
  assert (∀ deps q,
            (x ∈ allPackages q ↔ x ∈ allPackages p)
            ∧ (x ∈ immediateDependencies q ↔ x ∈ immediateDependencies p) →
            (x ∈ allPackages
                   (foldl (addMeteorDependency meteorNameToNodeName deps archs opts)
                      q packages) ↔ x ∈ allPackages p)
            ∧ (x ∈ immediateDependencies
                     (foldl (addMeteorDependency meteorNameToNodeName deps archs opts)
                        q packages) ↔ x ∈ immediateDependencies p)) as Hused.
  { intros deps q Hq.
    apply (foldl_preserves
             (λ q, (x ∈ allPackages q ↔ x ∈ allPackages p)
                   ∧ (x ∈ immediateDependencies q ↔ x ∈ immediateDependencies p)));
      [|done].
    intros a dep _ [Ha Hi].
    pose proof (addMeteorDependency_fields deps archs opts a dep) as Hf.
    cbv zeta in Hf. case_bool_decide as Hex; [by rewrite Hf|].
    destruct Hf as (-> & -> & _).
    assert (x ≠ packageNameOf dep) by (by intros ->).
    destruct (from_option weak false opts), (from_option unordered false opts);
      simpl; rewrite ?elem_of_set_add; split; tauto. }
  assert ((x ∈ allPackages (addImplies meteorNameToNodeName packages archs p)
           ↔ x ∈ allPackages p)
          ∧ (x ∈ immediateDependencies
                   (addImplies meteorNameToNodeName packages archs p)
             ↔ x ∈ immediateDependencies p)) as Himplied.
  { unfold addImplies.
    apply (foldl_preserves
             (λ q, (x ∈ allPackages q ↔ x ∈ allPackages p)
                   ∧ (x ∈ immediateDependencies q ↔ x ∈ immediateDependencies p)));
      [|done].
    intros a dep _ [Ha Hi].
    destruct (addImplied_sets archs a dep x Hx) as [Ha' Hi'].
    split; [by rewrite Ha'|by rewrite Hi']. }
  rewrite addMeteorDependencies_base.
  destruct (Hused
              (if from_option unordered false opts then Peer
               else if from_option weak false opts then Optional else Required)
              (addMeteorDependencies meteorNameToNodeName [] archs opts p)
              (addMeteorDependencies_nil_sets archs opts p x Hmongo Hmeteor))
    as [H1 H2].
  destruct Himplied as [H3 H4]. done.
Qed.

(** The declared packages of a weak dependency. *)
Lemma fold_weak archs packages q :
  let opts := Some {| weak := true; unordered := false |} in
  let q' := foldl (addMeteorDependency meteorNameToNodeName Optional archs opts)
              q packages in
  dependencies q' = dependencies q
  ∧ peerDependencies q' = peerDependencies q
  ∧ clientJsImports q' = clientJsImports q
  ∧ serverJsImports q' = serverJsImports q
  ∧ allPackages q' = allPackages q
  ∧ immediateDependencies q' = immediateDependencies q
  ∧ (∀ k, map_get k (optionalDependencies q) = Some meteorVersionPlaceholderSymbol →
          map_get k (optionalDependencies q') = Some meteorVersionPlaceholderSymbol)
  ∧ ∀ dep, dep ∈ packages → packageNameOf dep ∉ excludes →
           map_get (meteorNameToNodeName (packageNameOf dep)) (optionalDependencies q')
           = Some meteorVersionPlaceholderSymbol.
Proof.
  cbv zeta. revert q. induction packages as [|d packages IH]; intros q; cbn [foldl].
  - split_and!; try done. intros dep Hin. by apply elem_of_nil in Hin.
  - set (q1 := addMeteorDependency _ _ _ _ q d).
    destruct (IH q1) as (Hd & Hp & Hc & Hs & Ha & Hi & Hkeep & Hnew).
    pose proof (addMeteorDependency_fields Optional archs
                  (Some {| weak := true; unordered := false |}) q d) as Hf.
    cbv zeta in Hf. fold q1 in Hf. simpl in Hf.
    assert (dependencies q1 = dependencies q ∧ peerDependencies q1 = peerDependencies q
            ∧ clientJsImports q1 = clientJsImports q
            ∧ serverJsImports q1 = serverJsImports q
            ∧ allPackages q1 = allPackages q
            ∧ immediateDependencies q1 = immediateDependencies q
            ∧ (∀ k, map_get k (optionalDependencies q)
                    = Some meteorVersionPlaceholderSymbol →
                    map_get k (optionalDependencies q1)
                    = Some meteorVersionPlaceholderSymbol)
            ∧ (packageNameOf d ∉ excludes →
               map_get (meteorNameToNodeName (packageNameOf d))
                 (optionalDependencies q1) = Some meteorVersionPlaceholderSymbol))
      as (Ed & Ep & Ec & Es & Ea & Ei & Ekeep & Enew).
    { case_bool_decide as Hex; [rewrite Hf; split_and!; done|].
      destruct Hf as (Fa & Fi & Fc & Fs & Fo & Fother).
      split_and!; try done.
      - by apply (Fother Required).
      - by apply (Fother Peer).
      - intros k Hk. rewrite Fo.
        destruct (decide (meteorNameToNodeName (packageNameOf d) = k)) as [<-|Hne].
        + apply map_get_set_eq.
        + by rewrite map_get_set_ne.
      - intros _. rewrite Fo. apply map_get_set_eq. }
    rewrite Hd, Hp, Hc, Hs, Ha, Hi. split_and!; try done.
    + intros k Hk. by apply Hkeep, Ekeep.
    + intros dep [->|Hin]%elem_of_cons Hex; [by apply Hkeep, Enew|by apply Hnew].
Qed.

(** X18.  A weak dependency shows in the optional dependencies only:
    every declared package that is not excluded is an optional dependency
    with the placeholder version, and the required and peer dependencies,
    the imports, the packages to load and the packages to write are those
    of a call without declared packages. *)
Theorem addMeteorDependencies_weak packages archs p :
  let opts := Some {| weak := true; unordered := false |} in
  let base := addMeteorDependencies meteorNameToNodeName [] archs opts p in
  let p' := addMeteorDependencies meteorNameToNodeName packages archs opts p in
  dependencies p' = dependencies base
  ∧ peerDependencies p' = peerDependencies p
  ∧ clientJsImports p' = clientJsImports base
  ∧ serverJsImports p' = serverJsImports base
  ∧ allPackages p' = allPackages base
  ∧ immediateDependencies p' = immediateDependencies base
  ∧ ∀ dep, dep ∈ packages → packageNameOf dep ∉ excludes →
           map_get (meteorNameToNodeName (packageNameOf dep)) (optionalDependencies p')
           = Some meteorVersionPlaceholderSymbol.
Proof.
  cbv zeta. rewrite addMeteorDependencies_base. cbn [from_option weak unordered].
  destruct (fold_weak archs packages
              (addMeteorDependencies meteorNameToNodeName [] archs
                 (Some {| weak := true; unordered := false |}) p))
    as (Hd & Hp & Hc & Hs & Ha & Hi & _ & Hnew).
  destruct (addMeteorDependencies_nil_other archs
              (Some {| weak := true; unordered := false |}) p) as [Hp0 _].
  cbv zeta in Hp0. rewrite Hp0 in Hp. done.
Qed.

(** The declared packages of an unordered dependency. *)
Lemma fold_unordered archs w packages q :
  let opts := Some {| weak := w; unordered := true |} in
  let q' := foldl (addMeteorDependency meteorNameToNodeName Peer archs opts)
              q packages in
  dependencies q' = dependencies q
  ∧ optionalDependencies q' = optionalDependencies q
  ∧ clientJsImports q' = clientJsImports q
  ∧ serverJsImports q' = serverJsImports q
  ∧ immediateDependencies q' = immediateDependencies q
  ∧ (∀ x, x ∈ allPackages q → x ∈ allPackages q')
  ∧ (∀ k, map_get k (peerDependencies q) = Some meteorVersionPlaceholderSymbol →
          map_get k (peerDependencies q') = Some meteorVersionPlaceholderSymbol)
  ∧ ∀ dep, dep ∈ packages → packageNameOf dep ∉ excludes →
           map_get (meteorNameToNodeName (packageNameOf dep)) (peerDependencies q')
           = Some meteorVersionPlaceholderSymbol
           ∧ (w = false → packageNameOf dep ∈ allPackages q').
Proof.
  cbv zeta. revert q. induction packages as [|d packages IH]; intros q; cbn [foldl].
  - split_and!; try done. intros dep Hin. by apply elem_of_nil in Hin.
  - set (q1 := addMeteorDependency _ _ _ _ q d).
    destruct (IH q1) as (Hd & Ho & Hc & Hs & Hi & Ha & Hkeep & Hnew).
    pose proof (addMeteorDependency_fields Peer archs
                  (Some {| weak := w; unordered := true |}) q d) as Hf.
    cbv zeta in Hf. fold q1 in Hf. cbn [from_option weak unordered orb] in Hf.
    assert (dependencies q1 = dependencies q
            ∧ optionalDependencies q1 = optionalDependencies q
            ∧ clientJsImports q1 = clientJsImports q
            ∧ serverJsImports q1 = serverJsImports q
            ∧ immediateDependencies q1 = immediateDependencies q
            ∧ (∀ x, x ∈ allPackages q → x ∈ allPackages q1)
            ∧ (∀ k, map_get k (peerDependencies q)
                    = Some meteorVersionPlaceholderSymbol →
                    map_get k (peerDependencies q1)
                    = Some meteorVersionPlaceholderSymbol)
            ∧ (packageNameOf d ∉ excludes →
               map_get (meteorNameToNodeName (packageNameOf d))
                 (peerDependencies q1) = Some meteorVersionPlaceholderSymbol
               ∧ (w = false → packageNameOf d ∈ allPackages q1)))
      as (Ed & Eo & Ec & Es & Ei & Ea & Ekeep & Enew).
    { case_bool_decide as Hex; [rewrite Hf; split_and!; done|].
      destruct Hf as (Fa & Fi & Fc & Fs & Fo & Fother).
      split_and!; try done.
      - by apply (Fother Required).
      - by apply (Fother Optional).
      - intros x Hx. rewrite Fa. destruct w; [done|by apply set_add_mono].
      - intros k Hk. simpl in Fo. rewrite Fo.
        destruct (decide (meteorNameToNodeName (packageNameOf d) = k)) as [<-|Hne].
        + apply map_get_set_eq.
        + by rewrite map_get_set_ne.
      - intros _. simpl in Fo. rewrite Fo. split; [apply map_get_set_eq|].
        intros ->. rewrite Fa. apply set_add_self. }
    rewrite Hd, Ho, Hc, Hs, Hi. split_and!; try done.
    + intros x Hx. by apply Ha, Ea.
    + intros k Hk. by apply Hkeep, Ekeep.
    + intros dep [->|Hin]%elem_of_cons Hex; [|by apply Hnew].
      destruct (Enew Hex) as [E1 E2]. split; [by apply Hkeep|].
      intros Hw. by apply Ha, E2.
Qed.

(** X19.  An unordered dependency shows in the peer dependencies: every
    declared package that is not excluded is a peer dependency with the
    placeholder version and, unless the dependency is weak as well, a
    package to load; it is not imported and it is not written first. *)
Theorem addMeteorDependencies_unordered packages archs w p :
  let opts := Some {| weak := w; unordered := true |} in
  let base := addMeteorDependencies meteorNameToNodeName [] archs opts p in
  let p' := addMeteorDependencies meteorNameToNodeName packages archs opts p in
  dependencies p' = dependencies base
  ∧ optionalDependencies p' = optionalDependencies p
  ∧ clientJsImports p' = clientJsImports base
  ∧ serverJsImports p' = serverJsImports base
  ∧ immediateDependencies p' = immediateDependencies base
  ∧ ∀ dep, dep ∈ packages → packageNameOf dep ∉ excludes →
           map_get (meteorNameToNodeName (packageNameOf dep)) (peerDependencies p')
           = Some meteorVersionPlaceholderSymbol
           ∧ (w = false → packageNameOf dep ∈ allPackages p').
Proof.
  cbv zeta. rewrite addMeteorDependencies_base. cbn [from_option weak unordered].
  destruct (fold_unordered archs w packages
              (addMeteorDependencies meteorNameToNodeName [] archs
                 (Some {| weak := w; unordered := true |}) p))
    as (Hd & Ho & Hc & Hs & Hi & _ & _ & Hnew).
  destruct (addMeteorDependencies_nil_other archs
              (Some {| weak := w; unordered := true |}) p) as [_ Ho0].
  cbv zeta in Ho0. rewrite Ho0 in Ho. done.
Qed.

(** The fields one declared package leaves alone. *)
Lemma addMeteorDependency_frame deps archs opts p dep :
  let p' := addMeteorDependency meteorNameToNodeName deps archs opts p dep in
  meteorName p' = meteorName p ∧ nodeName p' = nodeName p
  ∧ version p' = version p ∧ description p' = description p
  ∧ serverJsExports p' = serverJsExports p ∧ clientJsExports p' = clientJsExports p
  ∧ impliedClientPackages p' = impliedClientPackages p
  ∧ impliedServerPackages p' = impliedServerPackages p
  ∧ serverMainModule p' = serverMainModule p
  ∧ clientMainModule p' = clientMainModule p
  ∧ clientAssets p' = clientAssets p ∧ serverAssets p' = serverAssets p.
Proof.
  cbv zeta. unfold addMeteorDependency.
  case_bool_decide; [done|].
  destruct (from_option weak false opts), (from_option unordered false opts);
    cbn [negb andb].
  all: unfold addImport; destruct (forServer archs), (forClient archs).
  all: by destruct deps.
Qed.

Lemma elem_of_declaredNames x packages :
  x ∈ declaredNames packages
  ↔ ∃ dep, dep ∈ packages ∧ x = packageNameOf dep ∧ x ∉ excludes.
Proof.
  unfold declaredNames. rewrite list_elem_of_In, filter_In, <- list_elem_of_In.
  rewrite list_elem_of_fmap, negb_true_iff, bool_decide_eq_false. split.
  - intros [(dep & -> & Hin) Hex]. by exists dep.
  - intros (dep & Hin & -> & Hex). split; [by exists dep|done].
Qed.

Lemma declaredNames_cons dep packages :
  declaredNames (dep :: packages)
  = if bool_decide (packageNameOf dep ∈ excludes) then declaredNames packages
    else packageNameOf dep :: declaredNames packages.
Proof. unfold declaredNames. simpl. by case_bool_decide. Qed.

(** The loop over the declared packages. *)
Lemma addMeteorDependency_fold deps archs opts packages q :
  let w := from_option weak false opts in
  let u := from_option unordered false opts in
  let q' := foldl (addMeteorDependency meteorNameToNodeName deps archs opts)
              q packages in
  (∀ x, x ∈ allPackages q'
        ↔ x ∈ allPackages q ∨ (w = false ∧ x ∈ declaredNames packages))
  ∧ (∀ x, x ∈ immediateDependencies q'
          ↔ x ∈ immediateDependencies q
            ∨ (w = false ∧ u = false ∧ x ∈ declaredNames packages))
  ∧ (∀ x, x ∈ clientJsImports q'
          ↔ x ∈ clientJsImports q
            ∨ (w = false ∧ u = false ∧ forClient archs = true
               ∧ x ∈ meteorNameToNodeName <$> declaredNames packages))
  ∧ (∀ x, x ∈ serverJsImports q'
          ↔ x ∈ serverJsImports q
            ∨ (w = false ∧ u = false ∧ forServer archs = true
               ∧ x ∈ meteorNameToNodeName <$> declaredNames packages))
  ∧ (∀ k, map_get k (depsOf deps q')
          = if bool_decide (k ∈ meteorNameToNodeName <$> declaredNames packages)
            then Some meteorVersionPlaceholderSymbol
            else map_get k (depsOf deps q))
  ∧ (∀ t, t ≠ deps → depsOf t q' = depsOf t q).
Proof.
  cbv zeta. revert q. induction packages as [|dep packages IH]; intros q; cbn [foldl].
  - split_and!; try done.
    + intros x. split; [by left|]. intros [?|(_ & H)]; [done|].
      by apply elem_of_nil in H.
    + intros x. split; [by left|]. intros [?|(_ & _ & H)]; [done|].
      by apply elem_of_nil in H.
    + intros x. split; [by left|]. intros [?|(_ & _ & _ & H)]; [done|].
      by apply elem_of_nil in H.
    + intros x. split; [by left|]. intros [?|(_ & _ & _ & H)]; [done|].
      by apply elem_of_nil in H.
  - set (q1 := addMeteorDependency _ _ _ _ q dep).
    destruct (IH q1) as (Ha & Hi & Hc & Hs & Hd & Ho). clear IH.
    pose proof (addMeteorDependency_fields deps archs opts q dep)
      as Hf.
    cbv zeta in Hf. fold q1 in Hf. rewrite declaredNames_cons.
    case_bool_decide as Hex.
    { rewrite Hf in *. done. }
    destruct Hf as (Fa & Fi & Fc & Fs & Fd & Fo).
    destruct (addImport_imports
                (meteorNameToNodeName (packageNameOf dep)) archs q) as [Ic Is].
    split_and!.
    + intros x. rewrite Ha, Fa.
      destruct (from_option weak false opts);
        rewrite ?elem_of_set_add, ?elem_of_cons; intuition congruence.
    + intros x. rewrite Hi, Fi.
      destruct (from_option weak false opts), (from_option unordered false opts);
        cbn [orb]; rewrite ?elem_of_set_add, ?elem_of_cons; intuition congruence.
    + intros x. rewrite Hc, Fc, Ic, fmap_cons.
      destruct (from_option weak false opts), (from_option unordered false opts),
               (forClient archs);
        cbn [orb]; rewrite ?elem_of_set_add, ?elem_of_cons; intuition congruence.
    + intros x. rewrite Hs, Fs, Is, fmap_cons.
      destruct (from_option weak false opts), (from_option unordered false opts),
               (forServer archs);
        cbn [orb]; rewrite ?elem_of_set_add, ?elem_of_cons; intuition congruence.
    + intros k. rewrite Hd, Fd, fmap_cons.
      destruct (decide (k = meteorNameToNodeName (packageNameOf dep))) as [->|Hne].
      * rewrite map_get_set_eq.
        rewrite (bool_decide_eq_true_2 (_ ∈ _ :: _)) by left.
        by case_bool_decide.
      * rewrite map_get_set_ne by done.
        case_bool_decide as H1; case_bool_decide as H2; try done.
        -- exfalso. apply H2. by right.
        -- exfalso. apply elem_of_cons in H2 as [?|?]; done.
    + intros t Ht. by rewrite (Ho t Ht), (Fo t Ht).
Qed.

Lemma addMeteorDependency_fold_frame deps archs opts packages q :
  let q' := foldl (addMeteorDependency meteorNameToNodeName deps archs opts)
              q packages in
  meteorName q' = meteorName q ∧ nodeName q' = nodeName q
  ∧ version q' = version q ∧ description q' = description q
  ∧ serverJsExports q' = serverJsExports q ∧ clientJsExports q' = clientJsExports q
  ∧ impliedClientPackages q' = impliedClientPackages q
  ∧ impliedServerPackages q' = impliedServerPackages q
  ∧ serverMainModule q' = serverMainModule q
  ∧ clientMainModule q' = clientMainModule q
  ∧ clientAssets q' = clientAssets q ∧ serverAssets q' = serverAssets q.
Proof.
  cbv zeta. revert q. induction packages as [|dep packages IH]; intros q; cbn [foldl].
  - by split_and!.
  - destruct (IH (addMeteorDependency meteorNameToNodeName deps archs opts q dep))
      as (H1 & H2 & H3 & H4 & H5 & H6 & H7 & H8 & H9 & H10 & H11 & H12).
    destruct (addMeteorDependency_frame deps archs opts q dep)
      as (F1 & F2 & F3 & F4 & F5 & F6 & F7 & F8 & F9 & F10 & F11 & F12).
    split_and!; congruence.
Qed.

(** The two automatic blocks: [mongo] for a [qualia:] package, then
    [meteor]. *)
Lemma addMeteorDependencies_nil_fields archs opts p :
  nodeName p ≠ Some "@meteor/meteor" →
  let base := addMeteorDependencies meteorNameToNodeName [] archs opts p in
  let qualia := startsWith "qualia:" (meteorName p) in
  (∀ x, x ∈ allPackages base
        ↔ x ∈ allPackages p ∨ x = "meteor" ∨ (qualia = true ∧ x = "mongo"))
  ∧ (∀ x, x ∈ immediateDependencies base
          ↔ x ∈ immediateDependencies p ∨ x = "meteor"
            ∨ (qualia = true ∧ x = "mongo"))
  ∧ (∀ x, x ∈ clientJsImports base
          ↔ x ∈ clientJsImports p
            ∨ (isCommon p = false
               ∧ (x = "@meteor/meteor" ∨ (qualia = true ∧ x = "@meteor/mongo"))))
  ∧ (∀ x, x ∈ serverJsImports base
          ↔ x ∈ serverJsImports p
            ∨ (isCommon p = false
               ∧ (x = "@meteor/meteor" ∨ (qualia = true ∧ x = "@meteor/mongo"))))
  ∧ (∀ k, (k = "@meteor/meteor" ∨ (qualia = true ∧ k = "@meteor/mongo") →
           map_get k (dependencies base) = Some meteorVersionPlaceholderSymbol)
          ∧ (k ≠ "@meteor/meteor" → (qualia = true → k ≠ "@meteor/mongo") →
             map_get k (dependencies base) = map_get k (dependencies p)))
  ∧ peerDependencies base = peerDependencies p
  ∧ optionalDependencies base = optionalDependencies p.
Proof.
  intros Hname. cbv zeta. unfold addMeteorDependencies. cbn [foldl].
  assert (∀ q, meteorName q = meteorName p → isCommon q = isCommon p) as Hc.
  { intros q Hq. unfold isCommon. by rewrite Hq. }
  destruct (startsWith "qualia:" (meteorName p)).
  - rewrite (Hc (with_immediateDependencies _ _)) by done.
    destruct (isCommon p) eqn:Hcp; cbn [negb].
    + rewrite bool_decide_eq_false_2 by done. cbn [negb].
      rewrite (Hc (with_immediateDependencies _ _)) by done.
      cbn [negb]. simpl.
      split_and!; try done.
      * intros x. rewrite !elem_of_set_add. intuition congruence.
      * intros x. rewrite !elem_of_set_add. intuition congruence.
      * intros x. intuition congruence.
      * intros x. intuition congruence.
      * intros k. split.
        -- intros [-> | [_ ->]]; [apply map_get_set_eq|].
           rewrite map_get_set_ne by done. apply map_get_set_eq.
        -- intros H1 H2. rewrite !map_get_set_ne; auto; intros <-; first [by apply H1|by apply H2].
    + rewrite bool_decide_eq_false_2 by done. cbn [negb].
      rewrite (Hc (with_immediateDependencies _ _)) by done.
      cbn [negb]. unfold addImport. simpl.
      split_and!; try done.
      * intros x. rewrite !elem_of_set_add. intuition congruence.
      * intros x. rewrite !elem_of_set_add. intuition congruence.
      * intros x. rewrite !elem_of_set_add. intuition congruence.
      * intros x. rewrite !elem_of_set_add. intuition congruence.
      * intros k. split.
        -- intros [-> | [_ ->]]; [apply map_get_set_eq|].
           rewrite map_get_set_ne by done. apply map_get_set_eq.
        -- intros H1 H2. rewrite !map_get_set_ne; auto; intros <-; first [by apply H1|by apply H2].
  - rewrite bool_decide_eq_false_2 by done. cbn [negb].
    rewrite (Hc (with_immediateDependencies _ _)) by done.
    destruct (isCommon p) eqn:Hcp; cbn [negb]; unfold addImport; simpl.
    + split_and!; try done.
      * intros x. rewrite !elem_of_set_add. intuition congruence.
      * intros x. rewrite !elem_of_set_add. intuition congruence.
      * intros x. intuition congruence.
      * intros x. intuition congruence.
      * intros k. split.
        -- intros [-> | [? _]]; [apply map_get_set_eq|done].
        -- intros H1 H2. rewrite !map_get_set_ne; auto; intros <-; first [by apply H1|by apply H2].
    + split_and!; try done.
      * intros x. rewrite !elem_of_set_add. intuition congruence.
      * intros x. rewrite !elem_of_set_add. intuition congruence.
      * intros x. rewrite !elem_of_set_add. intuition congruence.
      * intros x. rewrite !elem_of_set_add. intuition congruence.
      * intros k. split.
        -- intros [-> | [? _]]; [apply map_get_set_eq|done].
        -- intros H1 H2. rewrite !map_get_set_ne; auto; intros <-; first [by apply H1|by apply H2].
Qed.

Lemma addMeteorDependencies_nil_frame archs opts p :
  let q' := addMeteorDependencies meteorNameToNodeName [] archs opts p in
  meteorName q' = meteorName p ∧ nodeName q' = nodeName p
  ∧ version q' = version p ∧ description q' = description p
  ∧ serverJsExports q' = serverJsExports p ∧ clientJsExports q' = clientJsExports p
  ∧ impliedClientPackages q' = impliedClientPackages p
  ∧ impliedServerPackages q' = impliedServerPackages p
  ∧ serverMainModule q' = serverMainModule p
  ∧ clientMainModule q' = clientMainModule p
  ∧ clientAssets q' = clientAssets p ∧ serverAssets q' = serverAssets p.
Proof.
  cbv zeta. unfold addMeteorDependencies. cbn [foldl].
  destruct (startsWith "qualia:" (meteorName p));
    repeat match goal with
           | |- context [if ?b then _ else _] => destruct b
           end;
    unfold addImport; simpl; by split_and!.
Qed.

(** C10.  On a unit whose node name is not [@meteor/meteor], a call of
    [addMeteorDependencies] leaves [@meteor/meteor] in the dependency map
    as a placeholder and [meteor] in the all-packages and immediate
    dependency sets, and unless the package is one of the legacy-interop
    ones it leaves an [@meteor/meteor] import on client and server,
    whatever the declared packages are.  The call does nothing else to the
    unit than this, the same for [mongo] on a [qualia:] package, and the
    declared packages: the two sets and the two import sets hold what
    they held before, the automatic names, and the declared packages that
    are not excluded (none when weak; on the immediate set and the
    imports none when unordered, and on the imports only for the
    architectures asked); the dependency objects hold a placeholder for
    the automatic names (required dependencies) and for the declared
    packages (in the object the options choose) and are otherwise as
    before; names, version, description, exports, implied packages, main
    modules and assets are as before. *)
Theorem addMeteorDependencies_adds_meteor packages archs opts p :
  nodeName p ≠ Some "@meteor/meteor" →
  let p' := addMeteorDependencies meteorNameToNodeName packages archs opts p in
  let qualia := startsWith "qualia:" (meteorName p) in
  let w := from_option weak false opts in
  let u := from_option unordered false opts in
  let target := if u then Peer else if w then Optional else Required in
  let declared := declaredNames packages in
  let specifiers := meteorNameToNodeName <$> declared in
  map_get "@meteor/meteor" (dependencies p') = Some meteorVersionPlaceholderSymbol
  ∧ "meteor" ∈ allPackages p'
  ∧ "meteor" ∈ immediateDependencies p'
  ∧ (if isCommon p then True
     else "@meteor/meteor" ∈ clientJsImports p'
          ∧ "@meteor/meteor" ∈ serverJsImports p')
  ∧ (∀ x, x ∈ allPackages p'
          ↔ x ∈ allPackages p ∨ x = "meteor" ∨ (qualia = true ∧ x = "mongo")
            ∨ (w = false ∧ x ∈ declared))
  ∧ (∀ x, x ∈ immediateDependencies p'
          ↔ x ∈ immediateDependencies p ∨ x = "meteor"
            ∨ (qualia = true ∧ x = "mongo")
            ∨ (w = false ∧ u = false ∧ x ∈ declared))
  ∧ (∀ x, x ∈ clientJsImports p'
          ↔ x ∈ clientJsImports p
            ∨ (isCommon p = false
               ∧ (x = "@meteor/meteor" ∨ (qualia = true ∧ x = "@meteor/mongo")))
            ∨ (w = false ∧ u = false ∧ forClient archs = true ∧ x ∈ specifiers))
  ∧ (∀ x, x ∈ serverJsImports p'
          ↔ x ∈ serverJsImports p
            ∨ (isCommon p = false
               ∧ (x = "@meteor/meteor" ∨ (qualia = true ∧ x = "@meteor/mongo")))
            ∨ (w = false ∧ u = false ∧ forServer archs = true ∧ x ∈ specifiers))
  ∧ (∀ t k,
       ((t = target ∧ k ∈ specifiers)
        ∨ (t = Required
           ∧ (k = "@meteor/meteor" ∨ (qualia = true ∧ k = "@meteor/mongo"))) →
        map_get k (depsOf t p') = Some meteorVersionPlaceholderSymbol)
       ∧ (¬ (t = target ∧ k ∈ specifiers) →
          ¬ (t = Required
             ∧ (k = "@meteor/meteor" ∨ (qualia = true ∧ k = "@meteor/mongo"))) →
          map_get k (depsOf t p') = map_get k (depsOf t p)))
  ∧ meteorName p' = meteorName p ∧ nodeName p' = nodeName p
  ∧ version p' = version p ∧ description p' = description p
  ∧ serverJsExports p' = serverJsExports p ∧ clientJsExports p' = clientJsExports p
  ∧ impliedClientPackages p' = impliedClientPackages p
  ∧ impliedServerPackages p' = impliedServerPackages p
  ∧ serverMainModule p' = serverMainModule p
  ∧ clientMainModule p' = clientMainModule p
  ∧ clientAssets p' = clientAssets p ∧ serverAssets p' = serverAssets p.
Proof.
  intros Hname. cbv zeta. rewrite addMeteorDependencies_base.
  set (target := if from_option unordered false opts then Peer else _).
  set (base := addMeteorDependencies meteorNameToNodeName [] archs opts p).
  destruct (addMeteorDependencies_nil_fields archs opts p Hname)
    as (Ba & Bi & Bc & Bs & Bd & Bp & Bo).
  fold base in Ba, Bi, Bc, Bs, Bd, Bp, Bo.
  destruct (addMeteorDependency_fold target archs opts packages base)
    as (Fa & Fi & Fc & Fs & Fd & Fo).
  pose proof (addMeteorDependencies_nil_frame archs opts p) as Hb.
  pose proof (addMeteorDependency_fold_frame target archs opts packages base) as Hf.
  cbv zeta in Hb, Hf. fold base in Hb.
  set (p' := foldl _ base packages) in *.
  assert (∀ t k,
    ((t = target ∧ k ∈ meteorNameToNodeName <$> declaredNames packages)
     ∨ (t = Required
        ∧ (k = "@meteor/meteor"
           ∨ (startsWith "qualia:" (meteorName p) = true ∧ k = "@meteor/mongo"))) →
     map_get k (depsOf t p') = Some meteorVersionPlaceholderSymbol)
    ∧ (¬ (t = target ∧ k ∈ meteorNameToNodeName <$> declaredNames packages) →
       ¬ (t = Required
          ∧ (k = "@meteor/meteor"
             ∨ (startsWith "qualia:" (meteorName p) = true ∧ k = "@meteor/mongo"))) →
       map_get k (depsOf t p') = map_get k (depsOf t p))) as Hdeps.
  { assert (∀ t, t = target ∨ t ≠ target) as Hdec.
    { intros t. clearbody target. destruct t, target; auto; by right. }
    intros t k. destruct (Bd k) as [B1 B2].
    destruct (Hdec t) as [-> | Ht].
    - rewrite Fd. case_bool_decide as Hk; split.
      + done.
      + intros Hn. exfalso. by apply Hn.
      + intros [[_ ?] | [Ht Hauto]]; [done|].
        rewrite Ht. by apply B1.
      + intros _ Hn. destruct target; simpl; [|by rewrite Bp|by rewrite Bo].
        apply B2.
        * intros ->. apply Hn. split; [done|by left].
        * intros Hq ->. apply Hn. split; [done|by right].
    - rewrite (Fo t Ht). split.
      + intros [[? _] | [-> Hauto]]; [done|]. by apply B1.
      + intros _ Hn. destruct t; simpl; [|by rewrite Bp|by rewrite Bo].
        apply B2.
        * intros ->. apply Hn. split; [done|by left].
        * intros Hq ->. apply Hn. split; [done|by right]. }
  assert ("meteor" ∈ allPackages p') as Hma.
  { apply Fa. left. apply Ba. right. by left. }
  assert ("meteor" ∈ immediateDependencies p') as Hmi.
  { apply Fi. left. apply Bi. right. by left. }
  split_and!; try done; try (destruct Hb as (?&?&?&?&?&?&?&?&?&?&?&?);
    destruct Hf as (?&?&?&?&?&?&?&?&?&?&?&?); congruence).
  - apply (Hdeps Required "@meteor/meteor"). right. split; [done|by left].
  - destruct (isCommon p) eqn:Hcp; [done|]. split.
    + apply Fc. left. apply Bc. right. split; [done|by left].
    + apply Fs. left. apply Bs. right. split; [done|by left].
  - intros x. rewrite Fa, Ba. tauto.
  - intros x. rewrite Fi, Bi. tauto.
  - intros x. rewrite Fc, Bc. tauto.
  - intros x. rewrite Fs, Bs. tauto.
Qed.

End WithNaming.

(** C10 on a concrete unit: [blaze], whose declared dependencies are
    [tracker] and the excluded [ecmascript], on the client only. *)
Lemma addMeteorDependencies_adds_meteor_witness :
  let p := Examples.loadedUnit "blaze" "2.5.0" ["Blaze"] in
  let p' := addMeteorDependencies Examples.nodeNameOf
              ["tracker@1.2.0"; "ecmascript"] (Some ["client"]) None p in
  nodeName p ≠ Some "@meteor/meteor"
  ∧ "meteor" ∈ allPackages p'
  ∧ (∀ x, x ∈ allPackages p' ↔ x = "meteor" ∨ x = "tracker")
  ∧ (∀ x, x ∈ serverJsImports p' ↔ x = "@meteor/meteor")
  ∧ (∀ x, x ∈ clientJsImports p' ↔ x = "@meteor/meteor" ∨ x = "@meteor/tracker")
  ∧ meteorName p' = "blaze".
Proof.
  cbv zeta.
  assert (nodeName (Examples.loadedUnit "blaze" "2.5.0" ["Blaze"])
          ≠ Some "@meteor/meteor") as Hname by discriminate.
  split; [exact Hname|].
  destruct (addMeteorDependencies_adds_meteor Examples.nodeNameOf
              ["tracker@1.2.0"; "ecmascript"] (Some ["client"]) None
              (Examples.loadedUnit "blaze" "2.5.0" ["Blaze"]) Hname)
    as (_ & Hm & _ & _ & Ha & _ & Hc & Hs & _ & Hn & _).
  split; [exact Hm|].
  change (declaredNames ["tracker@1.2.0"; "ecmascript"]) with ["tracker"]
    in Ha, Hc, Hs.
  change (startsWith "qualia:" _) with false in Ha, Hc, Hs.
  change (isCommon _) with false in Hc, Hs.
  change (forClient _) with true in Hc.
  change (forServer _) with false in Hs.
  change (allPackages (Examples.loadedUnit _ _ _)) with (@nil string) in Ha.
  change (clientJsImports (Examples.loadedUnit _ _ _)) with (@nil string) in Hc.
  change (serverJsImports (Examples.loadedUnit _ _ _)) with (@nil string) in Hs.
  change (Examples.nodeNameOf <$> ["tracker"]) with ["@meteor/tracker"] in Hc, Hs.
  split_and!.
  - intros x. rewrite Ha, elem_of_cons, !elem_of_nil. simpl. intuition congruence.
  - intros x. rewrite Hs, elem_of_cons, !elem_of_nil. simpl. intuition congruence.
  - intros x. rewrite Hc, elem_of_cons, !elem_of_nil. simpl. intuition congruence.
  - exact Hn.
Defined.

(** X17 on [ecmascript], declared with a version. *)
Lemma excluded_never_added_witness :
  "ecmascript" ∈ excludes
  ∧ let used := addMeteorDependencies nodeNameOf ["ecmascript@0.16.0"; "tracker"]
                  None None (loadedUnit "blaze" "2.5.0" ["Blaze"]) in
    allPackages used = ["meteor"; "tracker"]
    ∧ ("ecmascript" ∈ allPackages used
       ↔ "ecmascript" ∈ allPackages (loadedUnit "blaze" "2.5.0" ["Blaze"])).
Proof.
  assert ("ecmascript" ∈ excludes) as Hx by (by left).
  split; [exact Hx|]. cbv zeta. split; [reflexivity|].
  apply (excluded_never_added nodeNameOf ["ecmascript@0.16.0"; "tracker"] None None
           (loadedUnit "blaze" "2.5.0" ["Blaze"]) "ecmascript" Hx).
Defined.

End PackageDeps.

(** ** The package unit: implied imports, descriptors, resolution *)

Module PackageLoad.
Import Package PackageFacts Examples.

(** *** Importing what the dependencies imply *)

Lemma addImportString_client name p :
  addImportString name "client" p
  = with_clientJsImports (set_add name (clientJsImports p)) p.
Proof. reflexivity. Qed.

Lemma addImportString_server name p :
  addImportString name "server" p
  = with_serverJsImports (set_add name (serverJsImports p)) p.
Proof. reflexivity. Qed.

Lemma foldl_addImportString_client names p :
  foldl (λ p name, addImportString name "client" p) p names
  = with_clientJsImports (foldl (λ s y, set_add y s) (clientJsImports p) names) p.
Proof.
  revert p. induction names as [|n names IH]; intros p; cbn [foldl].
  - by destruct p.
  - rewrite IH, addImportString_client. by destruct p.
Qed.

Lemma foldl_addImportString_server names p :
  foldl (λ p name, addImportString name "server" p) p names
  = with_serverJsImports (foldl (λ s y, set_add y s) (serverJsImports p) names) p.
Proof.
  revert p. induction names as [|n names IH]; intros p; cbn [foldl].
  - by destruct p.
  - rewrite IH, addImportString_server. by destruct p.
Qed.

(** The loop over any list of dependency names. *)
Lemma importImplied_fold (packageMap : gmap string MeteorPackage) deps p x :
  let p' := foldl (λ p dep,
                     match packageMap !! nodeNameToMeteorName dep with
                     | None => p
                     | Some importedPackage =>
                         let p := foldl (λ p name, addImportString name "client" p) p
                                    (getImplies "client" importedPackage) in
                         foldl (λ p name, addImportString name "server" p) p
                           (getImplies "server" importedPackage)
                     end) p deps in
  (x ∈ clientJsImports p'
   ↔ x ∈ clientJsImports p
     ∨ ∃ dep q, dep ∈ deps ∧ packageMap !! nodeNameToMeteorName dep = Some q
                ∧ x ∈ impliedClientPackages q)
  ∧ (x ∈ serverJsImports p'
     ↔ x ∈ serverJsImports p
       ∨ ∃ dep q, dep ∈ deps ∧ packageMap !! nodeNameToMeteorName dep = Some q
                  ∧ x ∈ impliedServerPackages q)
  ∧ dependencies p' = dependencies p
  ∧ peerDependencies p' = peerDependencies p
  ∧ optionalDependencies p' = optionalDependencies p
  ∧ allPackages p' = allPackages p
  ∧ immediateDependencies p' = immediateDependencies p.
Proof.
  cbv zeta. revert p. induction deps as [|d deps IH]; intros p; cbn [foldl].
  - split_and!; try done.
    + split; [by left|]. intros [?|(dep & q & Hin & _)]; [done|].
      by apply elem_of_nil in Hin.
    + split; [by left|]. intros [?|(dep & q & Hin & _)]; [done|].
      by apply elem_of_nil in Hin.
  - set (p1 := match packageMap !! nodeNameToMeteorName d with
               | None => p
               | Some importedPackage => _
               end).
    destruct (IH p1) as (Hc & Hs & Hd & Hp & Ho & Ha & Hi).
    assert ((x ∈ clientJsImports p1
             ↔ x ∈ clientJsImports p
               ∨ ∃ q, packageMap !! nodeNameToMeteorName d = Some q
                      ∧ x ∈ impliedClientPackages q)
            ∧ (x ∈ serverJsImports p1
               ↔ x ∈ serverJsImports p
                 ∨ ∃ q, packageMap !! nodeNameToMeteorName d = Some q
                        ∧ x ∈ impliedServerPackages q)
            ∧ dependencies p1 = dependencies p
            ∧ peerDependencies p1 = peerDependencies p
            ∧ optionalDependencies p1 = optionalDependencies p
            ∧ allPackages p1 = allPackages p
            ∧ immediateDependencies p1 = immediateDependencies p)
      as (Ec & Es & Ed & Ep & Eo & Ea & Ei).
    { subst p1. destruct (packageMap !! nodeNameToMeteorName d) as [q|].
      - rewrite foldl_addImportString_client, foldl_addImportString_server.
        cbn [getImplies bool_decide]. simpl.
        rewrite !elem_of_foldl_set_add. split_and!; try done.
        + split; [intros [?|?]; [by left|right; by exists q]|].
          intros [?|(q' & [= <-] & ?)]; [by left|by right].
        + split; [intros [?|?]; [by left|right; by exists q]|].
          intros [?|(q' & [= <-] & ?)]; [by left|by right].
      - split_and!; try done.
        + split; [by left|]. by intros [?|(q & ? & _)].
        + split; [by left|]. by intros [?|(q & ? & _)]. }
    rewrite Hc, Hs, Hd, Hp, Ho, Ha, Hi, Ec, Es. split_and!; try done.
    + split.
      * intros [[?|(q & Hq & Hx)]|(dep & q & Hin & Hq & Hx)].
        -- by left.
        -- right. exists d, q. split; [by left|done].
        -- right. exists dep, q. split; [by right|done].
      * intros [?|(dep & q & [->|Hin]%elem_of_cons & Hq & Hx)].
        -- by left; left.
        -- left; right. by exists q.
        -- right. by exists dep, q.
    + split.
      * intros [[?|(q & Hq & Hx)]|(dep & q & Hin & Hq & Hx)].
        -- by left.
        -- right. exists d, q. split; [by left|done].
        -- right. exists dep, q. split; [by right|done].
      * intros [?|(dep & q & [->|Hin]%elem_of_cons & Hq & Hx)].
        -- by left; left.
        -- left; right. by exists q.
        -- right. by exists dep, q.
Qed.

(** X20.  At the end of a load from a descriptor the unit imports, on
    the client, what it imported before and what its registered direct
    dependencies imply for the client, and likewise on the server; the
    implied packages are imported without becoming dependencies, packages
    to load or packages to write. *)
Theorem importImplied_imports packageMap p x :
  let p' := importImplied packageMap p in
  (x ∈ clientJsImports p'
   ↔ x ∈ clientJsImports p
     ∨ ∃ dep q, dep ∈ keys (dependencies p)
                ∧ packageMap !! nodeNameToMeteorName dep = Some q
                ∧ x ∈ impliedClientPackages q)
  ∧ (x ∈ serverJsImports p'
     ↔ x ∈ serverJsImports p
       ∨ ∃ dep q, dep ∈ keys (dependencies p)
                  ∧ packageMap !! nodeNameToMeteorName dep = Some q
                  ∧ x ∈ impliedServerPackages q)
  ∧ dependencies p' = dependencies p
  ∧ peerDependencies p' = peerDependencies p
  ∧ optionalDependencies p' = optionalDependencies p
  ∧ allPackages p' = allPackages p
  ∧ immediateDependencies p' = immediateDependencies p.
Proof. apply importImplied_fold. Qed.

(** *** [findPackageJs] *)

(** What the two maps hold after the reads of [finished]. *)
Lemma recordCandidate_fold finished name :
  let found := foldl recordCandidate (∅, ∅) finished in
  match found.1 !! name with
  | None => found.2 !! name = None ∧ ∀ c, c ∈ finished → cname c ≠ name
  | Some i =>
      ∃ c, c ∈ finished ∧ cname c = name ∧ cindex c = i
           ∧ found.2 !! name = Some (cpath c)
           ∧ ∀ c', c' ∈ finished → cname c' = name → i ≤ cindex c'
  end.
Proof.
  cbv zeta. induction finished as [|c finished IH] using rev_ind.
  - simpl. rewrite !lookup_empty. split; [done|]. intros c Hc.
    by apply elem_of_nil in Hc.
  - rewrite foldl_app. cbn [foldl].
    set (found := foldl recordCandidate (∅, ∅) finished) in *.
    assert (∀ i, found.1 !! name = i →
              match i with
              | None => found.2 !! name = None ∧ ∀ c, c ∈ finished → cname c ≠ name
              | Some i =>
                  ∃ c, c ∈ finished ∧ cname c = name ∧ cindex c = i
                       ∧ found.2 !! name = Some (cpath c)
                       ∧ ∀ c', c' ∈ finished → cname c' = name → i ≤ cindex c'
              end) as IH' by (by intros i <-).
    clear IH. unfold recordCandidate. cbv zeta.
    destruct (decide (cname c = name)) as [Hname|Hname].
    + subst name. destruct (found.1 !! cname c) as [i|] eqn:Hi.
      * destruct (IH' _ eq_refl) as (c0 & Hin & Hn & Hidx & Hpath & Hmin).
        destruct (decide (cindex c < i)) as [Hlt|Hge]; cbn [fst snd].
        -- rewrite !lookup_insert_eq. exists c. split_and!; try done.
           ++ apply elem_of_app. right. by left.
           ++ intros c' [Hc'|Hc']%elem_of_app Hn'.
              ** specialize (Hmin c' Hc' Hn'). lia.
              ** apply list_elem_of_singleton in Hc'. by subst.
        -- rewrite Hi. exists c0. split_and!; try done.
           ++ apply elem_of_app. by left.
           ++ intros c' [Hc'|Hc']%elem_of_app Hn'.
              ** by apply Hmin.
              ** apply list_elem_of_singleton in Hc'. subst. lia.
      * destruct (IH' _ eq_refl) as [Hnone Hall]. cbn [fst snd].
        rewrite !lookup_insert_eq. exists c. split_and!; try done.
        -- apply elem_of_app. right. by left.
        -- intros c' [Hc'|Hc']%elem_of_app Hn'.
           ++ by destruct (Hall c' Hc').
           ++ apply list_elem_of_singleton in Hc'. by subst.
    + assert (∀ found' : Found,
                found'.1 !! name = found.1 !! name →
                found'.2 !! name = found.2 !! name →
                match found'.1 !! name with
                | None => found'.2 !! name = None
                          ∧ ∀ c0, c0 ∈ finished ++ [c] → cname c0 ≠ name
                | Some i =>
                    ∃ c0, c0 ∈ finished ++ [c] ∧ cname c0 = name ∧ cindex c0 = i
                          ∧ found'.2 !! name = Some (cpath c0)
                          ∧ ∀ c', c' ∈ finished ++ [c] → cname c' = name →
                                  i ≤ cindex c'
                end) as Hsame.
      { intros found' -> ->.
        destruct (found.1 !! name) as [i|] eqn:Hi.
        - destruct (IH' _ eq_refl) as (c0 & Hin & Hn & Hidx & Hpath & Hmin).
          exists c0. split_and!; try done.
          + apply elem_of_app. by left.
          + intros c' [Hc'|Hc']%elem_of_app Hn'; [by apply Hmin|].
            apply list_elem_of_singleton in Hc'. by subst.
        - destruct (IH' _ eq_refl) as [Hnone Hall]. split; [done|].
          intros c' [Hc'|Hc']%elem_of_app; [by apply Hall|].
          apply list_elem_of_singleton in Hc'. by subst. }
      destruct (found.1 !! cname c) as [j|]; [destruct (decide (cindex c < j))|];
        apply Hsame; cbn [fst snd]; rewrite ?lookup_insert_ne; done.
Qed.

(** X21.  Whatever the order in which the reads of the folders finish,
    the descriptor found for a package is the one of the folder that comes
    first in the search order. *)
Theorem findPackageJs_first_folder finished c :
  c ∈ finished →
  (∀ c', c' ∈ finished → cname c' = cname c → c' = c ∨ cindex c < cindex c') →
  findPackageJs finished (cname c) = Some (cpath c).
Proof.
  intros Hin Hfirst. unfold findPackageJs.
  pose proof (recordCandidate_fold finished (cname c)) as Hfold. cbv zeta in Hfold.
  destruct ((foldl recordCandidate (∅, ∅) finished).1 !! cname c) as [i|].
  - destruct Hfold as (c0 & Hin0 & Hn0 & Hidx & Hpath & Hmin).
    destruct (Hfirst c0 Hin0 Hn0) as [->|Hlt]; [done|].
    specialize (Hmin c Hin eq_refl). lia.
  - destruct Hfold as [_ Hall]. by destruct (Hall c Hin).
Qed.

(** X21 on a package that is in a local folder and in the checkout: the
    local descriptor is found although the other read finished first. *)
Lemma findPackageJs_first_folder_witness :
  {| cindex := 1; cname := "tracker"; cpath := "/app/packages/tracker/package.js" |}
    ∈ twoFolders
  ∧ findPackageJs twoFolders "tracker" = Some "/app/packages/tracker/package.js".
Proof.
  assert ({| cindex := 1; cname := "tracker";
             cpath := "/app/packages/tracker/package.js" |} ∈ twoFolders) as Hin
    by (right; left).
  split; [exact Hin|].
  apply (findPackageJs_first_folder twoFolders
           {| cindex := 1; cname := "tracker";
              cpath := "/app/packages/tracker/package.js" |} Hin).
  intros c' [->|[->|[]%elem_of_nil]%elem_of_cons]%elem_of_cons _.
  - right. simpl. lia.
  - by left.
Defined.

(** *** Resolution of imported globals *)

(** Every name bound by a map is one of [globals]. *)
Lemma bindExports_keys globals exports from (m : gmap string string) :
  (∀ x v, m !! x = Some v → x ∈ globals) →
  ∀ x v, bindExports globals exports from m !! x = Some v → x ∈ globals.
Proof.
  intros Hm x v. rewrite bindExports_lookup.
  case_bool_decide as Hx; [by destruct Hx|apply Hm].
Qed.

Lemma bindImplied_keys packageMap globals arch implies (m m' : gmap string string) :
  (∀ x v, m !! x = Some v → x ∈ globals) →
  bindImplied packageMap globals arch implies m = Ok m' →
  ∀ x v, m' !! x = Some v → x ∈ globals.
Proof.
  unfold bindImplied. revert m.
  induction implies as [|imp imps IH]; intros m Hm; simpl.
  - by intros [= <-].
  - destruct (packageMap !! _) as [q|]; simpl; [|done].
    apply IH. by apply bindExports_keys.
Qed.

Lemma bindStatic_keys p globals :
  ∀ x v, bindStatic p globals !! x = Some v → x ∈ globals.
Proof.
  unfold bindStatic.
  assert (∀ l (m : gmap string string),
            (∀ x v, m !! x = Some v → x ∈ globals) → (∀ g, g ∈ l → g ∈ globals) →
            ∀ x v,
              foldl (λ m global,
                       match map_get global globalStaticImports with
                       | Some from =>
                           if negb (bool_decide (Some from = nodeName p))
                           then <[global := from]> m else m
                       | None => m
                       end) m l !! x = Some v → x ∈ globals) as Hfold.
  { induction l as [|g l IH]; intros m Hm Hl; cbn [foldl]; [done|].
    apply IH; [|intros g' Hg'; apply Hl; by right].
    destruct (map_get g globalStaticImports) as [from|]; [|done].
    destruct (negb _); [|done].
    intros x v. destruct (decide (g = x)) as [<-|Hne].
    - intros _. apply Hl. by left.
    - rewrite lookup_insert_ne by done. apply Hm. }
  apply Hfold; [|done]. intros x v. by rewrite lookup_empty.
Qed.

Lemma union_keys (globals : list string) (a b : gmap string string) :
  (∀ x v, a !! x = Some v → x ∈ globals) →
  (∀ x v, b !! x = Some v → x ∈ globals) →
  ∀ x v, (a ∪ b) !! x = Some v → x ∈ globals.
Proof.
  intros Ha Hb x v [H|[_ H]]%lookup_union_Some_raw; [by eapply Ha|by eapply Hb].
Qed.

Lemma getImportedGlobalsMaps_keys fuel :
  ∀ packageMap p globals maps,
    getImportedGlobalsMaps fuel packageMap p globals = Ok maps →
    (∀ x v, maps.1 !! x = Some v → x ∈ globals)
    ∧ (∀ x v, maps.2 !! x = Some v → x ∈ globals).
Proof.
  induction fuel as [|fuel IH]; intros packageMap p globals maps; [done|].
  rewrite getImportedGlobalsMaps_S.
  assert (∀ deps acc,
            ((∀ x v, acc.1 !! x = Some v → x ∈ globals)
             ∧ (∀ x v, acc.2 !! x = Some v → x ∈ globals)) →
            forEach (resolveDep fuel packageMap globals) deps acc = Ok maps →
            (∀ x v, maps.1 !! x = Some v → x ∈ globals)
            ∧ (∀ x v, maps.2 !! x = Some v → x ∈ globals)) as Hdeps.
  { induction deps as [|d deps IHd]; intros acc Hacc; simpl.
    - by intros [= <-].
    - destruct (resolveDep fuel packageMap globals acc d) as [acc'|] eqn:Hd;
        simpl; [|done].
      apply IHd. unfold resolveDep in Hd.
      destruct (packageMap !! nodeNameToMeteorName d) as [q|]; [|by injection Hd as <-].
      destruct (getImportedGlobalsMaps fuel packageMap q globals) as [depMaps|] eqn:Hq;
        simpl in Hd; [|done].
      destruct (IH _ _ _ _ Hq) as [Hq1 Hq2]. destruct Hacc as [Hacc1 Hacc2].
      destruct (bindImplied _ _ "client" _ _) as [cm|] eqn:Hcm; simpl in Hd; [|done].
      destruct (bindImplied _ _ "server" _ _) as [sm|] eqn:Hsm; simpl in Hd; [|done].
      injection Hd as <-. cbn [fst snd]. split.
      + apply bindExports_keys. eapply bindImplied_keys; [|exact Hcm].
        by apply union_keys.
      + apply bindExports_keys. eapply bindImplied_keys; [|exact Hsm].
        by apply union_keys. }
  apply Hdeps. cbn [fst snd]. split; apply bindStatic_keys.
Qed.

(** X22.  The resolution binds nothing but the names it was asked for:
    every key of the client map and of the server map is one of
    [globals]. *)
Theorem getImportedGlobalsMaps_binds_requested
    fuel packageMap p globals maps arch x from :
  getImportedGlobalsMaps fuel packageMap p globals = Ok maps →
  archMap arch maps !! x = Some from →
  x ∈ globals.
Proof.
  intros Hmaps. destruct (getImportedGlobalsMaps_keys _ _ _ _ _ Hmaps) as [H1 H2].
  unfold archMap. case_bool_decide; [apply H2|apply H1].
Qed.

(** X22 on the unit that depends on [near], asked for [Widget] only. *)
Lemma getImportedGlobalsMaps_binds_requested_witness :
  ∃ maps,
    getImportedGlobalsMaps 3 impliedRegistry consumer ["Widget"] = Ok maps
    ∧ archMap "client" maps !! "Widget" = Some "@meteor/near"
    ∧ "Widget" ∈ ["Widget"].
Proof.
  eexists. split; [vm_compute; reflexivity|]. split; [reflexivity|].
  eapply (getImportedGlobalsMaps_binds_requested 3 impliedRegistry consumer
            ["Widget"] _ "client" "Widget" "@meteor/near");
    [vm_compute; reflexivity|reflexivity].
Defined.

(** X23.  The resolution calls itself on every registered dependency
    without keeping track of the units it is in: in a set of units closed
    under taking the first dependency, as on a dependency cycle, it does
    not return, whatever the bound on the depth of the calls. *)
Theorem getImportedGlobalsMaps_cycle packageMap (cyclic : MeteorPackage → Prop)
    globals fuel p :
  (∀ p, cyclic p → ∃ q, firstDependency packageMap p q ∧ cyclic q) →
  cyclic p →
  getImportedGlobalsMaps fuel packageMap p globals = Err OutOfFuel.
Proof.
  intros Hclosed. revert p. induction fuel as [|fuel IH]; intros p Hp; [done|].
  destruct (Hclosed p Hp) as (q & (d & rest & Hkeys & Hq) & Hcq).
  rewrite getImportedGlobalsMaps_S, Hkeys. cbn [forEach].
  unfold resolveDep at 1. rewrite Hq, (IH q Hcq). done.
Qed.

(** X23 on a unit that is its own first dependency. *)
Lemma getImportedGlobalsMaps_cycle_witness :
  (∀ p, p = selfUser → ∃ q, firstDependency selfRegistry p q ∧ q = selfUser)
  ∧ getImportedGlobalsMaps 100 selfRegistry selfUser ["Meteor"] = Err OutOfFuel.
Proof.
  assert (∀ p, p = selfUser → ∃ q, firstDependency selfRegistry p q ∧ q = selfUser)
    as Hclosed.
  { intros p ->. exists selfUser. split; [|done].
    exists "@meteor/loop", []. split; reflexivity. }
  split; [exact Hclosed|].
  apply (getImportedGlobalsMaps_cycle selfRegistry (λ p, p = selfUser) ["Meteor"]
           100 selfUser Hclosed eq_refl).
Defined.

(** X24.  On a registry without dependency cycles, where every unit
    ranks above its registered dependencies, and in which every implied
    package is registered, the resolution returns: it neither throws nor
    runs for ever. *)
Theorem getImportedGlobalsMaps_returns packageMap rank globals p :
  closedImplies packageMap →
  (∀ n q, packageMap !! n = Some q → ranked packageMap rank q) →
  ranked packageMap rank p →
  ∃ maps, getImportedGlobalsMaps (S (rank p)) packageMap p globals = Ok maps.
Proof.
  intros Hclosed Hranked Hp.
  apply (getImportedGlobalsMaps_total packageMap rank globals Hclosed Hranked);
    [done|lia].
Qed.

Lemma impliedRegistry_units n q :
  impliedRegistry !! n = Some q →
  q = consumer ∨ q = meteorUnit ∨ q = nearUnit ∨ q = farUnit.
Proof.
  unfold impliedRegistry. intros H.
  repeat (apply lookup_insert_Some in H as [[_ Heq]|[_ H]]; [subst q; tauto|]).
  by rewrite lookup_empty in H.
Qed.

(** X24 on the registry of [consumer], [near], [far] and [meteor]. *)
Lemma getImportedGlobalsMaps_returns_witness :
  closedImplies impliedRegistry
  ∧ (∀ n q, impliedRegistry !! n = Some q → ranked impliedRegistry impliedRank q)
  ∧ ranked impliedRegistry impliedRank consumer
  ∧ ∃ maps, getImportedGlobalsMaps (S (impliedRank consumer)) impliedRegistry
              consumer ["Widget"] = Ok maps.
Proof.
  assert (closedImplies impliedRegistry) as Hclosed.
  { intros n q arch imp Hq Himp.
    assert (imp = "@meteor/far") as ->.
    { unfold getImplies in Himp.
      destruct (impliedRegistry_units n q Hq) as [-> | [-> | [-> | ->]]];
        destruct (bool_decide (arch = "server")).
      all: match type of Himp with
           | _ ∈ ?l => let l' := eval vm_compute in l in change l with l' in Himp
           end.
      all: repeat (apply elem_of_cons in Himp as [Himp|Himp]; [done|]).
      all: by apply elem_of_nil in Himp. }
    vm_compute. by eexists. }
  assert (∀ n q, impliedRegistry !! n = Some q → ranked impliedRegistry impliedRank q)
    as Hranked.
  { intros n q Hq d q' Hd Hq'.
    destruct (impliedRegistry_units n q Hq) as [-> | [-> | [-> | ->]]].
    all: match type of Hd with
         | _ ∈ ?l => let l' := eval vm_compute in l in change l with l' in Hd
         end.
    all: repeat (apply elem_of_cons in Hd as [Hd|Hd];
                 [subst d; vm_compute in Hq'; injection Hq' as <-; vm_compute; lia|]).
    all: by apply elem_of_nil in Hd. }
  split; [exact Hclosed|]. split; [exact Hranked|].
  assert (ranked impliedRegistry impliedRank consumer) as Hp.
  { apply (Hranked "consumer"). reflexivity. }
  split; [exact Hp|].
  apply (getImportedGlobalsMaps_returns impliedRegistry impliedRank ["Widget"]
           consumer Hclosed Hranked Hp).
Defined.

End PackageLoad.

(** ** The registry: the order of the work *)

Module RegistryOrder.
Import Registry RegistryFacts Examples.

Lemma precedes_nil earlier later : precedes earlier later [].
Proof. intros pre post H. by destruct pre. Qed.

Lemma precedes_snoc earlier later tr e :
  precedes earlier later tr → (e = later → earlier ∈ tr) →
  precedes earlier later (tr ++ [e]).
Proof.
  intros Htr He pre post Heq.
  destruct post as [|x post _] using rev_ind.
  - apply app_inj_tail in Heq as [-> ->]. by apply He.
  - rewrite app_comm_cons, app_assoc in Heq.
    apply app_inj_tail in Heq as [Heq _]. by apply (Htr pre post).
Qed.

Lemma madeBefore_nil u later : madeBefore u later [].
Proof. intros pre post H. by destruct pre. Qed.

Lemma madeBefore_snoc u later tr e :
  madeBefore u later tr → (e = later → ∃ name, Registered name u ∈ tr) →
  madeBefore u later (tr ++ [e]).
Proof.
  intros Htr He pre post Heq.
  destruct post as [|x post _] using rev_ind.
  - apply app_inj_tail in Heq as [-> ->]. by apply He.
  - rewrite app_comm_cons, app_assoc in Heq.
    apply app_inj_tail in Heq as [Heq _]. by apply (Htr pre post).
Qed.

Lemma count_elem e w : 1 ≤ count e w → e ∈ trace w.
Proof.
  unfold count, countP. intros H.
  destruct (List.filter (λ e', bool_decide (e' = e)) (trace w)) as [|x l] eqn:Hf;
    [simpl in H; lia|].
  assert (In x (List.filter (λ e', bool_decide (e' = e)) (trace w))) as Hx
    by (rewrite Hf; left; done).
  apply filter_In in Hx as [Hx Hd]. apply bool_decide_eq_true_1 in Hd.
  subst x. by apply list_elem_of_In.
Qed.

Lemma loader_started w u t i :
  Inv w u → tasks w !! i = Some t → taskUnit t = Some u →
  LoadStarted u ∈ trace w.
Proof.
  intros H Hi Hn. apply count_elem.
  destruct (inv_tasks w u H t (list_elem_of_lookup_2 _ _ _ Hi) Hn) as [x Hx].
  rewrite (inv_load_started w u H), (inv_created w u H).
  unfold flag. by rewrite Hx.
Qed.

(** What one transition adds to the trace. *)
Lemma step_trace w w' :
  (∀ u, Inv w u) → step w w' →
  ∃ es, trace w' = trace w ++ es
        ∧ (es = []
           ∨ (∃ n u, es = [Registered n u; LoadStarted u])
           ∨ (∃ n u, es = [Stored n u])
           ∨ (∃ u, es = [LoadFinished u] ∧ LoadStarted u ∈ trace w)
           ∨ (∃ u, es = [LoadFailed u; LoadFinished u] ∧ LoadStarted u ∈ trace w)
           ∨ (∃ u, es = [WriteStarted u] ∧ LoadFinished u ∈ trace w)
           ∨ (∃ u, es = [WriteFinished u] ∧ WriteStarted u ∈ trace w)).
Proof.
  intros Hinv [[n|n|n|i nm stored|i|i] Ha]; simpl in Ha.
  - injection Ha as <-. unfold ensurePackage.
    destruct (packageMap w !! n); simpl.
    + exists []. split; [by rewrite app_nil_r|by left].
    + eexists. split; [done|]. right; left. by eexists _, _.
  - injection Ha as <-. unfold convertPackage.
    case_bool_decide; [exists []; split; [by rewrite app_nil_r|by left]|].
    destruct (packageMap w !! n); simpl.
    + exists []. split; [by rewrite app_nil_r|by left].
    + eexists. split; [done|]. right; left. by eexists _, _.
  - unfold writeToNpmModule in Ha. destruct (packageMap w !! n); [|done].
    injection Ha as <-. exists []. split; [by rewrite app_nil_r|by left].
  - unfold describe in Ha.
    destruct (tasks w !! i) as [t|] eqn:Hi; [|done].
    destruct t as [v [|]|v|n|v|v [|]|v|v|v|v|v b]; try done;
      (destruct (units w !! v) as [x|] eqn:Hx; simpl in Ha; [|done]);
      injection Ha as <-; simpl; eexists; (split; [done|]);
      (destruct stored; [right; right; left; by eexists _, _|by left]).
  - unfold fail in Ha.
    destruct (tasks w !! i) as [t|] eqn:Hi; [|done].
    destruct t as [v d|v|n|v|v d|v|v|v|v|v b]; try done;
      (destruct (units w !! v) as [x|] eqn:Hx; simpl in Ha; [|done]);
      injection Ha as <-; simpl; eexists; (split; [done|]);
      right; right; right; right; left; exists v; (split; [done|]);
      by eapply loader_started.
  - unfold resume in Ha.
    destruct (tasks w !! i) as [t|] eqn:Hi; [|done].
    destruct t as [v [|]|v|n|v|v [|]|v|v|v|v|v b]; try done;
      (destruct (units w !! v) as [x|] eqn:Hx; simpl in Ha; [|done]).
    + injection Ha as <-. eexists. split; [done|]. right; right; right; left.
      exists v. split; [done|]. by eapply loader_started.
    + injection Ha as <-. eexists. split; [done|]. right; right; right; left.
      exists v. split; [done|]. by eapply loader_started.
    + destruct (loaded x) eqn:Hl; [|done]. destruct (alreadyWritten x).
      * injection Ha as <-. exists []. split; [by rewrite app_nil_r|by left].
      * injection Ha as <-. eexists. split; [done|].
        do 5 right. left.
        exists v. split; [done|]. apply count_elem.
        rewrite (inv_loaded w v (Hinv v)). unfold flag. by rewrite Hx, Hl.
    + injection Ha as <-. eexists. split; [done|]. do 6 right.
      exists v. split; [done|]. apply count_elem.
      pose proof (inv_write_finished w v (Hinv v)) as Hwf.
      assert (isWorking v (WriteWorking v) = true) as Hworking
        by (unfold isWorking; by apply bool_decide_eq_true_2).
      pose proof (tcount_lookup (isWorking v) w i (WriteWorking v) Hi Hworking).
      lia.
    + destruct (written x); [|done].
      injection Ha as <-. exists []. split; [by rewrite app_nil_r|by left].
Qed.

(** X25.  In every state the schedule can reach the work on a unit is
    in order: in the trace a unit is made and registered before its load
    starts, the load starts before it finishes, the load has finished
    before the write starts, and the write starts before it finishes. *)
Theorem trace_in_order w u :
  reachable w →
  madeBefore u (LoadStarted u) (trace w)
  ∧ precedes (LoadStarted u) (LoadFinished u) (trace w)
  ∧ precedes (LoadFinished u) (WriteStarted u) (trace w)
  ∧ precedes (WriteStarted u) (WriteFinished u) (trace w).
Proof.
  induction 1 as [|w w' Hw IH Hstep].
  - split_and!; [apply madeBefore_nil|apply precedes_nil..].
  - destruct IH as (H1 & H2 & H3 & H4).
    destruct (inv_reachable w Hw) as [Hinv _].
    destruct (step_trace w w' Hinv Hstep) as (es & -> & Hes).
    destruct Hes as [->|[(n & v & ->)|[(n & v & ->)|[(v & -> & Hin)|
                    [(v & -> & Hin)|[(v & -> & Hin)|(v & -> & Hin)]]]]]].
    + rewrite app_nil_r. done.
    + change [Registered n v; LoadStarted v]
        with ([Registered n v] ++ [LoadStarted v]).
      rewrite app_assoc.
      split_and!; [repeat apply madeBefore_snoc|repeat apply precedes_snoc..];
        try done; intros ?; simplify_eq.
      exists n. apply elem_of_app. right. left.
    + split_and!; [apply madeBefore_snoc|apply precedes_snoc..];
        try done; intros ?; by simplify_eq.
    + split_and!; [apply madeBefore_snoc|apply precedes_snoc..];
        try done; intros ?; by simplify_eq.
    + change [LoadFailed v; LoadFinished v]
        with ([LoadFailed v] ++ [LoadFinished v]).
      rewrite app_assoc.
      split_and!; [repeat apply madeBefore_snoc|repeat apply precedes_snoc..];
        try done; intros ?; simplify_eq.
      apply elem_of_app. by left.
    + split_and!; [apply madeBefore_snoc|apply precedes_snoc..];
        try done; intros ?; by simplify_eq.
    + split_and!; [apply madeBefore_snoc|apply precedes_snoc..];
        try done; intros ?; by simplify_eq.
Qed.

(** X25 on the run with two requests and two writes. *)
Lemma trace_in_order_witness :
  reachable afterTwoWrites
  ∧ trace afterTwoWrites
    = [Registered "tracker" 0; LoadStarted 0; Stored "tracker" 0; LoadFinished 0;
       WriteStarted 0; WriteFinished 0]
  ∧ madeBefore 0 (LoadStarted 0) (trace afterTwoWrites)
  ∧ precedes (LoadStarted 0) (LoadFinished 0) (trace afterTwoWrites)
  ∧ precedes (LoadFinished 0) (WriteStarted 0) (trace afterTwoWrites)
  ∧ precedes (WriteStarted 0) (WriteFinished 0) (trace afterTwoWrites).
Proof.
  assert (reachable afterTwoWrites) as Hw.
  { apply (run_reachable twoWrites initial); [constructor|reflexivity]. }
  split; [exact Hw|]. split; [reflexivity|].
  apply (trace_in_order afterTwoWrites 0 Hw).
Defined.

(** *** Nothing is undone *)

Lemma keepsSignals_refl u : keepsSignals u u.
Proof. by split_and!. Qed.

Lemma keepsSignals_trans u1 u2 u3 :
  keepsSignals u1 u2 → keepsSignals u2 u3 → keepsSignals u1 u3.
Proof. intros (?&?&?) (?&?&?). split_and!; auto. Qed.

Lemma extends_refl w : extends w w.
Proof.
  split_and!; try done. intros u x Hx. exists x.
  split; [done|apply keepsSignals_refl].
Qed.

Lemma extends_trans w1 w2 w3 : extends w1 w2 → extends w2 w3 → extends w1 w3.
Proof.
  intros (T1 & P1 & U1) (T2 & P2 & U2). split_and!.
  - by etrans.
  - auto.
  - intros u x Hx. destruct (U1 u x Hx) as (x1 & Hx1 & K1).
    destruct (U2 u x1 Hx1) as (x2 & Hx2 & K2).
    exists x2. split; [done|]. by eapply keepsSignals_trans.
Qed.

Lemma extends_new us pm ts ts' tr es name x :
  extends (mkWorld us pm ts tr)
    (mkWorld (us ++ [x]) (<[name := List.length us]> pm) ts' (tr ++ es)).
Proof.
  split_and!; simpl.
  - by apply prefix_app_r.
  - intros n. destruct (decide (n = name)) as [->|Hne].
    + rewrite lookup_insert_eq. by eexists.
    + by rewrite lookup_insert_ne.
  - intros u y Hy. exists y. split; [by apply lookup_app_l_Some|].
    apply keepsSignals_refl.
Qed.

Lemma extends_update us pm pm' ts ts' tr es v x y :
  us !! v = Some x → keepsSignals x y →
  (∀ name, is_Some (pm !! name) → is_Some (pm' !! name)) →
  extends (mkWorld us pm ts tr) (mkWorld (<[v := y]> us) pm' ts' (tr ++ es)).
Proof.
  intros Hv Hk Hpm. split_and!; simpl.
  - by apply prefix_app_r.
  - done.
  - intros u z Hz. rewrite (lookup_insert_unit _ _ _ _ _ Hv).
    case_decide as Hu.
    + subst u. exists y. split; [done|]. by simplify_eq.
    + exists z. split; [done|apply keepsSignals_refl].
Qed.

Lemma extends_calls us pm ts ts' tr :
  extends (mkWorld us pm ts tr) (mkWorld us pm ts' tr).
Proof.
  split_and!; simpl; try done. intros u x Hx. exists x.
  split; [done|apply keepsSignals_refl].
Qed.

Lemma perform_extends a w w' : perform a w = Some w' → extends w w'.
Proof.
  destruct w as [us pm ts tr]. destruct a as [n|n|n|i nm stored|i|i]; simpl.
  - intros [= <-]. unfold ensurePackage. simpl.
    destruct (pm !! n) eqn:Hn; [apply extends_calls|apply extends_new].
  - intros [= <-]. unfold convertPackage. simpl. case_bool_decide.
    { apply extends_refl. }
    destruct (pm !! n) eqn:Hn; [apply extends_refl|apply extends_new].
  - unfold writeToNpmModule. simpl. destruct (pm !! n); [|done].
    intros [= <-]. apply extends_calls.
  - unfold describe. simpl. destruct (ts !! i) as [t|]; [|done].
    destruct t as [v [|]|v|n|v|v [|]|v|v|v|v|v b]; try done;
      (destruct (us !! v) as [x|] eqn:Hx; simpl; [|done]);
      intros [= <-]; (apply (extends_update _ _ _ _ _ _ _ _ x); [done|by split_and!|]);
      intros name; destruct stored; try done;
      (destruct (decide (name = match nm with
                                | Some (String c r) => String c r
                                | _ => meteorName x
                                end)) as [->|Hne];
       [rewrite lookup_insert_eq; by eexists|by rewrite lookup_insert_ne]).
  - unfold fail. simpl. destruct (ts !! i) as [t|]; [|done].
    destruct t as [v d|v|n|v|v d|v|v|v|v|v b]; try done;
      (destruct (us !! v) as [x|] eqn:Hx; simpl; [|done]);
      intros [= <-]; (apply (extends_update _ _ _ _ _ _ _ _ x); [done|by split_and!|done]).
  - unfold resume. simpl. destruct (ts !! i) as [t|]; [|done].
    destruct t as [v [|]|v|n|v|v [|]|v|v|v|v|v b]; try done;
      (destruct (us !! v) as [x|] eqn:Hx; simpl; [|done]).
    + intros [= <-]. by apply (extends_update _ _ _ _ _ _ _ _ x); [|split_and!|].
    + intros [= <-]. by apply (extends_update _ _ _ _ _ _ _ _ x); [|split_and!|].
    + destruct (loaded x); [|done]. destruct (alreadyWritten x).
      * intros [= <-]. apply extends_calls.
      * intros [= <-]. by apply (extends_update _ _ _ _ _ _ _ _ x); [|split_and!|].
    + intros [= <-]. by apply (extends_update _ _ _ _ _ _ _ _ x); [|split_and!|].
    + destruct (written x); [|done]. intros [= <-]. apply extends_calls.
Qed.

(** X26.  Nothing is undone: along any run the trace only grows, a name
    that is in the registry stays in the registry, a unit of the store
    stays in the store, and a signal of a unit that is set (loaded, write
    begun, written) stays set. *)
Theorem run_keeps actions w w' :
  run actions w = Some w' →
  trace w `prefix_of` trace w'
  ∧ (∀ name, is_Some (packageMap w !! name) → is_Some (packageMap w' !! name))
  ∧ (∀ u x, units w !! u = Some x →
            ∃ x', units w' !! u = Some x' ∧ keepsSignals x x').
Proof.
  revert w. induction actions as [|a actions IH]; intros w; simpl.
  - intros [= <-]. apply extends_refl.
  - destruct (perform a w) as [w1|] eqn:Ha; simpl; [|done]. intros Hrun.
    apply (extends_trans w w1 w'); [by eapply perform_extends|by apply IH].
Qed.

(** X26 on the run with two requests and two writes, from the state
    after the two requests. *)
Lemma run_keeps_witness :
  run (drop 2 twoWrites) twoRequests = Some afterTwoWrites
  ∧ trace twoRequests `prefix_of` trace afterTwoWrites
  ∧ (∀ name, is_Some (packageMap twoRequests !! name) →
             is_Some (packageMap afterTwoWrites !! name))
  ∧ (∀ u x, units twoRequests !! u = Some x →
            ∃ x', units afterTwoWrites !! u = Some x' ∧ keepsSignals x x').
Proof.
  assert (run (drop 2 twoWrites) twoRequests = Some afterTwoWrites) as Hrun
    by reflexivity.
  split; [exact Hrun|].
  apply (run_keeps (drop 2 twoWrites) twoRequests afterTwoWrites Hrun).
Defined.

End RegistryOrder.
